(** * Stamhoofd: the local-first synchronisation engine of the dashboard

    A shallow embedding of
    - [WebshopManager] (frontend/app/dashboard/.../webshop/WebshopManager.ts):
      the IndexedDB mirror of a webshop's orders and tickets, the sync
      cursors, the page loops and the ticket patch queue;
    - [MemberManagerStatic] (decryptMembers, decryptMembersWithoutRegistrations);
    - [SodiumStatic] (the sealed and the authenticated boxes, the
      signatures and the key pairs);
    - [Filter], [FilterDecoder] and [ChoicesFilter] (shared/structures/src/filters).

    Asynchronous methods are state transformers over the fields of the
    manager and its database; a promise is the [outcome] of running one. *)

From stdpp Require Import base option list gmap strings fin_maps.
From Stdlib Require Import ZArith Lia.

Local Open Scope string_scope.
Local Open Scope Z_scope.
Local Open Scope list_scope.

(** ** Errors and outcomes *)

(** What the code can throw or reject with. *)
Inductive error : Type :=
| SimpleError (code : string)      (* new SimpleError({ code, message }) *)
| JsError (message : string)       (* new Error(message) *)
| DOMException (name : string)     (* raised by an IndexedDB call *)
| RequestError (reason : string).  (* a server request that rejected *)

(** A promise: resolved, rejected, or not settled (a request the server
    never answers, a loop whose fuel is used up). *)
Inductive outcome (A : Type) : Type :=
| Resolved (a : A)
| Rejected (e : error)
| Unfinished.
Arguments Resolved {A} a.
Arguments Rejected {A} e.
Arguments Unfinished {A}.

Definition finished {A} (o : outcome A) : bool :=
  match o with Unfinished => false | _ => true end.

(** A field of type [T | null | undefined]. *)
Inductive Nullable (A : Type) : Type :=
| undefined
| null
| value (a : A).
Arguments undefined {A}.
Arguments null {A}.
Arguments value {A} a.

(** [x ?? null] *)
Definition orNull {A} (x : option A) : Nullable A :=
  match x with Some a => value a | None => null end.

(** [x ? f(x) : undefined] for a cursor field *)
Definition whenSet {A B} (x : Nullable A) (f : A -> option B) : option B :=
  match x with value a => f a | _ => None end.

(** ** Structures

    Dates are millisecond timestamps. Only the fields the engine reads are
    kept; [payload] stands for the rest of the record. *)

(** Latest version of the structures *)
Definition Version : Z := 125.

Module Order.
Record t : Type := create
  { id : string; number : option Z; updatedAt : Z; payload : string }.
End Order.

Module TicketPrivate.
Record t : Type := create
  { id : option string;
    secret : string;
    updatedAt : Z;
    scannedAt : option Z;
    scannedBy : option string }.
End TicketPrivate.

(** [AutoEncoderPatchType<TicketPrivate>]: the identifying [secret] and,
    per field, either no change ([None]) or the new value. *)
Module TicketPatch.
Record t : Type := create
  { secret : string;
    scannedAt : option (option Z);
    scannedBy : option (option string) }.
End TicketPatch.

(** Modelled from the spec: [TicketPrivate.patch], of the structures package,
    is not among the sources. A patch "applies these field changes": a
    field the patch sets replaces the ticket's, the others are kept. *)
Definition patch (ticket : TicketPrivate.t) (p : TicketPatch.t) : TicketPrivate.t :=
  {| TicketPrivate.id := TicketPrivate.id ticket;
     TicketPrivate.secret := TicketPrivate.secret ticket;
     TicketPrivate.updatedAt := TicketPrivate.updatedAt ticket;
     TicketPrivate.scannedAt :=
       default (TicketPrivate.scannedAt ticket) (TicketPatch.scannedAt p);
     TicketPrivate.scannedBy :=
       default (TicketPrivate.scannedBy ticket) (TicketPatch.scannedBy p) |}.

(** The object literals [{ updatedAt, number }] and [{ updatedAt, id }]:
    a field the literal does not set reads as undefined. *)
Module Cursor.
Record t : Type := create
  { updatedAt : Z; number : option Z; id : option string }.
End Cursor.

Module WebshopOrdersQuery.
Record t : Type := create
  { updatedSince : option Z; afterNumber : option Z }.
End WebshopOrdersQuery.

Module WebshopTicketsQuery.
Record t : Type := create
  { updatedSince : option Z; lastId : option string }.
End WebshopTicketsQuery.

Module PaginatedResponse.
Record t (T Q : Type) : Type := create
  { results : list T; next : option Q }.
Arguments create {T Q} results next.
Arguments results {T Q} _.
Arguments next {T Q} _.
End PaginatedResponse.

(** ** IndexedDB

    An object store has an optional key path and its records. The records
    are kept decoded: [encode] and [decode] at the same [Version] are
    inverse to each other. *)

Record ObjectStore (V : Type) : Type := Build_ObjectStore
  { keyPath : option string; records : gmap string V }.
Arguments Build_ObjectStore {V} keyPath records.
Arguments keyPath {V} _.
Arguments records {V} _.

(** The value of a key path on an encoded record. *)
Class Encodeable (V : Type) : Type :=
  evalKeyPath : string -> V -> option string.

#[export] Instance Order_Encodeable : Encodeable Order.t :=
  fun path o => if String.eqb path "id" then Some (Order.id o) else None.

#[export] Instance TicketPrivate_Encodeable : Encodeable TicketPrivate.t :=
  fun path t =>
    if String.eqb path "id" then TicketPrivate.id t
    else if String.eqb path "secret" then Some (TicketPrivate.secret t)
    else None.

#[export] Instance TicketPatch_Encodeable : Encodeable TicketPatch.t :=
  fun path p => if String.eqb path "secret" then Some (TicketPatch.secret p) else None.

#[export] Instance Cursor_Encodeable : Encodeable Cursor.t :=
  fun path c => if String.eqb path "id" then Cursor.id c else None.

Definition createStore {V} (keyPath : option string) : ObjectStore V :=
  Build_ObjectStore keyPath ∅.

(** [objectStore.put(value, key?)]: in-line keys come from the key path,
    out-of-line keys from the argument; anything else is a DataError. *)
Definition put {V} `{Encodeable V} (v : V) (key : option string)
    (s : ObjectStore V) : error + ObjectStore V :=
  match keyPath s, key with
  | Some path, None =>
      match evalKeyPath path v with
      | Some k => inr (Build_ObjectStore (keyPath s) (<[k := v]> (records s)))
      | None => inl (DOMException "DataError")
      end
  | None, Some k => inr (Build_ObjectStore (keyPath s) (<[k := v]> (records s)))
  | _, _ => inl (DOMException "DataError")
  end.

Definition get {V} (key : string) (s : ObjectStore V) : option V :=
  records s !! key.

(** [objectStore.getAll()]: the records, one per key. IndexedDB lists them
    by ascending key; the order plays no role below. *)
Definition getAll {V} (s : ObjectStore V) : list V :=
  (map_to_list (records s)).*2.

Definition delete_key {V} (key : string) (s : ObjectStore V) : ObjectStore V :=
  Build_ObjectStore (keyPath s) (delete key (records s)).

Definition clear {V} (s : ObjectStore V) : ObjectStore V :=
  Build_ObjectStore (keyPath s) ∅.

Record IDBDatabase : Type := Build_IDBDatabase
  { version : Z;
    db_orders : option (ObjectStore Order.t);
    db_tickets : option (ObjectStore TicketPrivate.t);
    db_ticketPatches : option (ObjectStore TicketPatch.t);
    db_settings : option (ObjectStore Cursor.t) }.

Definition emptyDatabase (v : Z) : IDBDatabase :=
  Build_IDBDatabase v None None None None.

Definition set_version (v : Z) (db : IDBDatabase) : IDBDatabase :=
  Build_IDBDatabase v (db_orders db) (db_tickets db) (db_ticketPatches db) (db_settings db).
Definition set_orders s (db : IDBDatabase) : IDBDatabase :=
  Build_IDBDatabase (version db) s (db_tickets db) (db_ticketPatches db) (db_settings db).
Definition set_tickets s (db : IDBDatabase) : IDBDatabase :=
  Build_IDBDatabase (version db) (db_orders db) s (db_ticketPatches db) (db_settings db).
Definition set_ticketPatches s (db : IDBDatabase) : IDBDatabase :=
  Build_IDBDatabase (version db) (db_orders db) (db_tickets db) s (db_settings db).
Definition set_settings s (db : IDBDatabase) : IDBDatabase :=
  Build_IDBDatabase (version db) (db_orders db) (db_tickets db) (db_ticketPatches db) s.

Definition named {A} (name : string) (store : option A) : list string :=
  match store with Some _ => [name] | None => [] end.

Definition objectStoreNames (db : IDBDatabase) : list string :=
  named "orders" (db_orders db) ++ named "tickets" (db_tickets db) ++
  named "ticketPatches" (db_ticketPatches db) ++ named "settings" (db_settings db).

Definition hasStore (db : IDBDatabase) (name : string) : bool :=
  bool_decide (name ∈ objectStoreNames db).

(** [db.createObjectStore(name, { keyPath })]: a ConstraintError when the
    store exists already. The database has these four collections only. *)
Definition createObjectStore (name : string) (keyPath : option string)
    (db : IDBDatabase) : error + IDBDatabase :=
  if hasStore db name then inl (DOMException "ConstraintError")
  else if String.eqb name "orders" then inr (set_orders (Some (createStore keyPath)) db)
  else if String.eqb name "tickets" then inr (set_tickets (Some (createStore keyPath)) db)
  else if String.eqb name "ticketPatches"
       then inr (set_ticketPatches (Some (createStore keyPath)) db)
  else if String.eqb name "settings" then inr (set_settings (Some (createStore keyPath)) db)
  else inl (DOMException "NotSupportedError").

(** [transaction.objectStore(name).clear()]: a NotFoundError when the
    database has no store of that name. *)
Definition clearObjectStore (name : string) (db : IDBDatabase) : error + IDBDatabase :=
  if negb (hasStore db name) then inl (DOMException "NotFoundError")
  else if String.eqb name "orders" then inr (set_orders (clear <$> db_orders db) db)
  else if String.eqb name "tickets" then inr (set_tickets (clear <$> db_tickets db) db)
  else if String.eqb name "ticketPatches"
       then inr (set_ticketPatches (clear <$> db_ticketPatches db) db)
  else inr (set_settings (clear <$> db_settings db) db).

Definition andThen {E A B} (x : E + A) (f : A -> E + B) : E + B :=
  match x with inl e => inl e | inr a => f a end.

(** The [onupgradeneeded] handler of [getDatabase]. *)
Definition onupgradeneeded (oldVersion : Z) (db : IDBDatabase) : error + IDBDatabase :=
  if oldVersion <? 1 then
    (* Version 1 is the first version of the database. *)
    andThen (createObjectStore "orders" (Some "id") db) (fun db =>
    andThen (createObjectStore "tickets" (Some "secret") db) (fun db =>
    andThen (createObjectStore "ticketPatches" (Some "secret") db) (fun db =>
    createObjectStore "settings" None db)))
  else
    (* For now: we clear all stores if we have a version update *)
    andThen (clearObjectStore "orders" db) (fun db =>
    andThen (clearObjectStore "tickets" db) (fun db =>
    andThen (clearObjectStore "ticketPatches" db) (fun db =>
    clearObjectStore "settings" db))).

(** [window.indexedDB]: whether the browser lets the page open a database,
    and the database stored under the name ['webshop-' + id], if any. *)
Record IDBFactory : Type := Build_IDBFactory
  { supported : bool; stored : option IDBDatabase }.

(** What [indexedDB.open(name, version)] ends with. *)
Inductive OpenResult : Type :=
| onsuccess (result : IDBDatabase)
| onerror.

(** Whether an open request fires [upgradeneeded]: the database on disk is
    older than the requested version (a database that does not exist yet
    has version 0). *)
Definition storedVersion (f : IDBFactory) : Z :=
  match stored f with Some db => version db | None => 0 end.

Definition upgradeNeeded (f : IDBFactory) (requested : Z) : bool :=
  storedVersion f <? requested.

(** [indexedDB.open]: an upgrade runs the handler in a version-change
    transaction, and an exception in the handler aborts the request; a
    database newer than the requested version is a VersionError. *)
Definition indexedDB_open (f : IDBFactory) (requested : Z) : OpenResult :=
  if negb (supported f) then onerror
  else if upgradeNeeded f requested then
    match onupgradeneeded (storedVersion f)
            (set_version requested (default (emptyDatabase 0) (stored f))) with
    | inr db => onsuccess db
    | inl _ => onerror
    end
  else
    match stored f with
    | Some db => if version db =? requested then onsuccess db else onerror
    | None => onerror
    end.

(** ** The manager and its environment *)

(** What an observer of the manager sees: the requests sent to the server,
    the transactions opened on the database, the events published to the
    listeners and the console. *)
Inductive Event : Type :=
| GET_orders (query : WebshopOrdersQuery.t) (shouldRetry : bool)
| GET_tickets (query : WebshopTicketsQuery.t) (shouldRetry : bool)
| PATCH_tickets (body : list TicketPatch.t)
| Transaction (storeNames : list string) (readwrite : bool)
| SendEvent (type : string) (orders : list Order.t)
| ConsoleLog (message : string)
| ConsoleWarn (message : string)
| ConsoleError (e : error)
| ConsoleErrorMessage (message : string).

Definition isRequest (ev : Event) : bool :=
  match ev with
  | GET_orders _ _ | GET_tickets _ _ | PATCH_tickets _ => true
  | _ => false
  end.

(** A read-write transaction on the one store [name]. *)
Definition isCommit (name : string) (ev : Event) : bool :=
  match ev with
  | Transaction [n] true => String.eqb n name
  | _ => false
  end.

(** The fields of a [WebshopManager], then [window.indexedDB] and the
    events so far (latest first). An open [database] holds the records;
    [databasePromise] is only ever observed once it has rejected. *)
Record State : Type := Build_State
  { database : option IDBDatabase;
    databasePromise : option error;
    lastFetchedOrder : Nullable Cursor.t;
    lastFetchedTicket : Nullable Cursor.t;
    isLoadingOrders : bool;
    isLoadingTickets : bool;
    savingTicketPatches : bool;
    indexedDB : IDBFactory;
    trace : list Event }.

Definition set_database x (st : State) : State :=
  Build_State x (databasePromise st) (lastFetchedOrder st) (lastFetchedTicket st)
    (isLoadingOrders st) (isLoadingTickets st) (savingTicketPatches st)
    (indexedDB st) (trace st).
Definition set_databasePromise x (st : State) : State :=
  Build_State (database st) x (lastFetchedOrder st) (lastFetchedTicket st)
    (isLoadingOrders st) (isLoadingTickets st) (savingTicketPatches st)
    (indexedDB st) (trace st).
Definition set_lastFetchedOrder x (st : State) : State :=
  Build_State (database st) (databasePromise st) x (lastFetchedTicket st)
    (isLoadingOrders st) (isLoadingTickets st) (savingTicketPatches st)
    (indexedDB st) (trace st).
Definition set_lastFetchedTicket x (st : State) : State :=
  Build_State (database st) (databasePromise st) (lastFetchedOrder st) x
    (isLoadingOrders st) (isLoadingTickets st) (savingTicketPatches st)
    (indexedDB st) (trace st).
Definition set_isLoadingOrders x (st : State) : State :=
  Build_State (database st) (databasePromise st) (lastFetchedOrder st)
    (lastFetchedTicket st) x (isLoadingTickets st) (savingTicketPatches st)
    (indexedDB st) (trace st).
Definition set_isLoadingTickets x (st : State) : State :=
  Build_State (database st) (databasePromise st) (lastFetchedOrder st)
    (lastFetchedTicket st) (isLoadingOrders st) x (savingTicketPatches st)
    (indexedDB st) (trace st).
Definition set_savingTicketPatches x (st : State) : State :=
  Build_State (database st) (databasePromise st) (lastFetchedOrder st)
    (lastFetchedTicket st) (isLoadingOrders st) (isLoadingTickets st) x
    (indexedDB st) (trace st).
Definition emit (ev : Event) (st : State) : State :=
  Build_State (database st) (databasePromise st) (lastFetchedOrder st)
    (lastFetchedTicket st) (isLoadingOrders st) (isLoadingTickets st)
    (savingTicketPatches st) (indexedDB st) (ev :: trace st).

(** The manager in a browser whose IndexedDB has become [x]. *)
Definition set_indexedDB x (st : State) : State :=
  Build_State (database st) (databasePromise st) (lastFetchedOrder st)
    (lastFetchedTicket st) (isLoadingOrders st) (isLoadingTickets st)
    (savingTicketPatches st) x (trace st).

(** A manager as the constructor leaves it. *)
Definition newManager (idb : IDBFactory) : State :=
  Build_State None None undefined undefined false false false idb [].

(** ** Asynchronous code *)

Definition Async (A : Type) : Type := State -> outcome A * State.

Definition ret {A} (a : A) : Async A := fun st => (Resolved a, st).
Definition throw {A} (e : error) : Async A := fun st => (Rejected e, st).
Definition unfinished {A} : Async A := fun st => (Unfinished, st).

Definition bind {A B} (c : Async A) (k : A -> Async B) : Async B :=
  fun st =>
    match c st with
    | (Resolved a, st') => k a st'
    | (Rejected e, st') => (Rejected e, st')
    | (Unfinished, st') => (Unfinished, st')
    end.

Notation "'await' x ':=' c 'in' k" := (bind c (fun x => k))
  (at level 10, x name, c at level 100, k at level 200).

Definition gets {A} (f : State -> A) : Async A := fun st => (Resolved (f st), st).
Definition modify (f : State -> State) : Async unit := fun st => (Resolved tt, f st).

(** [try { c } catch (e) { handler(e) }] *)
Definition tryCatch {A} (c : Async A) (handler : error -> Async A) : Async A :=
  fun st =>
    match c st with
    | (Rejected e, st') => handler e st'
    | r => r
    end.

(** [try { c } finally { cleanup }]: the cleanup runs when [c] settles. *)
Definition tryFinally {A} (c : Async A) (cleanup : State -> State) : Async A :=
  fun st =>
    match c st with
    | (Unfinished, st') => (Unfinished, st')
    | (o, st') => (o, cleanup st')
    end.

(** [c.catch(console.error)] without an await, for the writes of a page
    to the local database: the caller goes on whatever becomes of [c]. The
    task is run to its end where it is started: its transactions are queued
    in the order of the calls, before those of any later call, and IndexedDB
    serves the transactions on a store in that order. A task that holds a
    guard over a request, the flush [addTicketPatch] starts, is split at
    its first await instead. *)
Definition detached {A} (c : Async A) : Async unit :=
  fun st =>
    match c st with
    | (Rejected e, st') => (Resolved tt, emit (ConsoleError e) st')
    | (_, st') => (Resolved tt, st')
    end.

Definition liftE {A} (x : error + A) : Async A :=
  match x with inl e => throw e | inr a => ret a end.

(** *** Opening the database

    [getDatabase] of a production build ([NODE_ENV] is not ["development"],
    so a failed open deletes nothing). Calls run one after the other here,
    so the promise of an open in progress is never met; a rejected one
    stays in [databasePromise] and is what every later call returns. *)

Definition getDatabase : Async IDBDatabase :=
  fun st =>
    match database st with
    | Some db => (Resolved db, st)
    | None =>
      match databasePromise st with
      | Some e => (Rejected e, st)
      | None =>
        match indexedDB_open (indexedDB st) Version with
        | onsuccess db => (Resolved db, set_database (Some db) st)
        | onerror =>
            let e := SimpleError "not_supported" in
            (Rejected e, set_databasePromise (Some e)
                           (emit (ConsoleError (DOMException "error")) st))
        end
      end
    end.

(** [db.transaction(storeNames, mode)]: a NotFoundError when a store is
    missing. The body then works on the records of the open database. *)
Definition transaction (storeNames : list string) (readwrite : bool) : Async IDBDatabase :=
  await db := getDatabase in
  if forallb (hasStore db) storeNames
  then await _ := modify (emit (Transaction storeNames readwrite)) in ret db
  else throw (DOMException "NotFoundError").

Definition transaction_objectStore {V} (store : option (ObjectStore V)) : Async (ObjectStore V) :=
  match store with
  | Some s => ret s
  | None => throw (DOMException "NotFoundError")
  end.

Definition commit (update : IDBDatabase -> IDBDatabase) : Async unit :=
  modify (fun st => set_database (update <$> database st) st).

(** [for (const v of values) { objectStore.put(v.encode(...)) }]: a put that
    throws ends the loop; the puts before it stay in the transaction. *)
Fixpoint putAll {V} `{Encodeable V} (values : list V) (s : ObjectStore V)
    : option error * ObjectStore V :=
  match values with
  | [] => (None, s)
  | v :: rest =>
      match put v None s with
      | inr s' => putAll rest s'
      | inl e => (Some e, s)
      end
  end.

Definition settle (thrown : option error) : Async unit :=
  match thrown with Some e => throw e | None => ret tt end.

Definition readSettingKey (key : string) : Async (option Cursor.t) :=
  await db := transaction ["settings"] false in
  await objectStore := transaction_objectStore (db_settings db) in
  ret (get key objectStore).

Definition storeSettingKey (key : string) (v : Cursor.t) : Async unit :=
  await db := transaction ["settings"] true in
  await objectStore := transaction_objectStore (db_settings db) in
  await objectStore := liftE (put v (Some key) objectStore) in
  commit (set_settings (Some objectStore)).

Definition storeOrders (orders : list Order.t) : Async unit :=
  await db := transaction ["orders"] true in
  await objectStore := transaction_objectStore (db_orders db) in
  let '(thrown, objectStore) := putAll orders objectStore in
  await _ := commit (set_orders (Some objectStore)) in
  settle thrown.

Definition getTicketPatchesFromDatabase : Async (list TicketPatch.t) :=
  await db := transaction ["ticketPatches"] false in
  await objectStore := transaction_objectStore (db_ticketPatches db) in
  ret (getAll objectStore).

Definition storeTicketPatches (patches : list TicketPatch.t) : Async unit :=
  await db := transaction ["ticketPatches"] true in
  await ticketPatches := transaction_objectStore (db_ticketPatches db) in
  let '(thrown, ticketPatches) := putAll patches ticketPatches in
  await _ := commit (set_ticketPatches (Some ticketPatches)) in
  settle thrown.

(** The loop of [storeTickets]: put the ticket, then remove any patch saved
    for its secret. *)
Fixpoint storeTickets_loop (tickets : list TicketPrivate.t) (clearPatches : bool)
    (objectStore : ObjectStore TicketPrivate.t) (ticketPatches : ObjectStore TicketPatch.t)
    : option error * (ObjectStore TicketPrivate.t * ObjectStore TicketPatch.t) :=
  match tickets with
  | [] => (None, (objectStore, ticketPatches))
  | ticket :: rest =>
      match put ticket None objectStore with
      | inr objectStore' =>
          storeTickets_loop rest clearPatches objectStore'
            (if clearPatches
             then delete_key (TicketPrivate.secret ticket) ticketPatches
             else ticketPatches)
      | inl e => (Some e, (objectStore, ticketPatches))
      end
  end.

Definition storeTickets (tickets : list TicketPrivate.t) (clearPatches : bool) : Async unit :=
  await db := transaction ["tickets"; "ticketPatches"] true in
  await objectStore := transaction_objectStore (db_tickets db) in
  await ticketPatches := transaction_objectStore (db_ticketPatches db) in
  let '(thrown, (objectStore, ticketPatches)) :=
    storeTickets_loop tickets clearPatches objectStore ticketPatches in
  await _ := commit (fun db => set_ticketPatches (Some ticketPatches)
                                 (set_tickets (Some objectStore) db)) in
  settle thrown.

Definition getTicketFromDatabase (secret : string) (withPatches : bool)
    : Async (option TicketPrivate.t) :=
  await db := transaction ["tickets"; "ticketPatches"] false in
  await objectStore := transaction_objectStore (db_tickets db) in
  await ticketPatches := transaction_objectStore (db_ticketPatches db) in
  match get secret objectStore with
  | None => ret None
  | Some ticket =>
      if withPatches then
        match get secret ticketPatches with
        | None => (* no patch found *) ret (Some ticket)
        | Some p =>
            await _ := modify (emit (ConsoleLog "Found patched ticket in database")) in
            ret (Some (patch ticket p))
        end
      else ret (Some ticket)
  end.

Definition getOrderFromDatabase (id : string) : Async (option Order.t) :=
  await db := transaction ["orders"] false in
  await objectStore := transaction_objectStore (db_orders db) in
  ret (get id objectStore).

Definition getOrdersFromDatabase : Async (list Order.t) :=
  await db := transaction ["orders"] false in
  await objectStore := transaction_objectStore (db_orders db) in
  ret (getAll objectStore).

Definition setlastFetchedOrder (order : Order.t) : Async unit :=
  let cursor := Cursor.create (Order.updatedAt order) (Order.number order) None in
  await _ := modify (set_lastFetchedOrder (value cursor)) in
  storeSettingKey "lastFetchedOrder" cursor.

Definition setLastFetchedTicket (ticket : TicketPrivate.t) : Async unit :=
  let cursor :=
    Cursor.create (TicketPrivate.updatedAt ticket) None (TicketPrivate.id ticket) in
  await _ := modify (set_lastFetchedTicket (value cursor)) in
  storeSettingKey "lastFetchedTicket" cursor.

Definition isUndefined {A} (x : Nullable A) : bool :=
  match x with undefined => true | _ => false end.

(** ** The server

    The authenticated server is outside the manager: what a request settles
    with may depend on the request and on everything that happened before
    it. [Request.isNetworkError] is the classification of the networking
    package. *)
Section Server.

Variable isNetworkError : error -> bool.

Variable server_GET_orders :
  list Event -> WebshopOrdersQuery.t ->
  outcome (PaginatedResponse.t Order.t WebshopOrdersQuery.t).
Variable server_GET_tickets :
  list Event -> WebshopTicketsQuery.t ->
  outcome (PaginatedResponse.t TicketPrivate.t WebshopTicketsQuery.t).
Variable server_PATCH_tickets :
  list Event -> list TicketPatch.t -> outcome (list TicketPrivate.t).

Definition request {Q A} (ev : Event) (server : list Event -> Q -> outcome A)
    (q : Q) : Async A :=
  fun st => (server (trace st) q, emit ev st).

Definition fetchOrders (query : WebshopOrdersQuery.t) (retry : bool)
    : Async (PaginatedResponse.t Order.t WebshopOrdersQuery.t) :=
  request (GET_orders query retry) server_GET_orders query.

Definition fetchTickets (query : WebshopTicketsQuery.t) (retry : bool)
    : Async (PaginatedResponse.t TicketPrivate.t WebshopTicketsQuery.t) :=
  request (GET_tickets query retry) server_GET_tickets query.

Definition patchTickets (patches : list TicketPatch.t) : Async (list TicketPrivate.t) :=
  (* Then make one try for a request (might fail if we don't have internet) *)
  await response := request (PATCH_tickets patches) server_PATCH_tickets patches in
  (* Move all data to original order *)
  await _ := tryCatch (storeTickets response true)
               (fun e => (* No db support or other error. Should ignore *)
                  modify (emit (ConsoleError e))) in
  ret response.

(** *** The patch queue *)

(** [trySavePatches] up to its first await: the guard. It answers whether
    this invocation goes on to flush. *)
Definition trySavePatches_enter : Async bool :=
  await saving := gets savingTicketPatches in
  if saving then (* Already working on it *) ret false
  else
    await _ := modify (set_savingTicketPatches true) in
    ret true.

(** From [patches.length > 0] to the end of [trySavePatches]. *)
Definition trySavePatches_submit (patches : list TicketPatch.t) : Async unit :=
  await _ :=
    (if 0 <? Z.of_nat (length patches) then
       tryCatch (await _ := patchTickets patches in ret tt)
         (fun e =>
            if isNetworkError e then
              (* failed. ignore the error for now *) ret tt
            else
              await _ := modify (set_savingTicketPatches false) in
              throw e)
     else ret tt) in
  modify (set_savingTicketPatches false).

Definition trySavePatches : Async unit :=
  await proceed := trySavePatches_enter in
  if proceed then
    await patches := getTicketPatchesFromDatabase in
    trySavePatches_submit patches
  else ret tt.

(** [trySavePatches] from its first await on: what is left to do of an
    invocation that has passed the guard. *)
Definition trySavePatches_resume : Async unit :=
  await patches := getTicketPatchesFromDatabase in
  trySavePatches_submit patches.

(** [addTicketPatch] up to where its promise resolves. [trySavePatches] is
    called without an await: it runs to its first await, and the caller
    goes on while that flush is in flight, with the guard set and nothing
    sent yet. The value tells whether the call has started a flush. *)
Definition addTicketPatch (p : TicketPatch.t) : Async bool :=
  (* First save the patch in the local database *)
  await _ := storeTicketPatches [p] in
  (* Try to save all remaining patches to the server (once). Don't wait *)
  trySavePatches_enter.

(** The flush a call of [addTicketPatch] has started, from its first await
    to its end: [.catch(console.error)]. *)
Definition addTicketPatch_flush : Async unit :=
  tryCatch trySavePatches_resume (fun e => modify (emit (ConsoleError e))).

(** *** The page loops *)

(** The body of [if (response.results.length > 0)] in [fetchNewOrders]. *)
Definition fetchNewOrders_page (results : list Order.t) : Async unit :=
  if 0 <? Z.of_nat (length results) then
    (* Save these orders to the local database. Non-critical: *)
    await _ := detached
      (await _ := storeOrders results in
       modify (emit (ConsoleLog "Saved orders to the local database"))) in
    (* Non-critical: *)
    await _ := detached
      (match last results with
       | Some order => setlastFetchedOrder order
       | None => throw (JsError "TypeError")
       end) in
    (* Already send these new orders to our listeners *)
    detached (modify (emit (SendEvent "fetched" results)))
  else ret tt.

(** [while (query) { ... }]: one unit of fuel per page. *)
Fixpoint fetchNewOrders_loop (fuel : nat) (retry : bool)
    (query : option WebshopOrdersQuery.t) : Async unit :=
  match query with
  | None => ret tt
  | Some q =>
    match fuel with
    | O => unfinished
    | S fuel =>
      await response := fetchOrders q retry in
      await _ := fetchNewOrders_page (PaginatedResponse.results response) in
      fetchNewOrders_loop fuel retry (PaginatedResponse.next response)
    end
  end.

(** The [try] block of [fetchNewOrders]. *)
Definition fetchNewOrders_try (fuel : nat) (retry reset : bool) : Async unit :=
  await last := gets lastFetchedOrder in
  await _ :=
    (if negb reset && isUndefined last then
       (* Only once (if undefined) *)
       tryCatch
         (await stored := readSettingKey "lastFetchedOrder" in
          modify (set_lastFetchedOrder (orNull stored)))
         (fun e =>
            await _ := modify (emit (ConsoleError e)) in
            (* Probably no database support. Ignore it and load everything. *)
            modify (set_lastFetchedOrder null))
     else ret tt) in
  await last := gets lastFetchedOrder in
  let query :=
    if reset then WebshopOrdersQuery.create None None
    else WebshopOrdersQuery.create
           (whenSet last (fun c => Some (Cursor.updatedAt c)))
           (whenSet last Cursor.number) in
  fetchNewOrders_loop fuel retry (Some query).

Definition fetchNewOrders (fuel : nat) (retry reset : bool) : Async unit :=
  await loading := gets isLoadingOrders in
  if loading then ret tt
  else
    await _ := modify (set_isLoadingOrders true) in
    tryFinally (fetchNewOrders_try fuel retry reset) (set_isLoadingOrders false).

(** The body of [if (response.results.length > 0)] in [fetchNewTickets]. *)
Definition fetchNewTickets_page (results : list TicketPrivate.t) : Async unit :=
  if 0 <? Z.of_nat (length results) then
    (* Save these orders to the local database. Non-critical: *)
    await _ := detached
      (await _ := storeTickets results true in
       modify (emit (ConsoleLog "Saved tickets to the local database"))) in
    (* Non-critical: *)
    detached
      (match last results with
       | Some ticket => setLastFetchedTicket ticket
       | None => throw (JsError "TypeError")
       end)
  else ret tt.

Fixpoint fetchNewTickets_loop (fuel : nat) (retry : bool)
    (query : option WebshopTicketsQuery.t) : Async unit :=
  match query with
  | None => ret tt
  | Some q =>
    match fuel with
    | O => unfinished
    | S fuel =>
      await response := fetchTickets q retry in
      await _ := fetchNewTickets_page (PaginatedResponse.results response) in
      fetchNewTickets_loop fuel retry (PaginatedResponse.next response)
    end
  end.

(** The [try] block of [fetchNewTickets]. *)
Definition fetchNewTickets_try (fuel : nat) (retry reset : bool) : Async unit :=
  await last := gets lastFetchedTicket in
  await _ :=
    (if isUndefined last then
       (* Only once (if undefined) *)
       tryCatch
         (await stored := readSettingKey "lastFetchedTicket" in
          modify (set_lastFetchedTicket (orNull stored)))
         (fun e =>
            await _ := modify (emit (ConsoleError e)) in
            (* Probably no database support. Ignore it and load everything. *)
            modify (set_lastFetchedTicket null))
     else ret tt) in
  await last := gets lastFetchedTicket in
  let query :=
    if reset then WebshopTicketsQuery.create None None
    else WebshopTicketsQuery.create
           (whenSet last (fun c => Some (Cursor.updatedAt c)))
           (whenSet last Cursor.id) in
  fetchNewTickets_loop fuel retry (Some query).

Definition fetchNewTickets (fuel : nat) (retry reset : bool) : Async unit :=
  await loading := gets isLoadingTickets in
  if loading then ret tt
  else
    await _ := modify (set_isLoadingTickets true) in
    tryFinally (fetchNewTickets_try fuel retry reset) (set_isLoadingOrders false).

End Server.

(** ** Strings and buffers

    The text that is sealed and the keys are JavaScript strings, sequences
    of UTF-16 code units; a [Buffer] is a sequence of bytes. [Buffer.from]
    and [toString] are those of the [buffer] package the dashboard is
    bundled with. Shifts and masks are written as the divisions and
    remainders they are on bytes: [b & 0x3F] is [b mod 64], [b >> 6] is
    [b / 64], and [|] joins disjoint bits, so it adds. *)

(** A JavaScript string: its UTF-16 code units. *)
Definition DOMString : Type := list Z.
(** The bytes of a Buffer. *)
Definition Buffer : Type := list Z.

Definition isByte (b : Z) : Prop := 0 <= b < 256.

Definition isLead (u : Z) : bool := (0xD800 <=? u) && (u <=? 0xDBFF).
Definition isTrail (u : Z) : bool := (0xDC00 <=? u) && (u <=? 0xDFFF).

Fixpoint isWellFormed (s : DOMString) : bool :=
  match s with
  | [] => true
  | u :: rest =>
      if isLead u then
        match rest with
        | v :: rest' => isTrail v && isWellFormed rest'
        | [] => false
        end
      else (0 <=? u) && (u <? 0x10000) && negb (isTrail u) && isWellFormed rest
  end.

Definition replacement : Buffer := [0xEF; 0xBF; 0xBD].

Definition encodeCodePoint (c : Z) : Buffer :=
  if c <? 0x80 then [c]
  else if c <? 0x800 then [0xC0 + c / 64; 0x80 + c mod 64]
  else if c <? 0x10000 then
    [0xE0 + c / 4096; 0x80 + (c / 64) mod 64; 0x80 + c mod 64]
  else
    [0xF0 + c / 262144; 0x80 + (c / 4096) mod 64; 0x80 + (c / 64) mod 64;
     0x80 + c mod 64].

(** [utf8ToBytes]: the loop over the code units, with the lead surrogate
    it holds back until it has seen the next code unit. A lead surrogate
    still held back when the string ends is not written. *)
Fixpoint utf8ToBytes_loop (leadSurrogate : option Z) (string : DOMString) : Buffer :=
  match string with
  | [] => []
  | codePoint :: rest =>
      if (0xD7FF <? codePoint) && (codePoint <? 0xE000) then
        (* is surrogate component *)
        match leadSurrogate with
        | None =>
            (* no lead yet *)
            if 0xDBFF <? codePoint then
              (* unexpected trail *)
              replacement ++ utf8ToBytes_loop None rest
            else
              match rest with
              | [] => (* unpaired lead *) replacement
              | _ :: _ => (* valid lead *) utf8ToBytes_loop (Some codePoint) rest
              end
        | Some lead =>
            if codePoint <? 0xDC00 then
              (* 2 leads in a row *)
              replacement ++ utf8ToBytes_loop (Some codePoint) rest
            else
              (* valid surrogate pair *)
              encodeCodePoint (0x10000 + (lead - 0xD800) * 1024 + (codePoint - 0xDC00))
                ++ utf8ToBytes_loop None rest
        end
      else
        (* valid bmp char, but last char was a lead *)
        (match leadSurrogate with Some _ => replacement | None => [] end)
          ++ encodeCodePoint codePoint ++ utf8ToBytes_loop None rest
  end.

Definition utf8ToBytes (string : DOMString) : Buffer := utf8ToBytes_loop None string.
Definition isContinuation (b : Z) : bool := (0x80 <=? b) && (b <? 0xC0).

Definition codeUnits (c : Z) : DOMString :=
  if 0xFFFF <? c then [0xD800 + (c - 0x10000) / 1024; 0xDC00 + (c - 0x10000) mod 1024]
  else [c].

Fixpoint utf8Slice (buf : Buffer) : DOMString :=
  match buf with
  | [] => []
  | b1 :: rest =>
      let invalid := 0xFFFD :: utf8Slice rest in
      if 0xEF <? b1 then
        match rest with
        | b2 :: b3 :: b4 :: rest' =>
            let c := (b1 mod 16) * 262144 + (b2 mod 64) * 4096 + (b3 mod 64) * 64 + b4 mod 64 in
            if isContinuation b2 && isContinuation b3 && isContinuation b4
               && (0xFFFF <? c) && (c <? 0x110000)
            then codeUnits c ++ utf8Slice rest'
            else invalid
        | _ => invalid
        end
      else if 0xDF <? b1 then
        match rest with
        | b2 :: b3 :: rest' =>
            let c := (b1 mod 16) * 4096 + (b2 mod 64) * 64 + b3 mod 64 in
            if isContinuation b2 && isContinuation b3
               && (0x7FF <? c) && ((c <? 0xD800) || (0xDFFF <? c))
            then codeUnits c ++ utf8Slice rest'
            else invalid
        | _ => invalid
        end
      else if 0xBF <? b1 then
        match rest with
        | b2 :: rest' =>
            let c := (b1 mod 32) * 64 + b2 mod 64 in
            if isContinuation b2 && (0x7F <? c)
            then codeUnits c ++ utf8Slice rest'
            else invalid
        | _ => invalid
        end
      else if b1 <? 0x80 then b1 :: utf8Slice rest
      else invalid
  end.



Definition Buffer_from_utf8 (str : DOMString) : Buffer := utf8ToBytes str.
Definition Buffer_toString_utf8 (buf : Buffer) : DOMString := utf8Slice buf.

(** Base64: [61] is the padding ['=']. [Buffer.from(str, "base64")] keeps
    what precedes the first padding and skips characters outside of the
    alphabet; both [+ /] and [- _] stand for 62 and 63. *)
Definition encodeSextet (s : Z) : Z :=
  if s <? 26 then 65 + s
  else if s <? 52 then 97 + (s - 26)
  else if s <? 62 then 48 + (s - 52)
  else if s =? 62 then 43
  else 47.

Definition decodeChar (c : Z) : option Z :=
  if (65 <=? c) && (c <=? 90) then Some (c - 65)
  else if (97 <=? c) && (c <=? 122) then Some (c - 71)
  else if (48 <=? c) && (c <=? 57) then Some (c + 4)
  else if (c =? 43) || (c =? 45) then Some 62
  else if (c =? 47) || (c =? 95) then Some 63
  else None.

Fixpoint fromByteArray (bytes : Buffer) : DOMString :=
  match bytes with
  | a :: b :: c :: rest =>
      encodeSextet (a / 4) :: encodeSextet ((a mod 4) * 16 + b / 16)
        :: encodeSextet ((b mod 16) * 4 + c / 64) :: encodeSextet (c mod 64)
        :: fromByteArray rest
  | [a; b] =>
      [encodeSextet (a / 4); encodeSextet ((a mod 4) * 16 + b / 16);
       encodeSextet ((b mod 16) * 4); 61]
  | [a] => [encodeSextet (a / 4); encodeSextet ((a mod 4) * 16); 61; 61]
  | [] => []
  end.

Fixpoint base64clean (str : DOMString) : list Z :=
  match str with
  | [] => []
  | c :: rest =>
      if c =? 61 then []
      else match decodeChar c with
           | Some s => s :: base64clean rest
           | None => base64clean rest
           end
  end.

Fixpoint toByteArray (sextets : list Z) : Buffer :=
  match sextets with
  | s1 :: s2 :: s3 :: s4 :: rest =>
      (s1 * 4 + s2 / 16) :: ((s2 mod 16) * 16 + s3 / 4) :: ((s3 mod 4) * 64 + s4)
        :: toByteArray rest
  | [s1; s2; s3] => [s1 * 4 + s2 / 16; (s2 mod 16) * 16 + s3 / 4]
  | [s1; s2] => [s1 * 4 + s2 / 16]
  | _ => []
  end.

Definition Buffer_toString_base64 (buf : Buffer) : DOMString := fromByteArray buf.
Definition Buffer_from_base64 (str : DOMString) : Buffer := toByteArray (base64clean str).


(** ** Sodium

    [crypto_box_seal] and [crypto_box_seal_open] are libsodium's; sealing
    draws an ephemeral key pair, here from the [random] bytes it is given.
    A call that throws is [inl]. *)
Section Sodium.

Variable crypto_box_seal : Buffer -> Buffer -> Buffer -> error + Buffer.
Variable crypto_box_seal_open : Buffer -> Buffer -> Buffer -> error + Buffer.

Definition sealMessage (random : Buffer) (message publicKey : DOMString)
    : error + DOMString :=
  andThen
    (crypto_box_seal random (Buffer_from_utf8 message) (Buffer_from_base64 publicKey))
    (fun sealed => inr (Buffer_toString_base64 sealed)).

Definition unsealMessage (ciphertext publicKey privateKey : DOMString)
    : error + DOMString :=
  andThen
    (crypto_box_seal_open (Buffer_from_base64 ciphertext)
       (Buffer_from_base64 publicKey) (Buffer_from_base64 privateKey))
    (fun opened => inr (Buffer_toString_utf8 opened)).

End Sodium.

(** The other boxes, the signatures and the key pairs of [SodiumStatic].
    [randombytes_buf], [crypto_box_easy], [crypto_box_open_easy],
    [crypto_box_keypair] and the [crypto_sign] functions are libsodium's;
    a key pair is drawn from the [random] bytes it is given, and the
    signing functions take the message as the string it is. *)
Module SodiumKeyPair.
Record t : Type := create { publicKey : Buffer; privateKey : Buffer; keyType : string }.
End SodiumKeyPair.

Module StringKeyPair.
Record t : Type := create
  { publicKey : DOMString; privateKey : DOMString; keyType : string }.
End StringKeyPair.

Section SodiumMore.

Variable crypto_box_NONCEBYTES : nat.
Variable randombytes_buf : nat -> Buffer.
Variable crypto_box_easy : Buffer -> Buffer -> Buffer -> Buffer -> error + Buffer.
Variable crypto_box_open_easy : Buffer -> Buffer -> Buffer -> Buffer -> error + Buffer.
Variable crypto_box_keypair : Buffer -> SodiumKeyPair.t.
Variable crypto_sign_detached : DOMString -> Buffer -> error + Buffer.
Variable crypto_sign_verify_detached : Buffer -> DOMString -> Buffer -> error + bool.

Definition boxKeyPair (random : Buffer) : StringKeyPair.t :=
  let keypair := crypto_box_keypair random in
  StringKeyPair.create
    (Buffer_toString_base64 (SodiumKeyPair.publicKey keypair))
    (Buffer_toString_base64 (SodiumKeyPair.privateKey keypair))
    (SodiumKeyPair.keyType keypair).

Definition verifySignature (signature message publicKey : DOMString) : error + bool :=
  crypto_sign_verify_detached (Buffer_from_base64 signature) message
    (Buffer_from_base64 publicKey).

Definition signMessage (message privateKey : DOMString) : error + DOMString :=
  andThen (crypto_sign_detached message (Buffer_from_base64 privateKey))
    (fun signature => inr (Buffer_toString_base64 signature)).

Definition sealMessageAuthenticated (message publicKeyReceiver privateKeySender : DOMString)
    : error + DOMString :=
  (* Hide the nonce and include the bytes in the result *)
  let nonce := randombytes_buf crypto_box_NONCEBYTES in
  andThen
    (crypto_box_easy (Buffer_from_utf8 message) nonce
       (Buffer_from_base64 publicKeyReceiver) (Buffer_from_base64 privateKeySender))
    (fun cyphertext =>
       let concatCyphertext := nonce ++ cyphertext in
       (* Convert to base64 *)
       inr (Buffer_toString_base64 concatCyphertext)).

Definition unsealMessageAuthenticated
    (concatCyphertext publicKeySender privateKeyReceiver : DOMString) : error + DOMString :=
  (* Read buffer *)
  let concatCyphertextBuffer := Buffer_from_base64 concatCyphertext in
  if (length concatCyphertextBuffer <=? crypto_box_NONCEBYTES)%nat then
    inl (JsError "ciphertext is too short")
  else
    (* Read nonce *)
    let nonce := take crypto_box_NONCEBYTES concatCyphertextBuffer in
    let cyphertext := drop crypto_box_NONCEBYTES concatCyphertextBuffer in
    andThen
      (crypto_box_open_easy cyphertext nonce
         (Buffer_from_base64 publicKeySender) (Buffer_from_base64 privateKeyReceiver))
      (fun messageBuffer => inr (Buffer_toString_utf8 messageBuffer)).

End SodiumMore.

(** A code unit of a string. *)
Definition isCodeUnit (u : Z) : Prop := 0 <= u < 0x10000.

(** [String.prototype.toWellFormed] of ECMAScript: each lone surrogate
    becomes U+FFFD. *)
Fixpoint toWellFormed (s : DOMString) : DOMString :=
  match s with
  | [] => []
  | u :: rest =>
      if isLead u then
        match rest with
        | v :: rest' =>
            if isTrail v then u :: v :: toWellFormed rest'
            else 0xFFFD :: toWellFormed rest
        | [] => [0xFFFD]
        end
      else if isTrail u then 0xFFFD :: toWellFormed rest
      else u :: toWellFormed rest
  end.

(** A string without its last code unit when it ends with two lead
    surrogates, and the string itself otherwise: [utf8ToBytes] never writes
    the lead surrogate it still holds back when the string ends. *)
Fixpoint dropPendingLead (s : DOMString) : DOMString :=
  match s with
  | [] => []
  | u :: rest =>
      match rest with
      | [v] => if isLead u && isLead v then [u] else u :: dropPendingLead rest
      | _ => u :: dropPendingLead rest
      end
  end.

(** ** MemberManager *)

Module KeyPair.
Record t : Type := create { publicKey : DOMString; privateKey : DOMString }.
End KeyPair.

Module Registration.
Record t : Type := create { groupId : string }.
End Registration.

Module Group.
Record t : Type := create { id : string; name : string }.
End Group.

Module Organization.
Record t : Type := create { publicKey : DOMString; groups : list Group.t }.
End Organization.

Module EncryptedMember.
Record t : Type := create
  { id : string;
    encryptedForOrganization : option DOMString;
    publicKey : DOMString }.
End EncryptedMember.

Module EncryptedMemberWithRegistrations.
Record t : Type := create
  { id : string;
    encryptedForOrganization : option DOMString;
    publicKey : DOMString;
    registrations : list Registration.t }.
End EncryptedMemberWithRegistrations.

(** Modelled from the spec: [Member] and [MemberWithRegistrations], of the
    structures package, are not among the sources. A member is emitted
    "with an absent payload" when its details could not be read, so
    [create] accepts [details: undefined]. *)
Module Member.
Record t (MemberDetails : Type) : Type := create
  { id : string; details : option MemberDetails; publicKey : DOMString }.
Arguments create {MemberDetails} id details publicKey.
Arguments id {MemberDetails} _.
Arguments details {MemberDetails} _.
Arguments publicKey {MemberDetails} _.
End Member.

Module MemberWithRegistrations.
Record t (MemberDetails : Type) : Type := create
  { id : string;
    details : option MemberDetails;
    publicKey : DOMString;
    registrations : list Registration.t;
    groups : list Group.t }.
Arguments create {MemberDetails} id details publicKey registrations groups.
Arguments id {MemberDetails} _.
Arguments details {MemberDetails} _.
Arguments publicKey {MemberDetails} _.
Arguments registrations {MemberDetails} _.
Arguments groups {MemberDetails} _.
End MemberWithRegistrations.

(** Modelled from the spec: [fillGroups], of the structures package, is
    not among the sources. It "attaches group metadata": the groups of the
    organization the registrations of the member refer to. *)
Definition fillGroups {MemberDetails} (groups : list Group.t)
    (member : MemberWithRegistrations.t MemberDetails)
    : MemberWithRegistrations.t MemberDetails :=
  MemberWithRegistrations.create
    (MemberWithRegistrations.id member)
    (MemberWithRegistrations.details member)
    (MemberWithRegistrations.publicKey member)
    (MemberWithRegistrations.registrations member)
    (omap (fun registration =>
             List.find (fun group =>
                          String.eqb (Group.id group) (Registration.groupId registration))
               groups)
       (MemberWithRegistrations.registrations member)).

(** The keychain, the session and the decoders are outside the manager.
    A result comes with what was written to the console on the way. *)
Section MemberManager.

Variables (Json MemberDetails KeychainItem : Type).
Variable crypto_box_seal_open : Buffer -> Buffer -> Buffer -> error + Buffer.
Variable JSON_parse : DOMString -> error + Json.
Variable decodeVersionBox : Json -> error + MemberDetails.
Variable Keychain_getItem : DOMString -> option KeychainItem.
Variable decryptKeychainItem : KeychainItem -> error + KeyPair.t.

(** The body of the [try]: unseal, parse, decode. *)
Definition readDetails (keyPair : KeyPair.t) (encrypted : DOMString)
    : error + MemberDetails :=
  andThen
    (unsealMessage crypto_box_seal_open encrypted
       (KeyPair.publicKey keyPair) (KeyPair.privateKey keyPair))
    (fun json => andThen (JSON_parse json) decodeVersionBox).

(** [!member.encryptedForOrganization]: null or the empty string. *)
Definition notSet (encrypted : option DOMString) : bool :=
  match encrypted with
  | None | Some [] => true
  | Some (_ :: _) => false
  end.

(** An envelope that is there and whose unsealing, parsing or decoding
    throws; and one that decodes. *)
Definition corruptedEnvelope (keyPair : KeyPair.t) (encrypted : option DOMString) : Prop :=
  exists ciphertext e,
    encrypted = Some ciphertext /\ ciphertext <> [] /\
    readDetails keyPair ciphertext
      = inl e.

Definition wellFormedEnvelope (keyPair : KeyPair.t) (encrypted : option DOMString) : Prop :=
  exists ciphertext details,
    encrypted = Some ciphertext /\ ciphertext <> [] /\
    readDetails keyPair ciphertext
      = inr details.

(** From [let decryptedDetails] to the end of the [if], the same in both
    functions. *)
Definition decryptedDetails (keyPair : KeyPair.t) (id : string)
    (encrypted : option DOMString) : option MemberDetails * list Event :=
  if notSet encrypted then
    (None, [ConsoleWarn ("encryptedForOrganization not set for member " ++ id)%string])
  else
    match readDetails keyPair (default [] encrypted) with
    | inr details => (Some details, [])
    | inl e =>
        (None,
         [ConsoleError e;
          ConsoleErrorMessage ("Failed to read member data for " ++ id)%string])
    end.

Fixpoint decryptMembersWithoutRegistrations_loop (keyPair : KeyPair.t)
    (data : list EncryptedMember.t) : list (Member.t MemberDetails) * list Event :=
  match data with
  | [] => ([], [])
  | member :: rest =>
      let '(details, console) :=
        decryptedDetails keyPair (EncryptedMember.id member)
          (EncryptedMember.encryptedForOrganization member) in
      let decryptedMember :=
        Member.create (EncryptedMember.id member) details
          (EncryptedMember.publicKey member) in
      let '(members, console') := decryptMembersWithoutRegistrations_loop keyPair rest in
      (decryptedMember :: members, (console ++ console')%list)
  end.

Definition decryptMembersWithoutRegistrations (organization : Organization.t)
    (data : list EncryptedMember.t)
    : (error + list (Member.t MemberDetails)) * list Event :=
  match Keychain_getItem (Organization.publicKey organization) with
  | None => (inl (JsError "Missing organization keychain"), [])
  | Some keychainItem =>
      match decryptKeychainItem keychainItem with
      | inl e => (inl e, [])
      | inr keyPair =>
          let '(members, console) :=
            decryptMembersWithoutRegistrations_loop keyPair data in
          (inr members, console)
      end
  end.

Fixpoint decryptMembers_loop (keyPair : KeyPair.t) (groups : list Group.t)
    (data : list EncryptedMemberWithRegistrations.t)
    : list (MemberWithRegistrations.t MemberDetails) * list Event :=
  match data with
  | [] => ([], [])
  | member :: rest =>
      let '(details, console) :=
        decryptedDetails keyPair (EncryptedMemberWithRegistrations.id member)
          (EncryptedMemberWithRegistrations.encryptedForOrganization member) in
      let decryptedMember :=
        MemberWithRegistrations.create (EncryptedMemberWithRegistrations.id member)
          details (EncryptedMemberWithRegistrations.publicKey member)
          (EncryptedMemberWithRegistrations.registrations member) [] in
      let '(members, console') := decryptMembers_loop keyPair groups rest in
      (fillGroups groups decryptedMember :: members, (console ++ console')%list)
  end.

Definition decryptMembers (organization : Organization.t)
    (data : list EncryptedMemberWithRegistrations.t)
    : (error + list (MemberWithRegistrations.t MemberDetails)) * list Event :=
  let groups := Organization.groups organization in
  match Keychain_getItem (Organization.publicKey organization) with
  | None => (inl (JsError "Missing organization keychain"), [])
  | Some keychainItem =>
      match decryptKeychainItem keychainItem with
      | inl e => (inl e, [])
      | inr keyPair =>
          let '(members, console) := decryptMembers_loop keyPair groups data in
          (inr members, console)
      end
  end.

End MemberManager.

Arguments readDetails {Json MemberDetails} _ _ _ _ _.
Arguments corruptedEnvelope {Json MemberDetails} _ _ _ _ _.
Arguments wellFormedEnvelope {Json MemberDetails} _ _ _ _ _.
Arguments decryptedDetails {Json MemberDetails} _ _ _ _ _ _.
Arguments decryptMembersWithoutRegistrations_loop {Json MemberDetails} _ _ _ _ _.
Arguments decryptMembersWithoutRegistrations {Json MemberDetails KeychainItem}
  _ _ _ _ _ _ _.
Arguments decryptMembers_loop {Json MemberDetails} _ _ _ _ _ _.
Arguments decryptMembers {Json MemberDetails KeychainItem} _ _ _ _ _ _ _.

(** An encrypted member as [decryptMembersWithoutRegistrations] takes it:
    without the registrations. *)
Definition withoutRegistrations (member : EncryptedMemberWithRegistrations.t)
    : EncryptedMember.t :=
  EncryptedMember.create (EncryptedMemberWithRegistrations.id member)
    (EncryptedMemberWithRegistrations.encryptedForOrganization member)
    (EncryptedMemberWithRegistrations.publicKey member).

(** The two kinds of lines a batch writes to the console. *)
Definition isWarning (ev : Event) : bool :=
  match ev with ConsoleWarn _ => true | _ => false end.

Definition isFailure (ev : Event) : bool :=
  match ev with ConsoleErrorMessage _ => true | _ => false end.

(** ** Filters

    [PlainObject] is what [encode] returns and [ObjectData] wraps. [field],
    [optionalField], [string], [array] and [enum] are those of the
    simple-encoding package: a field that is not there, or a value of
    another type than the one asked for, is a SimpleError. *)

#[local] Unset Elimination Schemes.
Inductive PlainObject : Type :=
| PlainString (s : string)
| PlainArray (items : list PlainObject)
| PlainRecord (fields : list (string * PlainObject)).
#[local] Set Elimination Schemes.

Definition optionalField (data : PlainObject) (name : string) : option PlainObject :=
  match data with
  | PlainRecord fields => snd <$> List.find (fun kv => String.eqb (fst kv) name) fields
  | _ => None
  end.

Definition field (data : PlainObject) (name : string) : error + PlainObject :=
  match optionalField data name with
  | Some found => inr found
  | None => inl (SimpleError "missing_field")
  end.

Definition Data_string (data : PlainObject) : error + string :=
  match data with
  | PlainString s => inr s
  | _ => inl (SimpleError "invalid_field")
  end.

Fixpoint decodeAll {A} (decoder : PlainObject -> error + A) (items : list PlainObject)
    : error + list A :=
  match items with
  | [] => inr []
  | item :: rest =>
      andThen (decoder item) (fun a =>
      andThen (decodeAll decoder rest) (fun l => inr (a :: l)))
  end.

Definition Data_array {A} (decoder : PlainObject -> error + A) (data : PlainObject)
    : error + list A :=
  match data with
  | PlainArray items => decodeAll decoder items
  | _ => inl (SimpleError "invalid_field")
  end.

(** The abstract classes [FilterDefinition] and [Filter]: what every
    definition [D] of filters [F], and every filter of objects [T], has. *)
Class FilterDefinition (D F : Type) : Type :=
  { definition_id : D -> string;
    definition_decode : D -> PlainObject -> error + F;
    definition_createFilter : D -> F }.

Class Filter (F D T : Type) : Type :=
  { filter_definition : F -> D;
    filter_doesMatch : F -> T -> bool;
    filter_encode : F -> PlainObject }.

(** [Filter.clone] *)
Definition clone {F D T} `{Filter F D T} `{FilterDefinition D F} (this : F) : error + F :=
  definition_decode (filter_definition this) (filter_encode this).

(** [FilterDecoder.decode] *)
Definition FilterDecoder_decode {D F} `{FilterDefinition D F} (definitions : list D)
    (data : PlainObject) : error + F :=
  andThen (andThen (field data "definitionId") Data_string) (fun definitionId =>
  match List.find (fun d => String.eqb (definition_id d) definitionId) definitions with
  | None => inl (SimpleError "invalid_definition")
  | Some definition => definition_decode definition data
  end).

Module ChoicesFilterChoice.
Record t : Type := create { id : string; name : string }.
End ChoicesFilterChoice.

Module ChoicesFilterMode.
Inductive t : Type := Or | And.

(** The values of the enum. *)
Definition toString (mode : t) : string :=
  match mode with Or => "Or" | And => "And" end.
End ChoicesFilterMode.

(** [data.enum(ChoicesFilterMode)] *)
Definition Data_enum (data : PlainObject) : error + ChoicesFilterMode.t :=
  match data with
  | PlainString s =>
      if String.eqb s "Or" then inr ChoicesFilterMode.Or
      else if String.eqb s "And" then inr ChoicesFilterMode.And
      else inl (SimpleError "invalid_field")
  | _ => inl (SimpleError "invalid_field")
  end.

Module ChoicesFilterDefinition.
Record t (T : Type) : Type := Build
  { id : string;
    name : string;
    getValue : T -> list string;
    choices : list ChoicesFilterChoice.t;
    defaultMode : ChoicesFilterMode.t }.
Arguments Build {T} id name getValue choices defaultMode.
Arguments id {T} _.
Arguments name {T} _.
Arguments getValue {T} _ _.
Arguments choices {T} _.
Arguments defaultMode {T} _.

(** The constructor: [defaultMode] is [Or] unless the settings give one. *)
Definition create {T} (id name : string) (getValue : T -> list string)
    (choices : list ChoicesFilterChoice.t) (defaultMode : option ChoicesFilterMode.t)
    : t T :=
  Build id name getValue choices (default ChoicesFilterMode.Or defaultMode).
End ChoicesFilterDefinition.

Module ChoicesFilter.
Record t (T : Type) : Type := create
  { choiceIds : list string;
    definition : ChoicesFilterDefinition.t T;
    mode : ChoicesFilterMode.t }.
Arguments create {T} choiceIds definition mode.
Arguments choiceIds {T} _.
Arguments definition {T} _.
Arguments mode {T} _.
End ChoicesFilter.

(** [ChoicesFilterDefinition.decode] *)
Definition ChoicesFilterDefinition_decode {T} (this : ChoicesFilterDefinition.t T)
    (data : PlainObject) : error + ChoicesFilter.t T :=
  andThen
    (match optionalField data "choiceIds" with
     | Some choiceIds => Data_array Data_string choiceIds
     | None => inr []
     end) (fun choiceIds =>
  andThen
    (match optionalField data "mode" with
     | Some mode => Data_enum mode
     | None => inr (ChoicesFilterDefinition.defaultMode this)
     end) (fun mode =>
  inr (ChoicesFilter.create choiceIds this mode))).

(** [ChoicesFilterDefinition.createFilter] *)
Definition createFilter {T} (this : ChoicesFilterDefinition.t T) : ChoicesFilter.t T :=
  ChoicesFilter.create [] this (ChoicesFilterDefinition.defaultMode this).

(** [ids.includes(id)] *)
Definition includes (ids : list string) (id : string) : bool :=
  existsb (String.eqb id) ids.

(** The [for] loop of [doesMatch] and the [return] after it. *)
Fixpoint doesMatch_loop (mode : ChoicesFilterMode.t) (ids choiceIds : list string) : bool :=
  match choiceIds with
  | [] =>
      match mode with ChoicesFilterMode.And => true | ChoicesFilterMode.Or => false end
  | id :: rest =>
      if includes ids id then
        match mode with
        | ChoicesFilterMode.Or => true
        | ChoicesFilterMode.And => doesMatch_loop mode ids rest
        end
      else
        match mode with
        | ChoicesFilterMode.And => false
        | ChoicesFilterMode.Or => doesMatch_loop mode ids rest
        end
  end.

Definition doesMatch {T} (this : ChoicesFilter.t T) (object : T) : bool :=
  if (length (ChoicesFilter.choiceIds this) =? 0)%nat then
    (* Empty filter does not filter *)
    true
  else
    let ids := ChoicesFilterDefinition.getValue (ChoicesFilter.definition this) object in
    doesMatch_loop (ChoicesFilter.mode this) ids (ChoicesFilter.choiceIds this).

Definition ChoicesFilter_encode {T} (this : ChoicesFilter.t T) : PlainObject :=
  PlainRecord
    [("definitionId", PlainString (ChoicesFilterDefinition.id (ChoicesFilter.definition this)));
     ("choiceIds", PlainArray (PlainString <$> ChoicesFilter.choiceIds this));
     ("mode", PlainString (ChoicesFilterMode.toString (ChoicesFilter.mode this)))].

#[export] Instance ChoicesFilterDefinition_FilterDefinition {T}
    : FilterDefinition (ChoicesFilterDefinition.t T) (ChoicesFilter.t T) :=
  {| definition_id := ChoicesFilterDefinition.id;
     definition_decode := ChoicesFilterDefinition_decode;
     definition_createFilter := createFilter |}.

#[export] Instance ChoicesFilter_Filter {T}
    : Filter (ChoicesFilter.t T) (ChoicesFilterDefinition.t T) T :=
  {| filter_definition := ChoicesFilter.definition;
     filter_doesMatch := doesMatch;
     filter_encode := ChoicesFilter_encode |}.

(** ** Flushes in flight

    [trySavePatches] suspends at [await getTicketPatchesFromDatabase()] and
    at [await this.patchTickets(patches)]; other calls run in between. A
    system is the manager together with the invocations of [trySavePatches]
    made so far, each at the await it is suspended at or returned. *)

Inductive Flush : Type :=
| AwaitingPatches
| AwaitingResponse (patches : list TicketPatch.t)
| Returned (result : outcome unit).

Definition inFlight (f : Flush) : bool :=
  match f with Returned _ => false | _ => true end.

Record System : Type := Build_System
  { manager : State; flushes : list Flush }.

Fixpoint countInFlight (l : list Flush) : nat :=
  match l with
  | [] => O
  | f :: l => ((if inFlight f then 1 else 0) + countInFlight l)%nat
  end.

(** Where an invocation is once the code after an await has run: a promise
    that never settles leaves it where it was. *)
Definition resume {A} (o : outcome A) (suspended : Flush) (next : A -> Flush) : Flush :=
  match o with
  | Resolved a => next a
  | Rejected e => Returned (Rejected e)
  | Unfinished => suspended
  end.

Section Interleaving.

Variable isNetworkError : error -> bool.
Variable server_PATCH_tickets :
  list Event -> list TicketPatch.t -> outcome (list TicketPrivate.t).

Inductive step : System -> System -> Prop :=
| step_call sys :
    (* a new invocation runs up to its first await *)
    step sys
      (Build_System (snd (trySavePatches_enter (manager sys)))
         (flushes sys ++
          [resume (fst (trySavePatches_enter (manager sys))) AwaitingPatches
             (fun proceed : bool =>
                if proceed then AwaitingPatches else Returned (Resolved tt))]))
| step_patches sys i :
    (* the patches of the queue arrive *)
    flushes sys !! i = Some AwaitingPatches ->
    step sys
      (Build_System (snd (getTicketPatchesFromDatabase (manager sys)))
         (<[i := resume (fst (getTicketPatchesFromDatabase (manager sys)))
                   AwaitingPatches AwaitingResponse]> (flushes sys)))
| step_response sys i patches :
    (* the submission settles and the invocation runs to its end *)
    flushes sys !! i = Some (AwaitingResponse patches) ->
    step sys
      (Build_System
         (snd (trySavePatches_submit isNetworkError server_PATCH_tickets patches
                 (manager sys)))
         (<[i := resume
                   (fst (trySavePatches_submit isNetworkError server_PATCH_tickets
                           patches (manager sys)))
                   (AwaitingResponse patches) (fun _ => Returned (Resolved tt))]>
            (flushes sys)))
| step_enqueue sys p :
    (* [addTicketPatch] stores a patch *)
    step sys (Build_System (snd (storeTicketPatches [p] (manager sys))) (flushes sys))
| step_other sys (A : Type) (c : Async A) :
    (* any other call that leaves [savingTicketPatches] alone *)
    (forall st, savingTicketPatches (snd (c st)) = savingTicketPatches st) ->
    step sys (Build_System (snd (c (manager sys))) (flushes sys)).

Inductive reachable (idb : IDBFactory) : System -> Prop :=
| reachable_new : reachable idb (Build_System (newManager idb) [])
| reachable_step sys sys' : reachable idb sys -> step sys sys' -> reachable idb sys'.

(** [n] invocations of [trySavePatches], one after the other. *)
Fixpoint flushTimes (n : nat) (st : State) : State :=
  match n with
  | O => st
  | S n => flushTimes n (snd (trySavePatches isNetworkError server_PATCH_tickets st))
  end.

End Interleaving.

(** The patch queue of an open database. *)
Definition queuedPatches (st : State) : gmap string TicketPatch.t :=
  match database st with
  | Some db => match db_ticketPatches db with Some P => records P | None => ∅ end
  | None => ∅
  end.

(** ** Relations between the states before and after a call *)

(** [keeps R c]: the state after [c] is [R]-related to the state before. *)
Definition keeps (R : State -> State -> Prop) {A} (c : Async A) : Prop :=
  forall st, R st (snd (c st)).

Definition sameSaving (st st' : State) : Prop :=
  savingTicketPatches st' = savingTicketPatches st.

Definition sameLoadingTickets (st st' : State) : Prop :=
  isLoadingTickets st' = isLoadingTickets st.

(** The trace only grows. *)
Definition traceExtends (st st' : State) : Prop :=
  exists later, trace st' = (later ++ trace st)%list.


Definition sameLastFetchedOrder (st st' : State) : Prop :=
  lastFetchedOrder st' = lastFetchedOrder st.

Definition sameLastFetchedTicket (st st' : State) : Prop :=
  lastFetchedTicket st' = lastFetchedTicket st.

(** [c] rejects with errors that satisfy [P] only. *)
Definition rejectsOnly (P : error -> Prop) {A} (c : Async A) : Prop :=
  forall st e, fst (c st) = Rejected e -> P e.


(** ** Invariants of the database and of the patch queue *)

(** The four collections as [getDatabase] creates them. *)
Definition hasSchema (db : IDBDatabase) : Prop :=
  keyPath <$> db_orders db = Some (Some "id") /\
  keyPath <$> db_tickets db = Some (Some "secret") /\
  keyPath <$> db_ticketPatches db = Some (Some "secret") /\
  keyPath <$> db_settings db = Some None.

(** At most one flush is between its guard and its end, and the guard is
    set while one is. *)
Definition oneFlush (sys : System) : Prop :=
  (countInFlight (flushes sys) <= 1)%nat /\
  (countInFlight (flushes sys) = 1%nat -> savingTicketPatches (manager sys) = true).

(** Every record of the patch queue is filed under its own secret. *)
Definition keyedBySecret (m : gmap string TicketPatch.t) : Prop :=
  map_Forall (fun k p => TicketPatch.secret p = k) m.

(** The database is open, [tickets] and [ticketPatches] have the key path
    [getDatabase] gave them, and the queue is keyed by secret. *)
Definition queueReady (st : State) : Prop :=
  exists db T P,
    database st = Some db /\ db_tickets db = Some T /\ db_ticketPatches db = Some P /\
    keyPath T = Some "secret" /\ keyPath P = Some "secret" /\
    keyedBySecret (records P).

(** The records of a store after the puts and deletes of a loop. *)
Definition putPatches (m : gmap string TicketPatch.t) (patches : list TicketPatch.t)
    : gmap string TicketPatch.t :=
  foldl (fun m p => <[TicketPatch.secret p := p]> m) m patches.

Definition putTickets (m : gmap string TicketPrivate.t) (tickets : list TicketPrivate.t)
    : gmap string TicketPrivate.t :=
  foldl (fun m t => <[TicketPrivate.secret t := t]> m) m tickets.

Definition deletePatches (m : gmap string TicketPatch.t) (tickets : list TicketPrivate.t)
    : gmap string TicketPatch.t :=
  foldl (fun m t => delete (TicketPrivate.secret t) m) m tickets.

Definition putOrders (m : gmap string Order.t) (orders : list Order.t)
    : gmap string Order.t :=
  foldl (fun m o => <[Order.id o := o]> m) m orders.

(** The record a loop of puts leaves under a key: the last value put there. *)
Definition lastPut {V} (key : V -> string) (values : list V) (k : string) : option V :=
  last (filter (fun v => key v = k) values).

(** The queries a page loop goes through when the server answers the query
    [q] with the page [pages q], and whether it gets to a last page. *)
Fixpoint visited {T Q} (pages : Q -> PaginatedResponse.t T Q) (fuel : nat)
    (query : option Q) : list Q :=
  match query, fuel with
  | Some q, S fuel => q :: visited pages fuel (PaginatedResponse.next (pages q))
  | _, _ => []
  end.

Fixpoint drained {T Q} (pages : Q -> PaginatedResponse.t T Q) (fuel : nat)
    (query : option Q) : bool :=
  match query, fuel with
  | None, _ => true
  | Some q, S fuel => drained pages fuel (PaginatedResponse.next (pages q))
  | Some _, O => false
  end.

(** The cursor [setlastFetchedOrder] makes of an order. *)
Definition ordersCursor (order : Order.t) : Cursor.t :=
  Cursor.create (Order.updatedAt order) (Order.number order) None.

(** [st'] is [st] after the orders [fetched] have been committed, page by
    page, to an open database. *)
Definition mirrored (fetched : list Order.t) (st st' : State) : Prop :=
  exists db O S db' O' S',
    (database st = Some db /\ db_orders db = Some O /\ db_settings db = Some S) /\
    (database st' = Some db' /\ db_orders db' = Some O' /\ db_settings db' = Some S') /\
    (keyPath O' = keyPath O /\ keyPath S' = keyPath S) /\
    records O' = putOrders (records O) fetched /\
    records S' !! "lastFetchedOrder" =
      match last fetched with
      | Some order => Some (ordersCursor order)
      | None => records S !! "lastFetchedOrder"
      end /\
    lastFetchedOrder st' =
      match last fetched with
      | Some order => value (ordersCursor order)
      | None => lastFetchedOrder st
      end /\
    isLoadingOrders st' = isLoadingOrders st.

(** ** Sample data *)

Definition sampleOrder : Order.t := Order.create "1" (Some 7) 1000 "{}".
Definition sampleTicket : TicketPrivate.t :=
  TicketPrivate.create (Some "id-1") "secret-A" 1000 None None.
Definition samplePatch : TicketPatch.t :=
  TicketPatch.create "secret-A" (Some (Some 2000)) None.

(** A database of an older version with a record in each collection. *)
Definition oldDatabase : IDBDatabase :=
  Build_IDBDatabase 124
    (Some (Build_ObjectStore (Some "id") {[ "1" := sampleOrder ]}))
    (Some (Build_ObjectStore (Some "secret") {[ "secret-A" := sampleTicket ]}))
    (Some (Build_ObjectStore (Some "secret") {[ "secret-A" := samplePatch ]}))
    (Some (Build_ObjectStore None
             {[ "lastFetchedOrder" := Cursor.create 1000 (Some 7) None ]})).

(** A browser that has no database of the webshop yet. *)
Definition freshBrowser : IDBFactory := Build_IDBFactory true None.

(** The server of the scenario: the first request gets [order] and a next
    query [{ updatedSince: T1 }], any later one an empty last page. *)
Definition twoPages (T1 : Z) (order : Order.t)
    : list Event -> WebshopOrdersQuery.t ->
      outcome (PaginatedResponse.t Order.t WebshopOrdersQuery.t) :=
  fun history _ =>
    match List.filter isRequest history with
    | [] => Resolved (PaginatedResponse.create [order]
                        (Some (WebshopOrdersQuery.create (Some T1) None)))
    | _ => Resolved (PaginatedResponse.create [] None)
    end.

(** A server that answers every request for tickets with one last page. *)
Definition onePage (tickets : list TicketPrivate.t)
    : list Event -> WebshopTicketsQuery.t ->
      outcome (PaginatedResponse.t TicketPrivate.t WebshopTicketsQuery.t) :=
  fun _ _ => Resolved (PaginatedResponse.create tickets None).

(** A server with two pages of tickets: a query with a [lastId] gets a
    ticket and the empty query as [next], any other an empty last page. *)
Definition sampleTicketPages (query : WebshopTicketsQuery.t)
    : PaginatedResponse.t TicketPrivate.t WebshopTicketsQuery.t :=
  match WebshopTicketsQuery.lastId query with
  | Some _ =>
      PaginatedResponse.create
        [TicketPrivate.create (Some "id-2") "secret-B" 2000 None None]
        (Some (WebshopTicketsQuery.create None None))
  | None => PaginatedResponse.create [] None
  end.

(** A browser without a connection, and the errors it classifies as such. *)
Definition offline : list Event -> list TicketPatch.t -> outcome (list TicketPrivate.t) :=
  fun _ _ => Rejected (RequestError "Failed to fetch").

Definition failedToFetch (e : error) : bool :=
  match e with
  | RequestError reason => String.eqb reason "Failed to fetch"
  | _ => false
  end.

(** A server that applies each patch to [sampleTicket]. *)
Definition accepting : list Event -> list TicketPatch.t -> outcome (list TicketPrivate.t) :=
  fun _ patches => Resolved (patch sampleTicket <$> patches).

(** A box that hides nothing: its key pairs are the pairs of equal keys. *)
Definition plainBox_seal (random message publicKey : Buffer) : error + Buffer :=
  inr message.
Definition plainBox_open (sealed publicKey privateKey : Buffer) : error + Buffer :=
  inr sealed.
Definition plainBox_keyPair (publicKey privateKey : Buffer) : Prop :=
  publicKey = privateKey.

(** A parser that takes what starts with a brace for JSON, a keychain
    with one key pair, and a batch whose second envelope is not JSON:
    [e30=] is the base64 of [{}], [eA==] that of [x]. *)
Definition bracesOnly (json : DOMString) : error + DOMString :=
  match json with
  | 123 :: _ => inr json
  | _ => inl (JsError "SyntaxError")
  end.

Definition oneKey (publicKey : DOMString) : option KeyPair.t :=
  Some (KeyPair.create [] []).

Definition sampleOrganization : Organization.t :=
  Organization.create [] [Group.create "group-1" "Kapoenen"].

Definition sampleBatch : list EncryptedMemberWithRegistrations.t :=
  [EncryptedMemberWithRegistrations.create "member-0" (Some [101; 51; 48; 61]) []
     [Registration.create "group-1"];
   EncryptedMemberWithRegistrations.create "member-1" (Some [101; 65; 61; 61]) [] [];
   EncryptedMemberWithRegistrations.create "member-2" (Some [101; 51; 48; 61]) [] []].

(** The database at the current version, and a manager that has it open. *)
Definition sampleDatabase : IDBDatabase := set_version Version oldDatabase.

Definition sampleManager : State :=
  set_database (Some sampleDatabase) (newManager (Build_IDBFactory true None)).

(** A browser that refuses to open a database. *)
Definition privateBrowser : IDBFactory := Build_IDBFactory false None.

(** A server that cannot be reached. *)
Definition unreachable {Q A} : list Event -> Q -> outcome A :=
  fun _ _ => Rejected (RequestError "Failed to fetch").

(** A server with two pages of orders: the first query gets [sampleOrder]
    and the query for what came after it, that query an empty last page. *)
Definition samplePages (query : WebshopOrdersQuery.t)
    : PaginatedResponse.t Order.t WebshopOrdersQuery.t :=
  match WebshopOrdersQuery.updatedSince query with
  | None =>
      PaginatedResponse.create [sampleOrder]
        (Some (WebshopOrdersQuery.create (Some 1000) (Some 7)))
  | Some _ => PaginatedResponse.create [] None
  end.

(** The same server when the connection is lost after the first page. *)
Definition secondPageFails : list Event -> WebshopOrdersQuery.t ->
    outcome (PaginatedResponse.t Order.t WebshopOrdersQuery.t) :=
  fun _ query =>
    match WebshopOrdersQuery.updatedSince query with
    | None => Resolved (samplePages query)
    | Some _ => Rejected (RequestError "Failed to fetch")
    end.

(** A box with a one-byte authenticator that hides nothing, random bytes
    that are zeros, a key pair that is always the same, and a signature
    that is the key. *)
Definition plainBox_easy (message nonce publicKey privateKey : Buffer) : error + Buffer :=
  inr (0 :: message).
Definition plainBox_open_easy (cyphertext nonce publicKey privateKey : Buffer)
    : error + Buffer :=
  match cyphertext with
  | _ :: message => inr message
  | [] => inl (JsError "incorrect key pair for the given ciphertext")
  end.
Definition zeros (n : nat) : Buffer := replicate n 0.
Definition fixedKeyPair (random : Buffer) : SodiumKeyPair.t :=
  SodiumKeyPair.create [1] [1] "x25519".
Definition plainSign (message : DOMString) (privateKey : Buffer) : error + Buffer :=
  inr privateKey.
Definition plainVerify (signature : Buffer) (message : DOMString) (publicKey : Buffer)
    : error + bool :=
  inr (bool_decide (signature = publicKey)).
Definition plainSign_keyPair (publicKey privateKey : Buffer) : Prop :=
  publicKey = privateKey /\ Forall isByte privateKey.

(** A definition of a filter on the groups of a member, and a filter of it. *)
Definition groupsDefinition : ChoicesFilterDefinition.t (list string) :=
  ChoicesFilterDefinition.create "groups" "Groepen" (fun groups => groups)
    [ChoicesFilterChoice.create "group-1" "Kapoenen"] None.

(** * Properties *)

(** ** The schema of the database *)


(** A database that was just created, before its upgrade handler ran. *)
Lemma no_stores (db : IDBDatabase) :
  objectStoreNames db = [] ->
  db = emptyDatabase (version db).
Proof.
  destruct db as [v [o|] [t|] [p|] [s|]]; cbn; intros Hnames;
    try discriminate Hnames; reflexivity.
Qed.

Lemma onupgradeneeded_create (oldVersion v : Z) :
  oldVersion < 1 ->
  onupgradeneeded oldVersion (emptyDatabase v) =
  inr (Build_IDBDatabase v
         (Some (createStore (Some "id"))) (Some (createStore (Some "secret")))
         (Some (createStore (Some "secret"))) (Some (createStore None))).
Proof.
  intros Hold. unfold onupgradeneeded.
  destruct (Z.ltb_spec oldVersion 1) as [_|Hge]; [reflexivity | lia].
Qed.

Lemma onupgradeneeded_clear (oldVersion v : Z) o t p s :
  1 <= oldVersion ->
  onupgradeneeded oldVersion (Build_IDBDatabase v (Some o) (Some t) (Some p) (Some s)) =
  inr (Build_IDBDatabase v (Some (clear o)) (Some (clear t)) (Some (clear p)) (Some (clear s))).
Proof.
  intros Hold. unfold onupgradeneeded.
  destruct (Z.ltb_spec oldVersion 1) as [Hlt|_]; [lia | reflexivity].
Qed.

(** C7. The upgrade handler runs exactly when the version on disk is behind
    the requested one. From a version below 1 it creates [orders] (key path
    [id]), [tickets] and [ticketPatches] (key path [secret]) and [settings]
    (no key path), all empty; from any other version it empties the four
    collections and keeps nothing of their records. *)
Theorem onupgradeneeded_creates_or_clears :
  (forall f requested,
     upgradeNeeded f requested = true <-> storedVersion f < requested) /\
  (forall f requested,
     supported f = true ->
     indexedDB_open f requested =
     if upgradeNeeded f requested then
       match onupgradeneeded (storedVersion f)
               (set_version requested (default (emptyDatabase 0) (stored f))) with
       | inr db => onsuccess db
       | inl _ => onerror
       end
     else
       match stored f with
       | Some db => if version db =? requested then onsuccess db else onerror
       | None => onerror
       end) /\
  (forall oldVersion db,
     oldVersion < 1 ->
     objectStoreNames db = [] ->
     onupgradeneeded oldVersion db =
     inr (Build_IDBDatabase (version db)
            (Some (Build_ObjectStore (Some "id") ∅))
            (Some (Build_ObjectStore (Some "secret") ∅))
            (Some (Build_ObjectStore (Some "secret") ∅))
            (Some (Build_ObjectStore None ∅)))) /\
  (forall oldVersion db o t p s,
     1 <= oldVersion ->
     db_orders db = Some o -> db_tickets db = Some t ->
     db_ticketPatches db = Some p -> db_settings db = Some s ->
     onupgradeneeded oldVersion db =
     inr (Build_IDBDatabase (version db)
            (Some (Build_ObjectStore (keyPath o) ∅))
            (Some (Build_ObjectStore (keyPath t) ∅))
            (Some (Build_ObjectStore (keyPath p) ∅))
            (Some (Build_ObjectStore (keyPath s) ∅)))).
Proof.
  split; [| split; [| split]].
  - intros f requested. unfold upgradeNeeded. apply Z.ltb_lt.
  - intros f requested Hsup. unfold indexedDB_open. rewrite Hsup. reflexivity.
  - intros oldVersion db Hold Hnames.
    rewrite (no_stores db Hnames) at 1.
    apply (onupgradeneeded_create oldVersion (version db) Hold).
  - intros oldVersion db o t p s Hold Ho Ht Hp Hs.
    destruct db as [v o' t' p' s']; cbn in *; subst.
    apply (onupgradeneeded_clear oldVersion v o t p s Hold).
Qed.

Lemma onupgradeneeded_creates_or_clears_witness :
  upgradeNeeded (Build_IDBFactory true (Some oldDatabase)) Version = true /\
  indexedDB_open (Build_IDBFactory true None) Version =
    onsuccess (Build_IDBDatabase Version
                 (Some (Build_ObjectStore (Some "id") ∅))
                 (Some (Build_ObjectStore (Some "secret") ∅))
                 (Some (Build_ObjectStore (Some "secret") ∅))
                 (Some (Build_ObjectStore None ∅))) /\
  onupgradeneeded 0 (emptyDatabase Version) =
    inr (Build_IDBDatabase Version
           (Some (Build_ObjectStore (Some "id") ∅))
           (Some (Build_ObjectStore (Some "secret") ∅))
           (Some (Build_ObjectStore (Some "secret") ∅))
           (Some (Build_ObjectStore None ∅))) /\
  onupgradeneeded 124 oldDatabase =
    inr (Build_IDBDatabase 124
           (Some (Build_ObjectStore (Some "id") ∅))
           (Some (Build_ObjectStore (Some "secret") ∅))
           (Some (Build_ObjectStore (Some "secret") ∅))
           (Some (Build_ObjectStore None ∅))).
Proof.
  destruct onupgradeneeded_creates_or_clears as (Hwhen & Hopen & Hcreate & Hclear).
  split; [| split; [| split]].
  - apply Hwhen. reflexivity.
  - rewrite (Hopen (Build_IDBFactory true None) Version eq_refl). reflexivity.
  - apply (Hcreate 0 (emptyDatabase Version)); [lia | reflexivity].
  - exact (Hclear 124 oldDatabase _ _ _ _ ltac:(lia) eq_refl eq_refl eq_refl eq_refl).
Defined.

(** ** What a call leaves in place

    [keeps R c]: the state after [c] is [R]-related to the state before,
    for a reflexive and transitive [R]. *)
Section Frame.

Variable R : State -> State -> Prop.
Hypothesis R_refl : forall st, R st st.
Hypothesis R_trans : forall st1 st2 st3, R st1 st2 -> R st2 st3 -> R st1 st3.

Lemma keeps_ret {A} (a : A) : keeps R (ret a).
Proof. intros st. apply R_refl. Qed.

Lemma keeps_throw {A} (e : error) : keeps R (@throw A e).
Proof. intros st. apply R_refl. Qed.

Lemma keeps_unfinished {A} : keeps R (@unfinished A).
Proof. intros st. apply R_refl. Qed.

Lemma keeps_gets {A} (f : State -> A) : keeps R (gets f).
Proof. intros st. apply R_refl. Qed.

Lemma keeps_modify (f : State -> State) :
  (forall st, R st (f st)) -> keeps R (modify f).
Proof. intros Hf st. apply Hf. Qed.

Lemma keeps_bind {A B} (c : Async A) (k : A -> Async B) :
  keeps R c -> (forall a, keeps R (k a)) -> keeps R (bind c k).
Proof.
  intros Hc Hk st. unfold bind.
  specialize (Hc st). destruct (c st) as [[a|e|] st']; cbn in *; trivial.
  apply R_trans with st'; [exact Hc | apply Hk].
Qed.

Lemma keeps_tryCatch {A} (c : Async A) (handler : error -> Async A) :
  keeps R c -> (forall e, keeps R (handler e)) -> keeps R (tryCatch c handler).
Proof.
  intros Hc Hh st. unfold tryCatch.
  specialize (Hc st). destruct (c st) as [[a|e|] st']; cbn in *; trivial.
  apply R_trans with st'; [exact Hc | apply Hh].
Qed.

Lemma keeps_tryFinally {A} (c : Async A) (cleanup : State -> State) :
  keeps R c -> (forall st, R st (cleanup st)) -> keeps R (tryFinally c cleanup).
Proof.
  intros Hc Hf st. unfold tryFinally.
  specialize (Hc st). destruct (c st) as [[a|e|] st']; cbn in *; trivial;
    (apply R_trans with st'; [exact Hc | apply Hf]).
Qed.

Lemma keeps_detached {A} (c : Async A) :
  (forall ev st, R st (emit ev st)) -> keeps R c -> keeps R (detached c).
Proof.
  intros Hemit Hc st. unfold detached.
  specialize (Hc st). destruct (c st) as [[a|e|] st']; cbn in *; trivial.
  apply R_trans with st'; [exact Hc | apply Hemit].
Qed.

Lemma keeps_liftE {A} (x : error + A) : keeps R (liftE x).
Proof. destruct x; [apply keeps_throw | apply keeps_ret]. Qed.

Lemma keeps_settle (thrown : option error) : keeps R (settle thrown).
Proof. destruct thrown; [apply keeps_throw | apply keeps_ret]. Qed.

End Frame.

(** One step of a [keeps] proof: the shape of the code decides the rule. *)
Ltac keeps_step :=
  lazymatch goal with
  | |- keeps _ (bind _ _) => apply keeps_bind; [assumption | | intros ?]
  | |- keeps _ (ret _) => apply keeps_ret; assumption
  | |- keeps _ (throw _) => apply keeps_throw; assumption
  | |- keeps _ unfinished => apply keeps_unfinished; assumption
  | |- keeps _ (gets _) => apply keeps_gets; assumption
  | |- keeps _ (liftE _) => apply keeps_liftE; assumption
  | |- keeps _ (settle _) => apply keeps_settle; assumption
  | |- keeps _ (tryCatch _ _) => apply keeps_tryCatch; [assumption | | intros ?]
  | |- keeps _ (detached _) => apply keeps_detached; [assumption | assumption |]
  | |- keeps _ (modify _) => apply keeps_modify; intros ?; auto
  | |- keeps _ (match ?x with _ => _ end) => destruct x
  end.

(** The calls that touch the database, the cursors and the trace only. *)
Section StorageFrame.

Variable R : State -> State -> Prop.
Hypothesis R_refl : forall st, R st st.
Hypothesis R_trans : forall st1 st2 st3, R st1 st2 -> R st2 st3 -> R st1 st3.
Hypothesis R_emit : forall ev st, R st (emit ev st).
Hypothesis R_database : forall x st, R st (set_database x st).
Hypothesis R_databasePromise : forall x st, R st (set_databasePromise x st).
Hypothesis R_lastFetchedOrder : forall x st, R st (set_lastFetchedOrder x st).
Hypothesis R_lastFetchedTicket : forall x st, R st (set_lastFetchedTicket x st).

Lemma keeps_getDatabase : keeps R getDatabase.
Proof.
  intros st. unfold getDatabase.
  destruct (database st); [apply R_refl |].
  destruct (databasePromise st); [apply R_refl |].
  destruct (indexedDB_open _ _); cbn.
  - apply R_database.
  - eapply R_trans; [apply R_emit | apply R_databasePromise].
Qed.

Lemma keeps_transaction names mode : keeps R (transaction names mode).
Proof.
  unfold transaction. apply keeps_bind; [assumption | apply keeps_getDatabase |].
  intros db. repeat keeps_step.
Qed.

Lemma keeps_transaction_objectStore {V} (s : option (ObjectStore V)) :
  keeps R (transaction_objectStore s).
Proof. unfold transaction_objectStore. repeat keeps_step. Qed.

Lemma keeps_commit update : keeps R (commit update).
Proof. unfold commit. keeps_step. Qed.

Hint Resolve keeps_transaction keeps_transaction_objectStore keeps_commit : core.

Lemma keeps_readSettingKey key : keeps R (readSettingKey key).
Proof. unfold readSettingKey. repeat (keeps_step; auto). Qed.

Lemma keeps_storeSettingKey key v : keeps R (storeSettingKey key v).
Proof. unfold storeSettingKey. repeat (keeps_step; auto). Qed.

Lemma keeps_storeOrders orders : keeps R (storeOrders orders).
Proof. unfold storeOrders. repeat (keeps_step; auto). Qed.

Lemma keeps_storeTicketPatches patches : keeps R (storeTicketPatches patches).
Proof. unfold storeTicketPatches. repeat (keeps_step; auto). Qed.

Lemma keeps_storeTickets tickets clearPatches : keeps R (storeTickets tickets clearPatches).
Proof. unfold storeTickets. repeat (keeps_step; auto). Qed.

Lemma keeps_getTicketPatchesFromDatabase : keeps R getTicketPatchesFromDatabase.
Proof. unfold getTicketPatchesFromDatabase. repeat (keeps_step; auto). Qed.

Lemma keeps_getTicketFromDatabase secret withPatches :
  keeps R (getTicketFromDatabase secret withPatches).
Proof. unfold getTicketFromDatabase. repeat (keeps_step; auto). Qed.

Lemma keeps_setlastFetchedOrder order : keeps R (setlastFetchedOrder order).
Proof.
  unfold setlastFetchedOrder. repeat (keeps_step; auto).
  apply keeps_storeSettingKey.
Qed.

Lemma keeps_setLastFetchedTicket ticket : keeps R (setLastFetchedTicket ticket).
Proof.
  unfold setLastFetchedTicket. repeat (keeps_step; auto).
  apply keeps_storeSettingKey.
Qed.

Lemma keeps_request {Q A} ev (server : list Event -> Q -> outcome A) q :
  keeps R (request ev server q).
Proof. intros st. apply R_emit. Qed.

Lemma keeps_patchTickets server patches : keeps R (patchTickets server patches).
Proof.
  unfold patchTickets. keeps_step; [apply keeps_request |].
  keeps_step; [| keeps_step].
  keeps_step; [apply keeps_storeTickets | keeps_step].
Qed.

Lemma keeps_fetchNewOrders_page results : keeps R (fetchNewOrders_page results).
Proof.
  unfold fetchNewOrders_page. keeps_step; [| keeps_step].
  keeps_step.
  { keeps_step. keeps_step; [apply keeps_storeOrders | keeps_step]. }
  keeps_step.
  { keeps_step. keeps_step; [apply keeps_setlastFetchedOrder | keeps_step]. }
  keeps_step. keeps_step.
Qed.

Lemma keeps_fetchNewOrders_loop server fuel retry query :
  keeps R (fetchNewOrders_loop server fuel retry query).
Proof.
  revert query. induction fuel as [|fuel IH]; intros [q|]; cbn;
    try (keeps_step; fail).
  keeps_step; [apply keeps_request |].
  keeps_step; [apply keeps_fetchNewOrders_page | apply IH].
Qed.

Lemma keeps_fetchNewTickets_page results : keeps R (fetchNewTickets_page results).
Proof.
  unfold fetchNewTickets_page. keeps_step; [| keeps_step].
  keeps_step.
  { keeps_step. keeps_step; [apply keeps_storeTickets | keeps_step]. }
  keeps_step. keeps_step; [apply keeps_setLastFetchedTicket | keeps_step].
Qed.

Lemma keeps_fetchNewTickets_loop server fuel retry query :
  keeps R (fetchNewTickets_loop server fuel retry query).
Proof.
  revert query. induction fuel as [|fuel IH]; intros [q|]; cbn;
    try (keeps_step; fail).
  keeps_step; [apply keeps_request |].
  keeps_step; [apply keeps_fetchNewTickets_page | apply IH].
Qed.

End StorageFrame.

(** ** Running a call on an open database *)

Lemma hasStore_orders db s : db_orders db = Some s -> hasStore db "orders" = true.
Proof.
  destruct db as [v [o|] [t|] [p|] [c|]]; cbn; intros Hs;
    try discriminate Hs; reflexivity.
Qed.

Lemma hasStore_tickets db s : db_tickets db = Some s -> hasStore db "tickets" = true.
Proof.
  destruct db as [v [o|] [t|] [p|] [c|]]; cbn; intros Hs;
    try discriminate Hs; reflexivity.
Qed.

Lemma hasStore_ticketPatches db s :
  db_ticketPatches db = Some s -> hasStore db "ticketPatches" = true.
Proof.
  destruct db as [v [o|] [t|] [p|] [c|]]; cbn; intros Hs;
    try discriminate Hs; reflexivity.
Qed.

Lemma hasStore_settings db s : db_settings db = Some s -> hasStore db "settings" = true.
Proof.
  destruct db as [v [o|] [t|] [p|] [c|]]; cbn; intros Hs;
    try discriminate Hs; reflexivity.
Qed.

Lemma getDatabase_open st db :
  database st = Some db -> getDatabase st = (Resolved db, st).
Proof. intros Hdb. unfold getDatabase. rewrite Hdb. reflexivity. Qed.

Lemma transaction_run names mode st db st1 :
  getDatabase st = (Resolved db, st1) ->
  forallb (hasStore db) names = true ->
  transaction names mode st = (Resolved db, emit (Transaction names mode) st1).
Proof.
  intros Hdb Hnames. unfold transaction, bind.
  rewrite Hdb, Hnames. reflexivity.
Qed.

Lemma getTicketFromDatabase_run secret st db st1 T P :
  getDatabase st = (Resolved db, st1) ->
  db_tickets db = Some T -> db_ticketPatches db = Some P ->
  fst (getTicketFromDatabase secret true st) =
  Resolved (match records T !! secret with
            | None => None
            | Some ticket =>
                Some (match records P !! secret with
                      | None => ticket
                      | Some p => patch ticket p
                      end)
            end).
Proof.
  intros Hdb HT HP. unfold getTicketFromDatabase, bind at 1.
  rewrite (transaction_run _ _ _ _ _ Hdb).
  2:{ cbn. rewrite (hasStore_tickets _ _ HT), (hasStore_ticketPatches _ _ HP).
      reflexivity. }
  rewrite HT, HP. cbn. unfold get.
  destruct (records T !! secret) as [ticket|]; [| reflexivity].
  destruct (records P !! secret) as [p|]; reflexivity.
Qed.

(** C10. Reading one ticket with [withPatches] left true: the stored ticket
    with the queued patch of that secret applied when there is one, the
    stored ticket as it is when none is queued, and [undefined], not an
    error, when no ticket of that secret is stored. *)
Theorem getTicketFromDatabase_reconciles secret st db T P :
  fst (getDatabase st) = Resolved db ->
  db_tickets db = Some T -> db_ticketPatches db = Some P ->
  (forall ticket p,
     records T !! secret = Some ticket -> records P !! secret = Some p ->
     fst (getTicketFromDatabase secret true st) = Resolved (Some (patch ticket p))) /\
  (forall ticket,
     records T !! secret = Some ticket -> records P !! secret = None ->
     fst (getTicketFromDatabase secret true st) = Resolved (Some ticket)) /\
  (records T !! secret = None ->
     fst (getTicketFromDatabase secret true st) = Resolved None).
Proof.
  intros Hdb HT HP.
  destruct (getDatabase st) as [o st1] eqn:Hget. cbn in Hdb. subst o.
  rewrite (getTicketFromDatabase_run secret st db st1 T P Hget HT HP).
  split; [| split].
  - intros ticket p Hticket Hp. rewrite Hticket, Hp. reflexivity.
  - intros ticket Hticket Hp. rewrite Hticket, Hp. reflexivity.
  - intros Hticket. rewrite Hticket. reflexivity.
Qed.

Lemma getTicketFromDatabase_reconciles_witness :
  fst (getTicketFromDatabase "secret-A" true sampleManager) =
  Resolved (Some (patch sampleTicket samplePatch)).
Proof.
  destruct (getTicketFromDatabase_reconciles "secret-A" sampleManager
              sampleDatabase _ _ eq_refl eq_refl eq_refl) as (Hpatched & _ & _).
  apply (Hpatched sampleTicket samplePatch); reflexivity.
Defined.

(** ** The patch queue: one flush at a time *)


Lemma sameSaving_refl st : sameSaving st st.
Proof. reflexivity. Qed.

Lemma sameSaving_trans st1 st2 st3 :
  sameSaving st1 st2 -> sameSaving st2 st3 -> sameSaving st1 st3.
Proof. unfold sameSaving. congruence. Qed.

Ltac same_field :=
  first [ exact sameSaving_refl | exact sameSaving_trans | intros; reflexivity ].

Lemma countInFlight_app l f :
  countInFlight (l ++ [f]) = (countInFlight l + if inFlight f then 1 else 0)%nat.
Proof. induction l as [|g l IH]; cbn; [lia | rewrite IH; lia]. Qed.

Lemma countInFlight_insert l i f f' :
  l !! i = Some f ->
  (countInFlight (<[i := f']> l) + (if inFlight f then 1 else 0) =
   countInFlight l + (if inFlight f' then 1 else 0))%nat.
Proof.
  revert i. induction l as [|g l IH]; intros [|i] Hi; try discriminate Hi.
  - injection Hi as ->.
    change (<[0%nat := f']> (f :: l)) with (f' :: l). cbn [countInFlight].
    destruct (inFlight f), (inFlight f'); lia.
  - change (<[S i := f']> (g :: l)) with (g :: <[i := f']> l).
    cbn [countInFlight]. specialize (IH i Hi). revert IH.
    destruct (inFlight g), (inFlight f), (inFlight f'); lia.
Qed.

Section PatchQueue.

Variable isNetworkError : error -> bool.
Variable server_PATCH_tickets :
  list Event -> list TicketPatch.t -> outcome (list TicketPrivate.t).

(** A flush, and its part after the patches were read, with this server. *)
Local Abbreviation flush := (trySavePatches isNetworkError server_PATCH_tickets).
Local Abbreviation submit :=
  (trySavePatches_submit isNetworkError server_PATCH_tickets).

Lemma trySavePatches_enter_run st :
  trySavePatches_enter st =
  if savingTicketPatches st then (Resolved false, st)
  else (Resolved true, set_savingTicketPatches true st).
Proof.
  unfold trySavePatches_enter, bind, gets.
  destruct (savingTicketPatches st); reflexivity.
Qed.

Lemma trySavePatches_guarded st :
  savingTicketPatches st = true -> flush st = (Resolved tt, st).
Proof.
  intros Hsaving. unfold trySavePatches, bind at 1.
  rewrite trySavePatches_enter_run, Hsaving. reflexivity.
Qed.

Lemma sameSaving_getTicketPatchesFromDatabase :
  keeps sameSaving getTicketPatchesFromDatabase.
Proof.
  apply keeps_getTicketPatchesFromDatabase; same_field.
Qed.

Lemma sameSaving_storeTicketPatches patches :
  keeps sameSaving (storeTicketPatches patches).
Proof.
  apply keeps_storeTicketPatches; same_field.
Qed.

Lemma sameSaving_patchTickets patches :
  keeps sameSaving (patchTickets server_PATCH_tickets patches).
Proof.
  apply keeps_patchTickets; same_field.
Qed.

(** While the submission has not settled the guard stays as it was. *)
Lemma trySavePatches_submit_unfinished patches st :
  fst (submit patches st) = Unfinished ->
  savingTicketPatches (snd (submit patches st)) = savingTicketPatches st.
Proof.
  pose proof (sameSaving_patchTickets patches st) as Hkeep. revert Hkeep.
  unfold trySavePatches_submit, bind, tryCatch, modify, throw, ret.
  destruct (0 <? Z.of_nat (length patches)); [| cbn; discriminate].
  destruct (patchTickets server_PATCH_tickets patches st) as [[tickets|e|] st']; cbn.
  - discriminate.
  - destruct (isNetworkError e); cbn; discriminate.
  - intros Hkeep _. exact Hkeep.
Qed.


Lemma oneFlush_step sys sys' :
  step isNetworkError server_PATCH_tickets sys sys' -> oneFlush sys -> oneFlush sys'.
Proof.
  intros Hstep [Hle Hflag]. unfold oneFlush.
  destruct Hstep as [sys | sys i Hi | sys i patches Hi | sys p | sys A c Hc];
    cbn [manager flushes].
  - rewrite trySavePatches_enter_run, countInFlight_app.
    destruct (savingTicketPatches (manager sys)) eqn:Hsaving; cbn.
    + rewrite Hsaving. split; [lia | intros _; reflexivity].
    + assert (countInFlight (flushes sys) = 0%nat) as ->.
      { destruct (countInFlight (flushes sys)) as [|[|n]]; [reflexivity | | lia].
        specialize (Hflag eq_refl). discriminate. }
      split; [lia | intros _; reflexivity].
  - set (f' := resume (fst (getTicketPatchesFromDatabase (manager sys)))
                 AwaitingPatches AwaitingResponse).
    pose proof (countInFlight_insert _ _ _ f' Hi) as Hcount.
    cbn [inFlight] in Hcount.
    rewrite (sameSaving_getTicketPatchesFromDatabase (manager sys)).
    revert Hcount. destruct (inFlight f'); intros Hcount;
      (split; [lia | intros Hone; apply Hflag; lia]).
  - pose proof (trySavePatches_submit_unfinished patches (manager sys)) as Hun.
    set (f' := resume (fst (submit patches (manager sys)))
                 (AwaitingResponse patches) (fun _ => Returned (Resolved tt))).
    pose proof (countInFlight_insert _ _ _ f' Hi) as Hcount.
    cbn [inFlight] in Hcount. subst f'. revert Hun Hcount.
    destruct (fst (submit patches (manager sys)));
      cbn [resume inFlight]; intros Hun Hcount.
    + split; [lia | intros Hone; exfalso; lia].
    + split; [lia | intros Hone; exfalso; lia].
    + split; [lia |]. intros Hone. rewrite (Hun eq_refl). apply Hflag. lia.
  - rewrite (sameSaving_storeTicketPatches [p] (manager sys)).
    split; assumption.
  - rewrite Hc. split; assumption.
Qed.

Lemma oneFlush_reachable idb sys :
  reachable isNetworkError server_PATCH_tickets idb sys -> oneFlush sys.
Proof.
  induction 1 as [| sys sys' _ IH Hstep].
  - split; cbn; [lia | discriminate].
  - exact (oneFlush_step sys sys' Hstep IH).
Qed.

(** C5. An invocation of [trySavePatches] that finds [savingTicketPatches]
    set returns at once and changes nothing: no transaction on the patch
    queue, no request. Hence, however the invocations interleave with each
    other and with the rest of the manager, at most one of them is between
    its guard and its end at any time. *)
Theorem trySavePatches_reentrancy :
  (forall st,
     savingTicketPatches st = true ->
     flush st = (Resolved tt, st)) /\
  (forall idb sys,
     reachable isNetworkError server_PATCH_tickets idb sys ->
     (countInFlight (flushes sys) <= 1)%nat).
Proof.
  split.
  - exact trySavePatches_guarded.
  - intros idb sys Hreach. exact (proj1 (oneFlush_reachable idb sys Hreach)).
Qed.

(** *** A flush whose submission fails *)

Lemma getDatabase_resolved st db st1 :
  getDatabase st = (Resolved db, st1) ->
  database st1 = Some db /\ trace st1 = trace st /\
  savingTicketPatches st1 = savingTicketPatches st /\
  (database st = None \/ st1 = st).
Proof.
  unfold getDatabase. destruct (database st) as [db0|] eqn:Hdb.
  - intros [= <- <-]. auto.
  - destruct (databasePromise st); [discriminate |].
    destruct (indexedDB_open _ _); [| discriminate].
    intros [= <- <-]. cbn. auto.
Qed.

Lemma getTicketPatchesFromDatabase_resolved st patches st1 :
  getTicketPatchesFromDatabase st = (Resolved patches, st1) ->
  exists db P,
    database st1 = Some db /\ db_ticketPatches db = Some P /\
    patches = getAll P /\
    trace st1 = Transaction ["ticketPatches"] false :: trace st /\
    savingTicketPatches st1 = savingTicketPatches st /\
    (database st = None \/ database st = Some db).
Proof.
  unfold getTicketPatchesFromDatabase, transaction, bind, modify, throw, ret.
  destruct (getDatabase st) as [[db| |] st0] eqn:Hget; try discriminate.
  destruct (getDatabase_resolved _ _ _ Hget) as (Hdb & Htrace & Hsaving & Hsame).
  destruct (forallb (hasStore db) ["ticketPatches"]); [| discriminate].
  unfold transaction_objectStore.
  destruct (db_ticketPatches db) as [P|] eqn:HP; [| discriminate].
  intros [= <- <-]. exists db, P. cbn.
  repeat split; try assumption; try congruence.
  destruct Hsame as [Hnone | ->]; auto.
Qed.

Lemma getTicketPatchesFromDatabase_open st db P :
  database st = Some db -> db_ticketPatches db = Some P ->
  getTicketPatchesFromDatabase st =
  (Resolved (getAll P), emit (Transaction ["ticketPatches"] false) st).
Proof.
  intros Hdb HP. unfold getTicketPatchesFromDatabase, bind at 1.
  rewrite (transaction_run _ _ _ _ _ (getDatabase_open _ _ Hdb)).
  2:{ cbn. rewrite (hasStore_ticketPatches _ _ HP). reflexivity. }
  rewrite HP. reflexivity.
Qed.

Lemma nonempty_length {A} (l : list A) :
  l <> [] -> (0 <? Z.of_nat (length l)) = true.
Proof. destruct l; [congruence | reflexivity]. Qed.

Lemma trySavePatches_submit_rejected patches st e :
  patches <> [] ->
  server_PATCH_tickets (trace st) patches = Rejected e ->
  submit patches st =
  (if isNetworkError e then Resolved tt else Rejected e,
   set_savingTicketPatches false (emit (PATCH_tickets patches) st)).
Proof.
  intros Hne Hserver.
  unfold trySavePatches_submit, bind, tryCatch, patchTickets,
    bind, request, modify, throw, ret.
  rewrite (nonempty_length _ Hne), Hserver.
  destruct (isNetworkError e); reflexivity.
Qed.

Lemma trySavePatches_run st patches st1 :
  savingTicketPatches st = false ->
  getTicketPatchesFromDatabase (set_savingTicketPatches true st) = (Resolved patches, st1) ->
  flush st = submit patches st1.
Proof.
  intros Hsaving Hread. unfold trySavePatches, bind at 1.
  rewrite trySavePatches_enter_run, Hsaving.
  unfold bind. rewrite Hread. reflexivity.
Qed.

(** C6. A flush whose submission fails with an error that
    [Request.isNetworkError] classifies as a network error returns normally
    and leaves the patch queue as it read it; with any other error the
    flush rejects with that error. Either way [savingTicketPatches] is
    false afterwards. *)
Theorem trySavePatches_submission_failure st st1 patches e :
  savingTicketPatches st = false ->
  getTicketPatchesFromDatabase (set_savingTicketPatches true st) = (Resolved patches, st1) ->
  patches <> [] ->
  server_PATCH_tickets (trace st1) patches = Rejected e ->
  fst (flush st) = (if isNetworkError e then Resolved tt else Rejected e) /\
  database (snd (flush st)) = database st1 /\
  fst (getTicketPatchesFromDatabase (snd (flush st))) = Resolved patches /\
  savingTicketPatches (snd (flush st)) = false.
Proof.
  intros Hsaving Hread Hne Hserver.
  rewrite (trySavePatches_run st patches st1 Hsaving Hread).
  rewrite (trySavePatches_submit_rejected patches st1 e Hne Hserver). cbn.
  destruct (getTicketPatchesFromDatabase_resolved _ _ _ Hread)
    as (db & P & Hdb & HP & -> & _).
  repeat split.
  rewrite (getTicketPatchesFromDatabase_open _ db P); [reflexivity | | exact HP].
  exact Hdb.
Qed.

(** *** One patch per secret *)

Lemma put_patch (P : ObjectStore TicketPatch.t) p :
  keyPath P = Some "secret" ->
  put p None P =
  inr (Build_ObjectStore (Some "secret") (<[TicketPatch.secret p := p]> (records P))).
Proof. intros HP. unfold put. rewrite HP. reflexivity. Qed.

Lemma put_ticket (T : ObjectStore TicketPrivate.t) t :
  keyPath T = Some "secret" ->
  put t None T =
  inr (Build_ObjectStore (Some "secret") (<[TicketPrivate.secret t := t]> (records T))).
Proof. intros HT. unfold put. rewrite HT. reflexivity. Qed.

Lemma putAll_patches patches (P : ObjectStore TicketPatch.t) :
  keyPath P = Some "secret" ->
  putAll patches P =
  (None, Build_ObjectStore (Some "secret") (putPatches (records P) patches)).
Proof.
  revert P. induction patches as [|p patches IH]; intros P HP.
  - destruct P as [kp m]. cbn in *. subst kp. reflexivity.
  - cbn [putAll]. rewrite (put_patch P p HP). rewrite IH; reflexivity.
Qed.

Lemma storeTickets_loop_keyed tickets (T : ObjectStore TicketPrivate.t)
    (P : ObjectStore TicketPatch.t) :
  keyPath T = Some "secret" ->
  storeTickets_loop tickets true T P =
  (None, (Build_ObjectStore (Some "secret") (putTickets (records T) tickets),
          Build_ObjectStore (keyPath P) (deletePatches (records P) tickets))).
Proof.
  revert T P. induction tickets as [|t tickets IH]; intros T P HT.
  - destruct T as [kt mt], P as [kp mp]. cbn in *. subst kt. reflexivity.
  - cbn [storeTickets_loop]. rewrite (put_ticket T t HT). rewrite IH; reflexivity.
Qed.

Lemma keyedBySecret_putPatches m patches :
  keyedBySecret m -> keyedBySecret (putPatches m patches).
Proof.
  revert m. induction patches as [|p patches IH]; intros m Hm; [exact Hm |].
  apply IH. apply map_Forall_insert_2; [reflexivity | exact Hm].
Qed.

Lemma lookup_deletePatches m tickets s :
  deletePatches m tickets !! s =
  if decide (s ∈ TicketPrivate.secret <$> tickets) then None else m !! s.
Proof.
  revert m. induction tickets as [|t tickets IH]; intros m; [reflexivity |].
  cbn [deletePatches foldl]. fold (deletePatches (delete (TicketPrivate.secret t) m) tickets).
  rewrite IH, fmap_cons.
  destruct (decide (s ∈ TicketPrivate.secret <$> tickets)) as [Hin|Hnin].
  - rewrite decide_True; [reflexivity | apply elem_of_cons; auto].
  - destruct (decide (s = TicketPrivate.secret t)) as [->|Hne].
    + rewrite lookup_delete_eq, decide_True; [reflexivity | apply elem_of_cons; auto].
    + rewrite lookup_delete_ne by congruence.
      rewrite decide_False; [reflexivity |].
      intros [Heq|Hin]%elem_of_cons; contradiction.
Qed.

Lemma keyedBySecret_deletePatches m tickets :
  keyedBySecret m -> keyedBySecret (deletePatches m tickets).
Proof.
  intros Hm k p Hk. rewrite lookup_deletePatches in Hk.
  destruct (decide _); [discriminate | exact (Hm k p Hk)].
Qed.

(** The secrets of the records of a queue keyed by secret are its keys. *)
Lemma keyedBySecret_secrets m :
  keyedBySecret m ->
  TicketPatch.secret <$> (map_to_list m).*2 = (map_to_list m).*1.
Proof.
  intros Hm.
  assert (Forall (fun kp => TicketPatch.secret kp.2 = kp.1) (map_to_list m)) as Hall.
  { apply Forall_forall. intros [k p] Hin. apply elem_of_map_to_list in Hin.
    exact (Hm k p Hin). }
  induction Hall as [|[k p] l Hkp _ IH]; [reflexivity |].
  cbn in *. rewrite Hkp, IH. reflexivity.
Qed.

Lemma getAll_NoDup (P : ObjectStore TicketPatch.t) :
  keyedBySecret (records P) -> NoDup (TicketPatch.secret <$> getAll P).
Proof.
  intros HP. unfold getAll. rewrite (keyedBySecret_secrets _ HP).
  apply NoDup_fst_map_to_list.
Qed.

Lemma getAll_elem_of (P : ObjectStore TicketPatch.t) p :
  keyedBySecret (records P) ->
  p ∈ getAll P <-> records P !! TicketPatch.secret p = Some p.
Proof.
  intros HP. unfold getAll. rewrite list_elem_of_fmap. split.
  - intros ([k q] & -> & Hin). apply elem_of_map_to_list in Hin.
    cbn. rewrite (HP k q Hin). exact Hin.
  - intros Hp. exists (TicketPatch.secret p, p). split; [reflexivity |].
    apply elem_of_map_to_list. exact Hp.
Qed.

Lemma storeTicketPatches_open patches st db P :
  database st = Some db -> db_ticketPatches db = Some P ->
  keyPath P = Some "secret" ->
  storeTicketPatches patches st =
  (Resolved tt,
   set_database
     (Some (set_ticketPatches
              (Some (Build_ObjectStore (Some "secret") (putPatches (records P) patches)))
              db))
     (emit (Transaction ["ticketPatches"] true) st)).
Proof.
  intros Hdb HP Hkey.
  unfold storeTicketPatches, bind, transaction_objectStore, commit, modify, settle, ret.
  rewrite (transaction_run _ _ _ _ _ (getDatabase_open _ _ Hdb)).
  2:{ cbn. rewrite (hasStore_ticketPatches _ _ HP). reflexivity. }
  rewrite HP, (putAll_patches patches P Hkey). cbn. rewrite Hdb. reflexivity.
Qed.

Lemma storeTickets_open tickets st db T P :
  database st = Some db -> db_tickets db = Some T -> db_ticketPatches db = Some P ->
  keyPath T = Some "secret" ->
  storeTickets tickets true st =
  (Resolved tt,
   set_database
     (Some (set_ticketPatches
              (Some (Build_ObjectStore (keyPath P) (deletePatches (records P) tickets)))
              (set_tickets
                 (Some (Build_ObjectStore (Some "secret") (putTickets (records T) tickets)))
                 db)))
     (emit (Transaction ["tickets"; "ticketPatches"] true) st)).
Proof.
  intros Hdb HT HP Hkey.
  unfold storeTickets, bind, transaction_objectStore, commit, modify, settle, ret.
  rewrite (transaction_run _ _ _ _ _ (getDatabase_open _ _ Hdb)).
  2:{ cbn. rewrite (hasStore_tickets _ _ HT), (hasStore_ticketPatches _ _ HP).
      reflexivity. }
  rewrite HT, HP, (storeTickets_loop_keyed tickets T P Hkey). cbn.
  rewrite Hdb. reflexivity.
Qed.

Lemma queueReady_emit ev st : queueReady st -> queueReady (emit ev st).
Proof. intros H. exact H. Qed.

Lemma queueReady_savingTicketPatches b st :
  queueReady st -> queueReady (set_savingTicketPatches b st).
Proof. intros H. exact H. Qed.

Lemma queueReady_storeTicketPatches patches st :
  queueReady st -> queueReady (snd (storeTicketPatches patches st)).
Proof.
  intros (db & T & P & Hdb & HT & HP & HkT & HkP & Hkeyed).
  rewrite (storeTicketPatches_open patches st db P Hdb HP HkP). cbn.
  eexists _, T, _. repeat split; try reflexivity; try assumption.
  cbn. apply keyedBySecret_putPatches. exact Hkeyed.
Qed.

Lemma queueReady_storeTickets tickets st :
  queueReady st -> queueReady (snd (storeTickets tickets true st)).
Proof.
  intros (db & T & P & Hdb & HT & HP & HkT & HkP & Hkeyed).
  rewrite (storeTickets_open tickets st db T P Hdb HT HP HkT). cbn.
  eexists _, _, _. repeat split; try reflexivity; try assumption.
  cbn. apply keyedBySecret_deletePatches. exact Hkeyed.
Qed.

(** What a submission does to a ready queue, by what the server answers. *)
Lemma trySavePatches_submit_ready patches st db T P :
  database st = Some db -> db_tickets db = Some T -> db_ticketPatches db = Some P ->
  keyPath T = Some "secret" ->
  patches <> [] ->
  submit patches st =
  match server_PATCH_tickets (trace st) patches with
  | Resolved tickets =>
      (Resolved tt,
       set_savingTicketPatches false
         (snd (storeTickets tickets true (emit (PATCH_tickets patches) st))))
  | Rejected e =>
      (if isNetworkError e then Resolved tt else Rejected e,
       set_savingTicketPatches false (emit (PATCH_tickets patches) st))
  | Unfinished => (Unfinished, emit (PATCH_tickets patches) st)
  end.
Proof.
  intros Hdb HT HP HkT Hne.
  destruct (server_PATCH_tickets (trace st) patches) as [tickets|e|] eqn:Hserver.
  - unfold trySavePatches_submit, bind, tryCatch, patchTickets,
      bind, tryCatch, request, modify, throw, ret.
    rewrite (nonempty_length _ Hne), Hserver.
    rewrite (storeTickets_open tickets (emit (PATCH_tickets patches) st) db T P
               Hdb HT HP HkT).
    reflexivity.
  - apply trySavePatches_submit_rejected; assumption.
  - unfold trySavePatches_submit, bind, tryCatch, patchTickets,
      bind, request, modify, throw, ret.
    rewrite (nonempty_length _ Hne), Hserver. reflexivity.
Qed.

Lemma trySavePatches_submit_empty st :
  submit [] st = (Resolved tt, set_savingTicketPatches false st).
Proof. reflexivity. Qed.

Lemma trySavePatches_open st db P :
  savingTicketPatches st = false ->
  database st = Some db -> db_ticketPatches db = Some P ->
  flush st =
  submit (getAll P)
    (emit (Transaction ["ticketPatches"] false) (set_savingTicketPatches true st)).
Proof.
  intros Hsaving Hdb HP.
  apply (trySavePatches_run st _ _ Hsaving).
  apply (getTicketPatchesFromDatabase_open _ db P); assumption.
Qed.

(** A flush keeps the queue ready and adds no entry to it. *)
Lemma trySavePatches_queue st :
  queueReady st ->
  queueReady (snd (flush st)) /\
  (forall s, queuedPatches st !! s = None ->
             queuedPatches (snd (flush st)) !! s = None).
Proof.
  intros Hready.
  destruct (savingTicketPatches st) eqn:Hsaving.
  { rewrite (trySavePatches_guarded st Hsaving). auto. }
  pose proof Hready as (db & T & P & Hdb & HT & HP & HkT & HkP & Hkeyed).
  rewrite (trySavePatches_open st db P Hsaving Hdb HP).
  set (st1 := emit (Transaction ["ticketPatches"] false)
                (set_savingTicketPatches true st)).
  assert (queuedPatches st = records P) as Hqueue.
  { unfold queuedPatches. rewrite Hdb, HP. reflexivity. }
  destruct (getAll P) as [|p patches] eqn:Hpatches.
  { rewrite trySavePatches_submit_empty. auto. }
  rewrite <- Hpatches.
  rewrite (trySavePatches_submit_ready (getAll P) st1 db T P Hdb HT HP HkT)
    by (rewrite Hpatches; discriminate).
  destruct (server_PATCH_tickets (trace st1) (getAll P)) as [tickets|e|]; cbn [snd];
    [| auto | auto].
  rewrite (storeTickets_open tickets (emit (PATCH_tickets (getAll P)) st1) db T P
             Hdb HT HP HkT).
  cbn [snd]. split.
  - eexists _, _, _. repeat split; try reflexivity.
    + exact HkP.
    + cbn. apply keyedBySecret_deletePatches. exact Hkeyed.
  - intros s Hs. rewrite Hqueue in Hs. unfold queuedPatches. cbn.
    rewrite lookup_deletePatches, Hs. destruct (decide _); reflexivity.
Qed.

Lemma flushTimes_queue n st s :
  queueReady st ->
  queuedPatches st !! s = None ->
  queuedPatches (flushTimes isNetworkError server_PATCH_tickets n st) !! s = None.
Proof.
  revert st. induction n as [|n IH]; intros st Hready Hs; [exact Hs |].
  cbn [flushTimes]. destruct (trySavePatches_queue st Hready) as [Hready' Hkeep].
  apply IH; [exact Hready' | apply Hkeep; exact Hs].
Qed.

Lemma queueReady_read st :
  queueReady st ->
  exists P,
    getTicketPatchesFromDatabase st =
      (Resolved (getAll P), emit (Transaction ["ticketPatches"] false) st) /\
    queuedPatches st = records P /\ keyedBySecret (records P).
Proof.
  intros (db & T & P & Hdb & HT & HP & HkT & HkP & Hkeyed). exists P.
  split; [apply (getTicketPatchesFromDatabase_open st db P Hdb HP) |].
  split; [| exact Hkeyed]. unfold queuedPatches. rewrite Hdb, HP. reflexivity.
Qed.

Lemma queuedPatches_storeTicketPatches patches st :
  queueReady st ->
  queuedPatches (snd (storeTicketPatches patches st)) =
  putPatches (queuedPatches st) patches.
Proof.
  intros (db & T & P & Hdb & HT & HP & HkT & HkP & Hkeyed).
  rewrite (storeTicketPatches_open patches st db P Hdb HP HkP).
  unfold queuedPatches. cbn. rewrite Hdb, HP. reflexivity.
Qed.

(** A flush the server answers with [tickets]. *)
Lemma trySavePatches_resolved st st1 patches tickets :
  queueReady st ->
  savingTicketPatches st = false ->
  getTicketPatchesFromDatabase (set_savingTicketPatches true st) = (Resolved patches, st1) ->
  patches <> [] ->
  server_PATCH_tickets (trace st1) patches = Resolved tickets ->
  fst (flush st) = Resolved tt /\
  forall s,
    queuedPatches (snd (flush st)) !! s =
    if decide (s ∈ TicketPrivate.secret <$> tickets) then None
    else queuedPatches st !! s.
Proof.
  intros (db & T & P & Hdb & HT & HP & HkT & HkP & Hkeyed) Hsaving Hread Hne Hserver.
  rewrite (trySavePatches_run st patches st1 Hsaving Hread).
  rewrite (getTicketPatchesFromDatabase_open (set_savingTicketPatches true st) db P
             Hdb HP) in Hread.
  injection Hread as <- <-.
  set (st1 := emit (Transaction ["ticketPatches"] false)
                (set_savingTicketPatches true st)) in *.
  rewrite (trySavePatches_submit_ready (getAll P) st1 db T P Hdb HT HP HkT Hne).
  rewrite Hserver.
  rewrite (storeTickets_open tickets (emit (PATCH_tickets (getAll P)) st1) db T P
             Hdb HT HP HkT).
  split; [reflexivity |].
  intros s. unfold queuedPatches. cbn. rewrite Hdb, HP.
  apply lookup_deletePatches.
Qed.

(** C9. The patch queue holds at most one patch per secret, and storing
    patches or flushing keeps it so. A second patch for a secret replaces
    the first: the queue then holds the second and no other patch of that
    secret. A flush the server answers removes the entry of every ticket
    of the answer, leaves the other entries, and no later flush brings an
    entry of a flushed secret back. *)
Theorem ticketPatches_one_per_secret st :
  queueReady st ->
  (exists patches,
     fst (getTicketPatchesFromDatabase st) = Resolved patches /\
     NoDup (TicketPatch.secret <$> patches)) /\
  (forall patches, queueReady (snd (storeTicketPatches patches st))) /\
  queueReady (snd (flush st)) /\
  (forall p1 p2,
     TicketPatch.secret p1 = TicketPatch.secret p2 ->
     let st2 := snd (storeTicketPatches [p2] (snd (storeTicketPatches [p1] st))) in
     queuedPatches st2 !! TicketPatch.secret p2 = Some p2 /\
     exists patches,
       fst (getTicketPatchesFromDatabase st2) = Resolved patches /\
       p2 ∈ patches /\
       forall p, p ∈ patches -> TicketPatch.secret p = TicketPatch.secret p2 -> p = p2) /\
  (forall st1 patches tickets,
     savingTicketPatches st = false ->
     getTicketPatchesFromDatabase (set_savingTicketPatches true st) =
       (Resolved patches, st1) ->
     patches <> [] ->
     server_PATCH_tickets (trace st1) patches = Resolved tickets ->
     fst (flush st) = Resolved tt /\
     (forall s,
        queuedPatches (snd (flush st)) !! s =
        if decide (s ∈ TicketPrivate.secret <$> tickets) then None
        else queuedPatches st !! s) /\
     (forall n ticket,
        ticket ∈ tickets ->
        queuedPatches
          (flushTimes isNetworkError server_PATCH_tickets n (snd (flush st)))
          !! TicketPrivate.secret ticket = None)).
Proof.
  intros Hready. split; [| split; [| split; [| split]]].
  - destruct (queueReady_read st Hready) as (P & Hread & _ & Hkeyed).
    exists (getAll P). rewrite Hread. split; [reflexivity |].
    apply getAll_NoDup. exact Hkeyed.
  - intros patches. apply queueReady_storeTicketPatches. exact Hready.
  - apply trySavePatches_queue. exact Hready.
  - intros p1 p2 Hsecret st2.
    pose proof (queueReady_storeTicketPatches [p1] st Hready) as Hready1.
    pose proof (queueReady_storeTicketPatches [p2] _ Hready1) as Hready2.
    fold st2 in Hready2.
    assert (queuedPatches st2 !! TicketPatch.secret p2 = Some p2) as Hlookup.
    { unfold st2. rewrite (queuedPatches_storeTicketPatches [p2] _ Hready1).
      cbn. apply lookup_insert_eq. }
    split; [exact Hlookup |].
    destruct (queueReady_read st2 Hready2) as (P2 & Hread & Hqueue & Hkeyed).
    exists (getAll P2). rewrite Hread. split; [reflexivity |].
    rewrite Hqueue in Hlookup. split.
    + apply (getAll_elem_of P2 p2 Hkeyed). exact Hlookup.
    + intros p Hp Hsame. apply (getAll_elem_of P2 p Hkeyed) in Hp.
      rewrite Hsame, Hlookup in Hp. congruence.
  - intros st1 patches tickets Hsaving Hread Hne Hserver.
    destruct (trySavePatches_resolved st st1 patches tickets
                Hready Hsaving Hread Hne Hserver) as [Hok Hqueue].
    split; [exact Hok |]. split; [exact Hqueue |].
    intros n ticket Hticket. apply flushTimes_queue.
    + apply trySavePatches_queue. exact Hready.
    + rewrite Hqueue. apply decide_True.
      apply list_elem_of_fmap_2. exact Hticket.
Qed.

End PatchQueue.

(** ** The page loops *)


Lemma traceExtends_refl st : traceExtends st st.
Proof. exists []. reflexivity. Qed.

Lemma traceExtends_trans st1 st2 st3 :
  traceExtends st1 st2 -> traceExtends st2 st3 -> traceExtends st1 st3.
Proof.
  intros [l1 H1] [l2 H2]. exists (l2 ++ l1)%list.
  rewrite H2, H1. apply app_assoc.
Qed.

Lemma traceExtends_emit ev st : traceExtends st (emit ev st).
Proof. exists [ev]. reflexivity. Qed.

Ltac trace_frame :=
  first [ exact traceExtends_refl | exact traceExtends_trans
        | exact traceExtends_emit | intros; exists []; reflexivity ].


Lemma sameLoadingTickets_trans st1 st2 st3 :
  sameLoadingTickets st1 st2 -> sameLoadingTickets st2 st3 ->
  sameLoadingTickets st1 st3.
Proof. unfold sameLoadingTickets. congruence. Qed.

Section PageLoops.

Variable server_GET_orders :
  list Event -> WebshopOrdersQuery.t ->
  outcome (PaginatedResponse.t Order.t WebshopOrdersQuery.t).
Variable server_GET_tickets :
  list Event -> WebshopTicketsQuery.t ->
  outcome (PaginatedResponse.t TicketPrivate.t WebshopTicketsQuery.t).

Lemma fetchNewOrders_run fuel retry reset st :
  isLoadingOrders st = false ->
  fetchNewOrders server_GET_orders fuel retry reset st =
  tryFinally (fetchNewOrders_try server_GET_orders fuel retry reset)
    (set_isLoadingOrders false) (set_isLoadingOrders true st).
Proof.
  intros Hloading. unfold fetchNewOrders, bind, gets, modify.
  rewrite Hloading. reflexivity.
Qed.

Lemma fetchNewTickets_run fuel retry reset st :
  isLoadingTickets st = false ->
  fetchNewTickets server_GET_tickets fuel retry reset st =
  tryFinally (fetchNewTickets_try server_GET_tickets fuel retry reset)
    (set_isLoadingOrders false) (set_isLoadingTickets true st).
Proof.
  intros Hloading. unfold fetchNewTickets, bind, gets, modify.
  rewrite Hloading. reflexivity.
Qed.

(** A refresh of the orders that passes its guard and settles leaves
    [isLoadingOrders] false. *)
Lemma fetchNewOrders_clears_guard fuel retry reset st :
  isLoadingOrders st = false ->
  finished (fst (fetchNewOrders server_GET_orders fuel retry reset st)) = true ->
  isLoadingOrders (snd (fetchNewOrders server_GET_orders fuel retry reset st)) = false.
Proof.
  intros Hloading. rewrite (fetchNewOrders_run fuel retry reset st Hloading).
  unfold tryFinally.
  destruct (fetchNewOrders_try _ _ _ _ _) as [[u|e|] st']; cbn;
    intros Hfinished; try reflexivity; discriminate.
Qed.

Lemma keeps_fetchNewTickets_try fuel retry reset :
  keeps sameLoadingTickets (fetchNewTickets_try server_GET_tickets fuel retry reset).
Proof.
  assert (forall st, sameLoadingTickets st st) as Hrefl by reflexivity.
  pose proof sameLoadingTickets_trans as Htrans.
  assert (forall ev st, sameLoadingTickets st (emit ev st)) as Hemit by reflexivity.
  assert (forall x st, sameLoadingTickets st (set_lastFetchedTicket x st)) as Hset
    by reflexivity.
  unfold fetchNewTickets_try.
  keeps_step; [keeps_step |]. keeps_step.
  - destruct (isUndefined _); [| keeps_step].
    keeps_step; [| keeps_step; keeps_step].
    keeps_step; [| keeps_step].
    apply keeps_readSettingKey; auto; reflexivity.
  - keeps_step; [keeps_step |].
    apply keeps_fetchNewTickets_loop; auto; reflexivity.
Qed.

(** A refresh of the tickets that passes its guard and settles clears
    [isLoadingOrders] and leaves [isLoadingTickets] set. *)
Lemma fetchNewTickets_keeps_guard fuel retry reset st :
  isLoadingTickets st = false ->
  finished (fst (fetchNewTickets server_GET_tickets fuel retry reset st)) = true ->
  isLoadingTickets (snd (fetchNewTickets server_GET_tickets fuel retry reset st)) = true /\
  isLoadingOrders (snd (fetchNewTickets server_GET_tickets fuel retry reset st)) = false.
Proof.
  intros Hloading. rewrite (fetchNewTickets_run fuel retry reset st Hloading).
  unfold tryFinally.
  pose proof (keeps_fetchNewTickets_try fuel retry reset (set_isLoadingTickets true st))
    as Hbody. revert Hbody.
  destruct (fetchNewTickets_try _ _ _ _ _) as [[u|e|] st']; cbn;
    intros Hbody Hfinished; try discriminate; split; try reflexivity; exact Hbody.
Qed.

(** *** The cursor of the tickets *)

Lemma hasSchema_stores db :
  hasSchema db ->
  exists O T P S,
    db_orders db = Some O /\ db_tickets db = Some T /\
    db_ticketPatches db = Some P /\ db_settings db = Some S /\
    keyPath O = Some "id" /\ keyPath T = Some "secret" /\
    keyPath P = Some "secret" /\ keyPath S = None.
Proof.
  destruct db as [v [O|] [T|] [P|] [S|]]; intros (HO & HT & HP & HS);
    cbn in *; try discriminate.
  exists O, T, P, S. repeat split; congruence.
Qed.

Lemma storeSettingKey_open key v st db S :
  database st = Some db -> db_settings db = Some S -> keyPath S = None ->
  storeSettingKey key v st =
  (Resolved tt,
   set_database
     (Some (set_settings (Some (Build_ObjectStore None (<[key := v]> (records S)))) db))
     (emit (Transaction ["settings"] true) st)).
Proof.
  intros Hdb HS Hkey.
  unfold storeSettingKey, bind, transaction_objectStore, commit, modify, liftE, ret.
  rewrite (transaction_run _ _ _ _ _ (getDatabase_open _ _ Hdb)).
  2:{ cbn. rewrite (hasStore_settings _ _ HS). reflexivity. }
  rewrite HS. unfold put. rewrite Hkey. cbn. rewrite Hdb. reflexivity.
Qed.

Lemma last_nonempty {A} (l : list A) x :
  last l = Some x -> (0 <? Z.of_nat (length l)) = true.
Proof. destruct l; [discriminate | reflexivity]. Qed.

(** The state after the commit of a page of tickets on an open database. *)
Lemma fetchNewTickets_page_open results ticket st db T P S :
  database st = Some db ->
  db_tickets db = Some T -> db_ticketPatches db = Some P -> db_settings db = Some S ->
  keyPath T = Some "secret" -> keyPath S = None ->
  last results = Some ticket ->
  let cursor :=
    Cursor.create (TicketPrivate.updatedAt ticket) None (TicketPrivate.id ticket) in
  let db1 :=
    set_ticketPatches
      (Some (Build_ObjectStore (keyPath P) (deletePatches (records P) results)))
      (set_tickets
         (Some (Build_ObjectStore (Some "secret") (putTickets (records T) results)))
         db) in
  fetchNewTickets_page results st =
  (Resolved tt,
   set_database
     (Some (set_settings
              (Some (Build_ObjectStore None
                       (<["lastFetchedTicket" := cursor]> (records S))))
              db1))
     (emit (Transaction ["settings"] true)
        (set_lastFetchedTicket (value cursor)
           (emit (ConsoleLog "Saved tickets to the local database")
              (set_database (Some db1)
                 (emit (Transaction ["tickets"; "ticketPatches"] true) st)))))).
Proof.
  intros Hdb HT HP HS HkT HkS Hlast cursor db1.
  unfold fetchNewTickets_page. rewrite (last_nonempty _ _ Hlast), Hlast.
  unfold bind at 1. unfold detached at 1. unfold bind at 1.
  rewrite (storeTickets_open results st db T P Hdb HT HP HkT).
  fold db1. cbn [modify fst snd].
  unfold detached, setLastFetchedTicket, bind, modify.
  fold cursor.
  erewrite (storeSettingKey_open "lastFetchedTicket" cursor _ db1 S);
    [reflexivity | reflexivity | exact HS | exact HkS].
Qed.

Lemma readSettingKey_open key st db S :
  database st = Some db -> db_settings db = Some S ->
  readSettingKey key st =
  (Resolved (records S !! key), emit (Transaction ["settings"] false) st).
Proof.
  intros Hdb HS. unfold readSettingKey, bind, transaction_objectStore, ret.
  rewrite (transaction_run _ _ _ _ _ (getDatabase_open _ _ Hdb)).
  2:{ cbn. rewrite (hasStore_settings _ _ HS). reflexivity. }
  rewrite HS. reflexivity.
Qed.

Lemma traceExtends_bind {A B} (c : Async A) (k : A -> Async B) st :
  (forall a, keeps traceExtends (k a)) ->
  traceExtends (snd (c st)) (snd (bind c k st)).
Proof.
  intros Hk. unfold bind.
  destruct (c st) as [[a|e|] st']; cbn; [apply Hk | | ]; apply traceExtends_refl.
Qed.

Lemma traceExtends_fetchNewTickets_loop fuel retry query st :
  traceExtends st
    (snd (fetchNewTickets_loop server_GET_tickets fuel retry query st)).
Proof.
  apply keeps_fetchNewTickets_loop; trace_frame.
Qed.

(** The first request of the loop is for the query it is started with. *)
Lemma fetchNewTickets_loop_first fuel retry q st :
  exists later,
    trace (snd (fetchNewTickets_loop server_GET_tickets (S fuel) retry (Some q) st)) =
    (later ++ GET_tickets q retry :: trace st)%list.
Proof.
  cbn [fetchNewTickets_loop].
  apply (traceExtends_bind (fetchTickets server_GET_tickets q retry) _ st).
  intros response. apply keeps_bind; [exact traceExtends_trans | |].
  - apply keeps_fetchNewTickets_page; trace_frame.
  - intros _ st'. apply traceExtends_fetchNewTickets_loop.
Qed.

Lemma tryFinally_trace {A} (c : Async A) cleanup st :
  (forall st, trace (cleanup st) = trace st) ->
  trace (snd (tryFinally c cleanup st)) = trace (snd (c st)).
Proof.
  intros Hcleanup. unfold tryFinally.
  destruct (c st) as [[a|e|] st']; cbn; auto.
Qed.

Lemma fetchNewTickets_from_stored fuel retry st st1 c :
  isLoadingTickets st = false ->
  lastFetchedTicket st = undefined ->
  readSettingKey "lastFetchedTicket" (set_isLoadingTickets true st) =
    (Resolved (Some c), st1) ->
  exists later,
    trace (snd (fetchNewTickets server_GET_tickets (S fuel) retry false st)) =
    (later ++
     GET_tickets (WebshopTicketsQuery.create (Some (Cursor.updatedAt c)) (Cursor.id c))
       retry :: trace st1)%list.
Proof.
  intros Hloading Hundefined Hread.
  rewrite (fetchNewTickets_run (S fuel) retry false st Hloading).
  rewrite tryFinally_trace by reflexivity.
  unfold fetchNewTickets_try, bind, gets, tryCatch, modify.
  change (lastFetchedTicket (set_isLoadingTickets true st)) with (lastFetchedTicket st).
  rewrite Hundefined. cbn [isUndefined]. rewrite Hread. cbn [orNull].
  apply (fetchNewTickets_loop_first fuel retry _
           (set_lastFetchedTicket (value c) st1)).
Qed.

End PageLoops.

(** *** The requests of a refresh of the tickets *)

(** The commit of a page of tickets to an open database sends no request
    and leaves the database open. *)
Lemma fetchNewTickets_page_requests results st db :
  database st = Some db -> hasSchema db ->
  exists st',
    fetchNewTickets_page results st = (Resolved tt, st') /\
    List.filter isRequest (trace st') = List.filter isRequest (trace st) /\
    exists db', database st' = Some db' /\ hasSchema db'.
Proof.
  intros Hdb Hschema.
  destruct (hasSchema_stores db Hschema)
    as (O & T & P & S & HO & HT & HP & HS & HkO & HkT & HkP & HkS).
  destruct (last results) as [ticket|] eqn:Hlast.
  - rewrite (fetchNewTickets_page_open results ticket st db T P S
               Hdb HT HP HS HkT HkS Hlast).
    eexists. split; [reflexivity |]. split; [reflexivity |].
    eexists. split; [reflexivity |].
    destruct Hschema as (Horders & _).
    split; [exact Horders |]. cbn. rewrite HkP. auto.
  - apply last_None in Hlast. subst results. exists st. eauto.
Qed.

(** The requests of the page loop when the server answers the query [q]
    with the page [pages q]: the query it starts with, then the [next] of
    each page. *)
Lemma fetchNewTickets_loop_requests
    (pages : WebshopTicketsQuery.t ->
             PaginatedResponse.t TicketPrivate.t WebshopTicketsQuery.t)
    fuel retry query st db :
  database st = Some db -> hasSchema db ->
  List.filter isRequest
    (trace (snd (fetchNewTickets_loop (fun _ q => Resolved (pages q)) fuel retry query st))) =
  (rev ((fun q => GET_tickets q retry) <$> visited pages fuel query) ++
   List.filter isRequest (trace st))%list.
Proof.
  revert query st db. induction fuel as [|fuel IH]; intros [q|] st db Hdb Hschema;
    try reflexivity.
  cbn [fetchNewTickets_loop visited]. unfold bind at 1. unfold fetchTickets, request.
  destruct (fetchNewTickets_page_requests (PaginatedResponse.results (pages q))
              (emit (GET_tickets q retry) st) db Hdb Hschema)
    as (st' & Hpage & Hrequests & db' & Hdb' & Hschema').
  unfold bind. rewrite Hpage.
  rewrite (IH (PaginatedResponse.next (pages q)) st' db' Hdb' Hschema').
  rewrite Hrequests, fmap_cons. cbn [rev trace emit List.filter isRequest].
  rewrite <- app_assoc. reflexivity.
Qed.

(** The requests of a refresh that reads its cursor back from [settings]. *)
Lemma fetchNewTickets_next pages fuel retry st st1 c db :
  isLoadingTickets st = false ->
  lastFetchedTicket st = undefined ->
  readSettingKey "lastFetchedTicket" (set_isLoadingTickets true st) =
    (Resolved (Some c), st1) ->
  database st1 = Some db -> hasSchema db ->
  List.filter isRequest
    (trace (snd (fetchNewTickets (fun _ q => Resolved (pages q)) fuel retry false st))) =
  (rev ((fun q => GET_tickets q retry) <$>
        visited pages fuel
          (Some (WebshopTicketsQuery.create (Some (Cursor.updatedAt c)) (Cursor.id c)))) ++
   List.filter isRequest (trace st1))%list.
Proof.
  intros Hloading Hundefined Hread Hdb Hschema.
  rewrite (fetchNewTickets_run _ fuel retry false st Hloading).
  rewrite tryFinally_trace by reflexivity.
  unfold fetchNewTickets_try, bind, gets, tryCatch, modify.
  change (lastFetchedTicket (set_isLoadingTickets true st)) with (lastFetchedTicket st).
  rewrite Hundefined. cbn [isUndefined]. rewrite Hread. cbn [orNull].
  apply (fetchNewTickets_loop_requests pages fuel retry _
           (set_lastFetchedTicket (value c) st1) db Hdb Hschema).
Qed.

(** C1, as the code has it. The tie-break of the tickets cursor is the
    ticket's [id]: the commit of a non-empty page sets [lastFetchedTicket],
    in memory and in the [settings] collection, to the [updatedAt] and the
    [id] of the last ticket of the page. A refresh that is not a reset, on
    a manager that has no cursor in memory yet and reads one back from
    [settings], first asks for [updatedSince] that [updatedAt] and [lastId]
    that [id]. When the server answers each query with a page of its own,
    the requests of that refresh are, in order, that first query and then
    the [next] of each page, until a page has none. *)
Theorem fetchNewTickets_cursor_is_id :
  (forall st db results ticket,
     database st = Some db -> hasSchema db ->
     last results = Some ticket ->
     let cursor :=
       Cursor.create (TicketPrivate.updatedAt ticket) None (TicketPrivate.id ticket) in
     lastFetchedTicket (snd (fetchNewTickets_page results st)) = value cursor /\
     fst (readSettingKey "lastFetchedTicket" (snd (fetchNewTickets_page results st))) =
       Resolved (Some cursor)) /\
  (forall server_GET_tickets fuel retry st st1 c,
     isLoadingTickets st = false ->
     lastFetchedTicket st = undefined ->
     readSettingKey "lastFetchedTicket" (set_isLoadingTickets true st) =
       (Resolved (Some c), st1) ->
     exists later,
       trace (snd (fetchNewTickets server_GET_tickets (S fuel) retry false st)) =
       (later ++
        GET_tickets
          (WebshopTicketsQuery.create (Some (Cursor.updatedAt c)) (Cursor.id c))
          retry :: trace st1)%list) /\
  (forall pages fuel retry st st1 c db,
     isLoadingTickets st = false ->
     lastFetchedTicket st = undefined ->
     readSettingKey "lastFetchedTicket" (set_isLoadingTickets true st) =
       (Resolved (Some c), st1) ->
     database st1 = Some db -> hasSchema db ->
     List.filter isRequest
       (trace (snd (fetchNewTickets (fun _ q => Resolved (pages q)) fuel retry false st))) =
     (rev ((fun q => GET_tickets q retry) <$>
           visited pages fuel
             (Some (WebshopTicketsQuery.create (Some (Cursor.updatedAt c))
                      (Cursor.id c)))) ++
      List.filter isRequest (trace st1))%list).
Proof.
  split; [| split].
  - intros st db results ticket Hdb Hschema Hlast cursor.
    destruct (hasSchema_stores db Hschema)
      as (O & T & P & S & HO & HT & HP & HS & HkO & HkT & HkP & HkS).
    rewrite (fetchNewTickets_page_open results ticket st db T P S
               Hdb HT HP HS HkT HkS Hlast).
    cbn [snd]. split; [reflexivity |].
    erewrite readSettingKey_open; [| reflexivity | reflexivity].
    cbn. f_equal. apply lookup_insert_eq.
  - exact fetchNewTickets_from_stored.
  - exact fetchNewTickets_next.
Qed.

(** ** The scenarios *)

(** C8. Page 1 is one order with [updatedAt = T1] and a next query, page 2
    is empty with no next query. On a fresh browser [fetchNewOrders] then
    sends two requests, the second for the next query of page 1, and stops;
    it writes to [orders] once, and that order is then in the store; it
    writes the cursor once, for page 1 only: [lastFetchedOrder] is [T1]
    with the number of the order, in memory and in [settings]. *)
Theorem fetchNewOrders_two_pages (T1 : Z) (number : option Z) (payload : string)
    (retry : bool) (fuel : nat) :
  let order := Order.create "1" number T1 payload in
  let cursor := Cursor.create T1 number None in
  let run :=
    fetchNewOrders (twoPages T1 order) (S (S fuel)) retry false
      (newManager freshBrowser) in
  fst run = Resolved tt /\
  List.filter isRequest (trace (snd run)) =
    [GET_orders (WebshopOrdersQuery.create (Some T1) None) retry;
     GET_orders (WebshopOrdersQuery.create None None) retry] /\
  length (List.filter (isCommit "orders") (trace (snd run))) = 1%nat /\
  fst (getOrderFromDatabase "1" (snd run)) = Resolved (Some order) /\
  length (List.filter (isCommit "settings") (trace (snd run))) = 1%nat /\
  lastFetchedOrder (snd run) = value cursor /\
  fst (readSettingKey "lastFetchedOrder" (snd run)) = Resolved (Some cursor) /\
  isLoadingOrders (snd run) = false.
Proof.
  intros order cursor run. subst order cursor run.
  destruct fuel; repeat split; vm_compute; reflexivity.
Qed.

(** C1 as the spec words it fails: after the commit of a page whose last
    ticket has id [id-1] and secret [secret-A], the cursor holds the id and
    nowhere the secret, and the manager that next opens the database asks
    for [lastId = id-1]. *)
Lemma fetchNewTickets_tie_break_is_not_secret :
  let run :=
    fetchNewTickets (onePage [sampleTicket]) 1 false false (newManager freshBrowser) in
  let next :=
    fetchNewTickets (onePage []) 1 false false
      (set_database (database (snd run)) (newManager freshBrowser)) in
  fst run = Resolved tt /\
  (exists cursor,
     lastFetchedTicket (snd run) = value cursor /\
     fst (readSettingKey "lastFetchedTicket" (snd run)) = Resolved (Some cursor) /\
     Cursor.updatedAt cursor = TicketPrivate.updatedAt sampleTicket /\
     Cursor.id cursor = TicketPrivate.id sampleTicket /\
     Cursor.id cursor <> Some (TicketPrivate.secret sampleTicket) /\
     Cursor.number cursor = None) /\
  List.filter isRequest (trace (snd next)) =
    [GET_tickets (WebshopTicketsQuery.create (Some 1000) (Some "id-1")) false] /\
  Some "id-1" <> Some (TicketPrivate.secret sampleTicket).
Proof.
  cbv zeta. split; [vm_compute; reflexivity |]. split; [| split].
  - exists (Cursor.create 1000 None (Some "id-1")).
    repeat split; try (vm_compute; reflexivity); discriminate.
  - vm_compute. reflexivity.
  - discriminate.
Qed.

Lemma hasSchema_sampleDatabase : hasSchema sampleDatabase.
Proof. repeat split. Defined.

(** A first session commits [sampleTicket]; the manager of the next
    session, on the database the first one has left, asks for what came
    after it, and then for the [next] of each page. *)
Lemma fetchNewTickets_cursor_is_id_witness :
  let first :=
    snd (fetchNewTickets (onePage [sampleTicket]) 1 false false (newManager freshBrowser)) in
  let reloaded := newManager (Build_IDBFactory true (database first)) in
  lastFetchedTicket
    (snd (fetchNewTickets_page [sampleTicket] (snd (getDatabase (newManager freshBrowser))))) =
    value (Cursor.create 1000 None (Some "id-1")) /\
  (exists later,
     trace (snd (fetchNewTickets (onePage []) 1 false false reloaded)) =
     (later ++
      [GET_tickets (WebshopTicketsQuery.create (Some 1000) (Some "id-1")) false;
       Transaction ["settings"] false])%list) /\
  List.filter isRequest
    (trace (snd (fetchNewTickets (fun _ q => Resolved (sampleTicketPages q)) 3 false false
                   reloaded))) =
    [GET_tickets (WebshopTicketsQuery.create None None) false;
     GET_tickets (WebshopTicketsQuery.create (Some 1000) (Some "id-1")) false].
Proof.
  intros first reloaded.
  destruct fetchNewTickets_cursor_is_id as (Hcommit & Hfirst & Hnext).
  split; [| split].
  - refine (proj1 (Hcommit (snd (getDatabase (newManager freshBrowser))) _
                     [sampleTicket] sampleTicket eq_refl _ eq_refl)).
    repeat split.
  - exact (Hfirst (onePage []) O false reloaded
             (snd (readSettingKey "lastFetchedTicket" (set_isLoadingTickets true reloaded)))
             (Cursor.create 1000 None (Some "id-1")) eq_refl eq_refl eq_refl).
  - refine (Hnext sampleTicketPages 3%nat false reloaded
              (snd (readSettingKey "lastFetchedTicket" (set_isLoadingTickets true reloaded)))
              (Cursor.create 1000 None (Some "id-1")) _ eq_refl eq_refl eq_refl eq_refl _).
    repeat split.
Defined.

(** C2 on the tickets. A refresh of the tickets on a new manager settles,
    and [isLoadingTickets] is still true: the [finally] block of
    [fetchNewTickets] clears [isLoadingOrders]. The next refresh returns at
    the guard and fetches nothing, whatever the server has. *)
Theorem fetchNewTickets_leaves_isLoadingTickets_set :
  let run := fetchNewTickets (onePage []) 1 false false (newManager freshBrowser) in
  fst run = Resolved tt /\
  isLoadingTickets (snd run) = true /\
  isLoadingOrders (snd run) = false /\
  fetchNewTickets (onePage [sampleTicket]) 1 false false (snd run) =
    (Resolved tt, snd run).
Proof. cbv zeta. repeat split; vm_compute; reflexivity. Qed.

(** ** The patch queue on the sample data *)

Lemma trySavePatches_reentrancy_witness :
  trySavePatches failedToFetch offline (set_savingTicketPatches true sampleManager) =
    (Resolved tt, set_savingTicketPatches true sampleManager) /\
  (countInFlight [AwaitingPatches; Returned (Resolved tt)] <= 1)%nat.
Proof.
  destruct (trySavePatches_reentrancy failedToFetch offline) as [Hguard Hone].
  split.
  - apply Hguard. reflexivity.
  - apply (Hone freshBrowser
             (Build_System
                (snd (trySavePatches_enter
                        (snd (trySavePatches_enter (newManager freshBrowser)))))
                [AwaitingPatches; Returned (Resolved tt)])).
    apply (reachable_step failedToFetch offline freshBrowser
             (Build_System (snd (trySavePatches_enter (newManager freshBrowser)))
                [AwaitingPatches])).
    + apply (reachable_step failedToFetch offline freshBrowser
               (Build_System (newManager freshBrowser) [])).
      * apply reachable_new.
      * apply (step_call failedToFetch offline
                 (Build_System (newManager freshBrowser) [])).
    + apply (step_call failedToFetch offline
               (Build_System (snd (trySavePatches_enter (newManager freshBrowser)))
                  [AwaitingPatches])).
Defined.

(** The patch for [secret-A] is queued and the browser is offline. *)
Lemma trySavePatches_submission_failure_witness :
  fst (trySavePatches failedToFetch offline sampleManager) = Resolved tt /\
  fst (getTicketPatchesFromDatabase
         (snd (trySavePatches failedToFetch offline sampleManager))) =
    Resolved [samplePatch] /\
  savingTicketPatches (snd (trySavePatches failedToFetch offline sampleManager)) = false.
Proof.
  destruct (trySavePatches_submission_failure failedToFetch offline sampleManager
              (emit (Transaction ["ticketPatches"] false)
                 (set_savingTicketPatches true sampleManager))
              [samplePatch] (RequestError "Failed to fetch") eq_refl)
    as (Hresult & _ & Hqueue & Hguard).
  - vm_compute. reflexivity.
  - discriminate.
  - reflexivity.
  - split; [exact Hresult | split; [exact Hqueue | exact Hguard]].
Defined.

(** The first [getDatabase] of a manager on a fresh browser leaves the
    queue ready: the upgrade handler has created the collections. *)
Lemma queueReady_fresh : queueReady (snd (getDatabase (newManager freshBrowser))).
Proof.
  exists (Build_IDBDatabase Version
            (Some (createStore (Some "id"))) (Some (createStore (Some "secret")))
            (Some (createStore (Some "secret"))) (Some (createStore None))),
    (createStore (Some "secret")), (createStore (Some "secret")).
  repeat split. apply map_Forall_empty.
Qed.

Lemma queueReady_sampleManager : queueReady sampleManager.
Proof.
  exists sampleDatabase,
    (Build_ObjectStore (Some "secret") {[ "secret-A" := sampleTicket ]}),
    (Build_ObjectStore (Some "secret") {[ "secret-A" := samplePatch ]}).
  repeat split. apply map_Forall_singleton. reflexivity.
Defined.

Lemma ticketPatches_one_per_secret_witness :
  let later := TicketPatch.create "secret-A" (Some None) (Some (Some "door 2")) in
  queuedPatches
    (snd (storeTicketPatches [later] (snd (storeTicketPatches [samplePatch] sampleManager))))
    !! "secret-A" = Some later /\
  queuedPatches (snd (trySavePatches failedToFetch accepting sampleManager))
    !! "secret-A" = None.
Proof.
  intros later.
  destruct (ticketPatches_one_per_secret failedToFetch accepting sampleManager
              queueReady_sampleManager) as (_ & _ & _ & Hoverwrite & Hflush).
  split.
  - apply (Hoverwrite samplePatch later eq_refl).
  - destruct (Hflush
                (emit (Transaction ["ticketPatches"] false)
                   (set_savingTicketPatches true sampleManager))
                [samplePatch] [patch sampleTicket samplePatch] eq_refl)
      as (_ & Hqueue & _).
    + vm_compute. reflexivity.
    + discriminate.
    + reflexivity.
    + rewrite (Hqueue "secret-A"). reflexivity.
Defined.

(** ** Strings and buffers *)

Ltac divlia := Z.to_euclidean_division_equations; lia.

Ltac decide_comparisons :=
  repeat match goal with
  | |- context [?a <? ?b] =>
      destruct (Z.ltb_spec a b); try (exfalso; divlia)
  | |- context [?a <=? ?b] =>
      destruct (Z.leb_spec a b); try (exfalso; divlia)
  end.

Lemma utf8Slice_encodeCodePoint_bmp c rest :
  0 <= c < 0x10000 -> isLead c = false -> isTrail c = false ->
  utf8Slice (encodeCodePoint c ++ rest) = c :: utf8Slice rest.
Proof.
  intros Hc Hlead Htrail. unfold isLead, isTrail in *.
  assert (c < 0xD800 \/ 0xDFFF < c) as Hsurrogate.
  { revert Hlead Htrail.
    destruct (Z.leb_spec 0xD800 c), (Z.leb_spec c 0xDBFF), (Z.leb_spec 0xDC00 c),
      (Z.leb_spec c 0xDFFF); cbn; intros; try discriminate; lia. }
  clear Hlead Htrail.
  unfold encodeCodePoint.
  destruct (Z.ltb_spec c 0x80); [| destruct (Z.ltb_spec c 0x800);
    [| destruct (Z.ltb_spec c 0x10000); [| lia]]];
    cbn [app utf8Slice]; unfold isContinuation, codeUnits; cbn [andb orb].
  - decide_comparisons. reflexivity.
  - decide_comparisons; cbn [andb orb app]; f_equal; divlia.
  - decide_comparisons; cbn [andb orb app]; try (f_equal; divlia).
Qed.

Lemma utf8Slice_encodeCodePoint_pair u v rest :
  isLead u = true -> isTrail v = true ->
  utf8Slice (encodeCodePoint (0x10000 + (u - 0xD800) * 1024 + (v - 0xDC00)) ++ rest) =
  u :: v :: utf8Slice rest.
Proof.
  unfold isLead, isTrail. intros Hu Hv.
  apply andb_prop in Hu as [Hu1 Hu2]. apply andb_prop in Hv as [Hv1 Hv2].
  apply Z.leb_le in Hu1, Hu2, Hv1, Hv2.
  set (c := 0x10000 + (u - 0xD800) * 1024 + (v - 0xDC00)).
  assert (0x10000 <= c < 0x110000) as Hc by (unfold c; lia).
  assert ((c - 0x10000) / 1024 = u - 0xD800 /\ (c - 0x10000) mod 1024 = v - 0xDC00)
    as [Hhigh Hlow] by (unfold c; divlia).
  clearbody c. unfold encodeCodePoint.
  destruct (Z.ltb_spec c 0x80); [lia |]. destruct (Z.ltb_spec c 0x800); [lia |].
  destruct (Z.ltb_spec c 0x10000); [lia |].
  cbn [app utf8Slice]; unfold isContinuation; cbn [andb orb].
  decide_comparisons; cbn [andb orb app].
  match goal with |- codeUnits ?c' ++ _ = _ => replace c' with c by divlia end.
  unfold codeUnits. destruct (Z.ltb_spec 0xFFFF c); [| lia].
  rewrite Hhigh, Hlow. cbn [app]. f_equal; [lia | f_equal; lia].
Qed.

Lemma bmp_unit u (rest : bool) :
  (0 <=? u) && (u <? 0x10000) && negb (isTrail u) && rest = true ->
  0 <= u < 0x10000 /\ isTrail u = false /\ rest = true.
Proof.
  intros H. apply andb_prop in H as [H Hrest].
  apply andb_prop in H as [H Htrail]. apply andb_prop in H as [Hlow Hhigh].
  apply Z.leb_le in Hlow. apply Z.ltb_lt in Hhigh.
  apply negb_true_iff in Htrail. auto.
Qed.

Lemma lead_tests c :
  isLead c = true ->
  (0xD7FF <? c) && (c <? 0xE000) = true /\ (0xDBFF <? c) = false /\ (c <? 0xDC00) = true /\
  isTrail c = false.
Proof.
  unfold isLead, isTrail. intros H. apply andb_prop in H as [H1 H2].
  apply Z.leb_le in H1, H2.
  repeat split; decide_comparisons; reflexivity.
Qed.

Lemma trail_tests c :
  isTrail c = true ->
  (0xD7FF <? c) && (c <? 0xE000) = true /\ (0xDBFF <? c) = true /\ (c <? 0xDC00) = false /\
  isLead c = false.
Proof.
  unfold isLead, isTrail. intros H. apply andb_prop in H as [H1 H2].
  apply Z.leb_le in H1, H2.
  repeat split; decide_comparisons; reflexivity.
Qed.

Lemma bmp_tests c :
  isLead c = false -> isTrail c = false -> (0xD7FF <? c) && (c <? 0xE000) = false.
Proof.
  unfold isLead, isTrail.
  destruct (Z.leb_spec 0xD800 c), (Z.leb_spec c 0xDBFF), (Z.leb_spec 0xDC00 c),
    (Z.leb_spec c 0xDFFF); cbn; intros; try discriminate;
    decide_comparisons; reflexivity.
Qed.

Lemma encodeCodePoint_bytes c :
  0 <= c < 0x110000 -> Forall isByte (encodeCodePoint c).
Proof.
  intros Hc. unfold encodeCodePoint, isByte.
  destruct (Z.ltb_spec c 0x80); [| destruct (Z.ltb_spec c 0x800);
    [| destruct (Z.ltb_spec c 0x10000)]];
    repeat constructor; divlia.
Qed.

Lemma replacement_bytes : Forall isByte replacement.
Proof. unfold replacement, isByte. repeat constructor; lia. Qed.

Lemma pair_bytes u v :
  isLead u = true -> isTrail v = true ->
  Forall isByte (encodeCodePoint (0x10000 + (u - 0xD800) * 1024 + (v - 0xDC00))).
Proof.
  intros Hu Hv. apply encodeCodePoint_bytes. unfold isLead, isTrail in *.
  apply andb_prop in Hu as [H1 H2]. apply andb_prop in Hv as [H3 H4].
  apply Z.leb_le in H1, H2, H3, H4. lia.
Qed.

(** The encoding of a well-formed string, from the start and from where a
    lead surrogate is held back, and what UTF-8 reads of it. *)
Lemma utf8ToBytes_loop_wellFormed (s : DOMString) :
  (isWellFormed s = true ->
   utf8Slice (utf8ToBytes_loop None s) = s /\ Forall isByte (utf8ToBytes_loop None s)) /\
  (forall lead, isLead lead = true -> isWellFormed (lead :: s) = true ->
   utf8Slice (utf8ToBytes_loop (Some lead) s) = lead :: s /\
   Forall isByte (utf8ToBytes_loop (Some lead) s)).
Proof.
  induction s as [|c rest [IH IHlead]].
  - split; [intros _; split; [reflexivity | constructor] |].
    intros lead Hlead. cbn [isWellFormed]. rewrite Hlead. discriminate.
  - split.
    + cbn [isWellFormed utf8ToBytes_loop]. destruct (isLead c) eqn:Hlead.
      * destruct (lead_tests c Hlead) as (-> & -> & _).
        destruct rest as [|v rest']; [discriminate |].
        intros H. apply (IHlead c Hlead). cbn [isWellFormed]. rewrite Hlead. exact H.
      * intros H. apply bmp_unit in H as (Hc & Htrail & Hrest).
        rewrite (bmp_tests c Hlead Htrail). cbn [app].
        destruct (IH Hrest) as [IHslice IHbytes].
        rewrite utf8Slice_encodeCodePoint_bmp by assumption. rewrite IHslice.
        split; [reflexivity |]. apply Forall_app. split; [| exact IHbytes].
        apply encodeCodePoint_bytes. lia.
    + intros lead Hlead. cbn [isWellFormed utf8ToBytes_loop]. rewrite Hlead.
      intros H. apply andb_prop in H as [Htrail Hrest].
      destruct (trail_tests c Htrail) as (-> & _ & -> & _).
      destruct (IH Hrest) as [IHslice IHbytes].
      rewrite utf8Slice_encodeCodePoint_pair by assumption. rewrite IHslice.
      split; [reflexivity |]. apply Forall_app. split; [| exact IHbytes].
      apply pair_bytes; assumption.
Qed.

Lemma utf8Slice_utf8ToBytes (s : DOMString) :
  isWellFormed s = true -> utf8Slice (utf8ToBytes s) = s.
Proof. intros H. apply (proj1 (utf8ToBytes_loop_wellFormed s) H). Qed.

Lemma utf8ToBytes_bytes (s : DOMString) :
  isWellFormed s = true -> Forall isByte (utf8ToBytes s).
Proof. intros H. apply (proj1 (utf8ToBytes_loop_wellFormed s) H). Qed.

Lemma base64clean_encodeSextet s rest :
  0 <= s < 64 ->
  base64clean (encodeSextet s :: rest) = s :: base64clean rest.
Proof.
  intros Hs. cbn [base64clean]. unfold encodeSextet.
  destruct (Z.ltb_spec s 26); [| destruct (Z.ltb_spec s 52);
    [| destruct (Z.ltb_spec s 62); [| destruct (Z.eqb_spec s 62)]]];
    unfold decodeChar;
    repeat match goal with
    | |- context [?a <=? ?b] => destruct (Z.leb_spec a b)
    | |- context [?a =? ?b] => destruct (Z.eqb_spec a b)
    end; cbn [andb orb]; first [exfalso; lia | f_equal; lia].
Qed.

Lemma toByteArray_fromByteArray (bytes : Buffer) :
  (Forall isByte bytes -> Buffer_from_base64 (Buffer_toString_base64 bytes) = bytes).
Proof.
  unfold Buffer_from_base64, Buffer_toString_base64.
  assert (forall n (bytes : Buffer), (length bytes <= n)%nat -> Forall isByte bytes ->
            toByteArray (base64clean (fromByteArray bytes)) = bytes) as Hall.
  2:{ apply (Hall (length bytes)). lia. }
  clear bytes. intros n. induction n as [|n IH]; intros bytes Hlen Hbytes.
  { destruct bytes; [reflexivity | cbn in Hlen; lia]. }
  destruct bytes as [|a [|b [|c rest]]]; [reflexivity | | |].
  - apply Forall_cons in Hbytes as [Ha _]. unfold isByte in Ha.
    cbn [fromByteArray].
    rewrite !base64clean_encodeSextet by divlia.
    cbn [base64clean Z.eqb]. cbn [toByteArray]. f_equal. divlia.
  - apply Forall_cons in Hbytes as [Ha Hbytes].
    apply Forall_cons in Hbytes as [Hb _]. unfold isByte in Ha, Hb.
    cbn [fromByteArray].
    rewrite !base64clean_encodeSextet by divlia.
    cbn [base64clean Z.eqb]. cbn [toByteArray]. f_equal; [| f_equal]; divlia.
  - apply Forall_cons in Hbytes as [Ha Hbytes].
    apply Forall_cons in Hbytes as [Hb Hbytes].
    apply Forall_cons in Hbytes as [Hc Hrest]. unfold isByte in Ha, Hb, Hc.
    cbn [fromByteArray].
    rewrite !base64clean_encodeSextet by divlia.
    cbn [toByteArray]. rewrite IH; [| cbn in Hlen; lia | assumption].
    f_equal; [| f_equal; [| f_equal]]; divlia.
Qed.

(** ** Sealed boxes *)

Section SealedBox.

Variable crypto_box_seal : Buffer -> Buffer -> Buffer -> error + Buffer.
Variable crypto_box_seal_open : Buffer -> Buffer -> Buffer -> error + Buffer.

(** libsodium's contract: for a key pair of [crypto_box_keypair], whatever
    the ephemeral key, a sealed message opens to the message. *)
Variable keyPair : Buffer -> Buffer -> Prop.
Hypothesis sealed_box :
  forall random message publicKey privateKey,
    keyPair publicKey privateKey -> Forall isByte message ->
    exists sealed,
      crypto_box_seal random message publicKey = inr sealed /\
      Forall isByte sealed /\
      crypto_box_seal_open sealed publicKey privateKey = inr message.

(** What comes back is the message as UTF-8 reads its own encoding. *)
Lemma unsealMessage_sealMessage_utf8 random message publicKey privateKey :
  keyPair (Buffer_from_base64 publicKey) (Buffer_from_base64 privateKey) ->
  Forall isByte (utf8ToBytes message) ->
  exists ciphertext,
    sealMessage crypto_box_seal random message publicKey = inr ciphertext /\
    unsealMessage crypto_box_seal_open ciphertext publicKey privateKey =
      inr (utf8Slice (utf8ToBytes message)).
Proof.
  intros Hkeys Hbytes.
  destruct (sealed_box random (utf8ToBytes message) _ _ Hkeys Hbytes)
    as (sealed & Hseal & Hsealed & Hopen).
  exists (Buffer_toString_base64 sealed). unfold sealMessage, unsealMessage.
  unfold Buffer_from_utf8, Buffer_toString_utf8.
  rewrite Hseal. cbn [andThen]. split; [reflexivity |].
  rewrite (toByteArray_fromByteArray sealed Hsealed), Hopen. reflexivity.
Qed.

(** C4, as the code has it. For every key pair and every message that is
    well-formed UTF-16 (no lone surrogate), and whatever the ephemeral key
    of the sealing, [sealMessage] yields a ciphertext that [unsealMessage]
    opens to the message. *)
Theorem unsealMessage_sealMessage random message publicKey privateKey :
  keyPair (Buffer_from_base64 publicKey) (Buffer_from_base64 privateKey) ->
  isWellFormed message = true ->
  exists ciphertext,
    sealMessage crypto_box_seal random message publicKey = inr ciphertext /\
    unsealMessage crypto_box_seal_open ciphertext publicKey privateKey = inr message.
Proof.
  intros Hkeys Hwf.
  destruct (unsealMessage_sealMessage_utf8 random message publicKey privateKey
              Hkeys (utf8ToBytes_bytes message Hwf)) as (ciphertext & Hseal & Hunseal).
  exists ciphertext. split; [exact Hseal |].
  rewrite Hunseal, (utf8Slice_utf8ToBytes message Hwf). reflexivity.
Qed.

(** With any sealed box, the string that is one lead surrogate comes back
    as the string that is U+FFFD. *)
Lemma unsealMessage_sealMessage_surrogate random publicKey privateKey :
  keyPair (Buffer_from_base64 publicKey) (Buffer_from_base64 privateKey) ->
  exists ciphertext,
    sealMessage crypto_box_seal random [0xD800] publicKey = inr ciphertext /\
    unsealMessage crypto_box_seal_open ciphertext publicKey privateKey = inr [0xFFFD].
Proof.
  intros Hkeys.
  apply (unsealMessage_sealMessage_utf8 random [0xD800] publicKey privateKey Hkeys).
  apply replacement_bytes.
Qed.

End SealedBox.

Lemma plainBox_sealed_box random message publicKey privateKey :
  plainBox_keyPair publicKey privateKey -> Forall isByte message ->
  exists sealed,
    plainBox_seal random message publicKey = inr sealed /\
    Forall isByte sealed /\
    plainBox_open sealed publicKey privateKey = inr message.
Proof. intros _ Hbytes. exists message. repeat split. exact Hbytes. Defined.

(** The message "hi", sealed to the empty key. *)
Lemma unsealMessage_sealMessage_witness :
  exists ciphertext,
    sealMessage plainBox_seal [] [104; 105] [] = inr ciphertext /\
    unsealMessage plainBox_open ciphertext [] [] = inr [104; 105].
Proof.
  apply (unsealMessage_sealMessage plainBox_seal plainBox_open plainBox_keyPair
           plainBox_sealed_box [] [104; 105] [] []); reflexivity.
Defined.

(** C4 as the spec words it fails: the message made of the one code unit
    U+D800 is sealed as the bytes of U+FFFD, and that is what unsealing
    returns. *)
Lemma unsealMessage_sealMessage_lone_surrogate :
  exists ciphertext,
    sealMessage plainBox_seal [] [0xD800] [] = inr ciphertext /\
    unsealMessage plainBox_open ciphertext [] [] = inr [0xFFFD] /\
    unsealMessage plainBox_open ciphertext [] [] <> inr [0xD800].
Proof.
  destruct (unsealMessage_sealMessage_surrogate plainBox_seal plainBox_open
              plainBox_keyPair plainBox_sealed_box [] [] [] eq_refl)
    as (ciphertext & Hseal & Hunseal).
  exists ciphertext. split; [exact Hseal |]. split; [exact Hunseal |].
  rewrite Hunseal. discriminate.
Qed.

(** ** Materialising a batch of members *)

(** The numbers of present and of absent payloads of a batch in which all
    payloads but the one at [i] are present. *)
Lemma all_present {D} (l : list (option D)) :
  (forall j x, l !! j = Some x -> is_Some x) ->
  length (filter is_Some l) = length l /\ length (filter (fun x => x = None) l) = O.
Proof.
  induction l as [|x l IH]; intros Hall; [split; reflexivity |].
  destruct (IH (fun j y Hj => Hall (S j) y Hj)) as [IHsome IHnone].
  destruct (Hall O x eq_refl) as [d ->].
  rewrite filter_cons_True by eauto. rewrite filter_cons_False by discriminate.
  cbn [length]. rewrite IHsome. auto.
Qed.

Lemma one_absent {D} (l : list (option D)) (i : nat) :
  (i < length l)%nat ->
  (forall j x, l !! j = Some x -> is_Some x <-> j <> i) ->
  length (filter is_Some l) = (length l - 1)%nat /\
  length (filter (fun x => x = None) l) = 1%nat.
Proof.
  revert i. induction l as [|x l IH]; intros i Hi Hall; [cbn in Hi; lia |].
  destruct i as [|i].
  - assert (x = None) as ->.
    { destruct x as [d|]; [| reflexivity].
      destruct (proj1 (Hall O (Some d) eq_refl)); eauto. }
    destruct (all_present l) as [Hsome Hnone].
    { intros j y Hj. apply (Hall (S j) y Hj). lia. }
    rewrite filter_cons_False by (intros [d Hd]; discriminate).
    rewrite filter_cons_True by reflexivity.
    cbn [length]. rewrite Hsome, Hnone. split; lia.
  - cbn [length] in Hi.
    destruct (IH i) as [IHsome IHnone]; [lia | |].
    { intros j y Hj. rewrite (Hall (S j) y Hj). lia. }
    assert (is_Some x) as [d ->] by (apply (Hall O x eq_refl); lia).
    rewrite filter_cons_True by eauto. rewrite filter_cons_False by discriminate.
    cbn [length]. rewrite IHsome, IHnone. split; lia.
Qed.

Section Materialize.

Variables (Json MemberDetails KeychainItem : Type).
Variable crypto_box_seal_open : Buffer -> Buffer -> Buffer -> error + Buffer.
Variable JSON_parse : DOMString -> error + Json.
Variable decodeVersionBox : Json -> error + MemberDetails.
Variable Keychain_getItem : DOMString -> option KeychainItem.
Variable decryptKeychainItem : KeychainItem -> error + KeyPair.t.

Local Abbreviation corrupted :=
  (corruptedEnvelope crypto_box_seal_open JSON_parse decodeVersionBox).
Local Abbreviation wellFormed :=
  (wellFormedEnvelope crypto_box_seal_open JSON_parse decodeVersionBox).


Lemma decryptedDetails_corrupted keyPair id encrypted :
  corrupted keyPair encrypted ->
  fst (decryptedDetails crypto_box_seal_open JSON_parse decodeVersionBox
         keyPair id encrypted) = None.
Proof.
  intros (ciphertext & e & -> & Hne & Hread).
  destruct ciphertext as [|c ciphertext]; [congruence |].
  unfold decryptedDetails. cbn [notSet].
  change (default [] (Some (c :: ciphertext))) with (c :: ciphertext). rewrite Hread. reflexivity.
Qed.

Lemma decryptedDetails_wellFormed keyPair id encrypted :
  wellFormed keyPair encrypted ->
  is_Some (fst (decryptedDetails crypto_box_seal_open JSON_parse decodeVersionBox
                  keyPair id encrypted)).
Proof.
  intros (ciphertext & details & -> & Hne & Hread).
  destruct ciphertext as [|c ciphertext]; [congruence |].
  unfold decryptedDetails. cbn [notSet].
  change (default [] (Some (c :: ciphertext))) with (c :: ciphertext). rewrite Hread. cbn. eauto.
Qed.

(** One member out per member in, in the order of the input. *)
Lemma decryptMembers_loop_each keyPair groups data :
  MemberWithRegistrations.id <$>
    fst (decryptMembers_loop crypto_box_seal_open JSON_parse decodeVersionBox
           keyPair groups data) =
  EncryptedMemberWithRegistrations.id <$> data /\
  MemberWithRegistrations.details <$>
    fst (decryptMembers_loop crypto_box_seal_open JSON_parse decodeVersionBox
           keyPair groups data) =
  (fun member =>
     fst (decryptedDetails crypto_box_seal_open JSON_parse decodeVersionBox keyPair
            (EncryptedMemberWithRegistrations.id member)
            (EncryptedMemberWithRegistrations.encryptedForOrganization member)))
    <$> data.
Proof.
  induction data as [|member rest [IHid IHdetails]]; [split; reflexivity |].
  cbn [decryptMembers_loop]. rewrite !(fmap_cons _ member rest).
  destruct (decryptedDetails _ _ _ _ _ _) as [details console].
  destruct (decryptMembers_loop _ _ _ _ _ rest) as [members console'].
  cbn in *. rewrite IHid, IHdetails. split; reflexivity.
Qed.

Lemma decryptMembersWithoutRegistrations_loop_each keyPair data :
  Member.id <$>
    fst (decryptMembersWithoutRegistrations_loop crypto_box_seal_open JSON_parse
           decodeVersionBox keyPair data) =
  EncryptedMember.id <$> data /\
  Member.details <$>
    fst (decryptMembersWithoutRegistrations_loop crypto_box_seal_open JSON_parse
           decodeVersionBox keyPair data) =
  (fun member =>
     fst (decryptedDetails crypto_box_seal_open JSON_parse decodeVersionBox keyPair
            (EncryptedMember.id member)
            (EncryptedMember.encryptedForOrganization member)))
    <$> data.
Proof.
  induction data as [|member rest [IHid IHdetails]]; [split; reflexivity |].
  cbn [decryptMembersWithoutRegistrations_loop]. rewrite !(fmap_cons _ member rest).
  destruct (decryptedDetails _ _ _ _ _ _) as [details console].
  destruct (decryptMembersWithoutRegistrations_loop _ _ _ _ rest) as [members console'].
  cbn in *. rewrite IHid, IHdetails. split; reflexivity.
Qed.

(** The payloads of a batch with one corrupted envelope, at [i]. *)
Lemma payloads_one_corrupted {A} keyPair (id : A -> string)
    (encrypted : A -> option DOMString) (data : list A) (i : nat) :
  (forall j member,
     data !! j = Some member ->
     if decide (j = i) then corrupted keyPair (encrypted member)
     else wellFormed keyPair (encrypted member)) ->
  forall j x,
    ((fun member =>
        fst (decryptedDetails crypto_box_seal_open JSON_parse decodeVersionBox
               keyPair (id member) (encrypted member))) <$> data) !! j = Some x ->
    is_Some x <-> j <> i.
Proof.
  intros Hdata j x Hj. rewrite list_lookup_fmap in Hj.
  destruct (data !! j) as [member|] eqn:Hmember; [| discriminate].
  injection Hj as <-. specialize (Hdata j member Hmember).
  destruct (decide (j = i)) as [->|Hne].
  - rewrite (decryptedDetails_corrupted _ _ _ Hdata).
    split; [intros [d Hd]; discriminate | congruence].
  - split; [intros _; exact Hne |].
    intros _. apply decryptedDetails_wellFormed. exact Hdata.
Qed.

(** C3. With the key pair of the organization at hand, a batch whose
    envelope at [i] is corrupted and whose other envelopes are well-formed
    is materialised whole: one member per input, in input order, the
    payload absent at [i] and present everywhere else. So of N + 1 members
    N have a payload and 1 has none. This holds for [decryptMembers] and
    for [decryptMembersWithoutRegistrations]. *)
Theorem decryptMembers_one_corrupted organization keychainItem keyPair :
  Keychain_getItem (Organization.publicKey organization) = Some keychainItem ->
  decryptKeychainItem keychainItem = inr keyPair ->
  (forall (data : list EncryptedMemberWithRegistrations.t) (i : nat),
     (i < length data)%nat ->
     (forall j member,
        data !! j = Some member ->
        if decide (j = i)
        then corrupted keyPair
               (EncryptedMemberWithRegistrations.encryptedForOrganization member)
        else wellFormed keyPair
               (EncryptedMemberWithRegistrations.encryptedForOrganization member)) ->
     exists members,
       fst (decryptMembers crypto_box_seal_open JSON_parse decodeVersionBox
              Keychain_getItem decryptKeychainItem organization data) = inr members /\
       length members = length data /\
       MemberWithRegistrations.id <$> members =
         EncryptedMemberWithRegistrations.id <$> data /\
       (forall j member,
          members !! j = Some member ->
          is_Some (MemberWithRegistrations.details member) <-> j <> i) /\
       length (filter is_Some (MemberWithRegistrations.details <$> members)) =
         (length data - 1)%nat /\
       length (filter (fun x => x = None) (MemberWithRegistrations.details <$> members)) =
         1%nat) /\
  (forall (data : list EncryptedMember.t) (i : nat),
     (i < length data)%nat ->
     (forall j member,
        data !! j = Some member ->
        if decide (j = i)
        then corrupted keyPair (EncryptedMember.encryptedForOrganization member)
        else wellFormed keyPair (EncryptedMember.encryptedForOrganization member)) ->
     exists members,
       fst (decryptMembersWithoutRegistrations crypto_box_seal_open JSON_parse
              decodeVersionBox Keychain_getItem decryptKeychainItem organization data)
         = inr members /\
       length members = length data /\
       Member.id <$> members = EncryptedMember.id <$> data /\
       (forall j member,
          members !! j = Some member ->
          is_Some (Member.details member) <-> j <> i) /\
       length (filter is_Some (Member.details <$> members)) = (length data - 1)%nat /\
       length (filter (fun x => x = None) (Member.details <$> members)) = 1%nat).
Proof.
  intros Hitem Hkeys. split.
  - intros data i Hi Hdata.
    unfold decryptMembers. rewrite Hitem, Hkeys.
    destruct (decryptMembers_loop_each keyPair (Organization.groups organization) data)
      as [Hid Hdetails].
    destruct (decryptMembers_loop _ _ _ _ _ data) as [members console].
    cbn [fst] in *. exists members. split; [reflexivity |].
    assert (length members = length data) as Hlength.
    { rewrite <- (length_fmap MemberWithRegistrations.id members), Hid.
      apply length_fmap. }
    pose proof (payloads_one_corrupted keyPair EncryptedMemberWithRegistrations.id
                  EncryptedMemberWithRegistrations.encryptedForOrganization
                  data i Hdata) as Hpayloads.
    rewrite <- Hdetails in Hpayloads.
    split; [exact Hlength |]. split; [exact Hid |]. split.
    + intros j member Hj. apply (Hpayloads j).
      rewrite list_lookup_fmap, Hj. reflexivity.
    + rewrite <- Hlength, <- (length_fmap MemberWithRegistrations.details members).
      apply (one_absent _ i); [rewrite length_fmap; lia | exact Hpayloads].
  - intros data i Hi Hdata.
    unfold decryptMembersWithoutRegistrations. rewrite Hitem, Hkeys.
    destruct (decryptMembersWithoutRegistrations_loop_each keyPair data)
      as [Hid Hdetails].
    destruct (decryptMembersWithoutRegistrations_loop _ _ _ _ data)
      as [members console].
    cbn [fst] in *. exists members. split; [reflexivity |].
    assert (length members = length data) as Hlength.
    { rewrite <- (length_fmap Member.id members), Hid. apply length_fmap. }
    pose proof (payloads_one_corrupted keyPair EncryptedMember.id
                  EncryptedMember.encryptedForOrganization data i Hdata) as Hpayloads.
    rewrite <- Hdetails in Hpayloads.
    split; [exact Hlength |]. split; [exact Hid |]. split.
    + intros j member Hj. apply (Hpayloads j).
      rewrite list_lookup_fmap, Hj. reflexivity.
    + rewrite <- Hlength, <- (length_fmap Member.details members).
      apply (one_absent _ i); [rewrite length_fmap; lia | exact Hpayloads].
Qed.

End Materialize.

Lemma sampleBatch_one_corrupted j member :
  sampleBatch !! j = Some member ->
  if decide (j = 1%nat)
  then corruptedEnvelope plainBox_open bracesOnly inr (KeyPair.create [] [])
         (EncryptedMemberWithRegistrations.encryptedForOrganization member)
  else wellFormedEnvelope plainBox_open bracesOnly inr (KeyPair.create [] [])
         (EncryptedMemberWithRegistrations.encryptedForOrganization member).
Proof.
  destruct j as [|[|[|j]]]; intros [= <-].
  - exists [101; 51; 48; 61], [123; 125]. repeat split. discriminate.
  - exists [101; 65; 61; 61], (JsError "SyntaxError"). repeat split. discriminate.
  - exists [101; 51; 48; 61], [123; 125]. repeat split. discriminate.
Defined.

Lemma decryptMembers_one_corrupted_witness :
  exists members,
    fst (decryptMembers plainBox_open bracesOnly inr oneKey inr
           sampleOrganization sampleBatch) = inr members /\
    MemberWithRegistrations.id <$> members = ["member-0"; "member-1"; "member-2"] /\
    length (filter is_Some (MemberWithRegistrations.details <$> members)) = 2%nat /\
    length (filter (fun x => x = None) (MemberWithRegistrations.details <$> members)) =
      1%nat.
Proof.
  destruct (decryptMembers_one_corrupted DOMString DOMString KeyPair.t
              plainBox_open bracesOnly inr oneKey inr
              sampleOrganization (KeyPair.create [] []) (KeyPair.create [] [])
              eq_refl eq_refl) as [Hbatch _].
  destruct (Hbatch sampleBatch 1%nat ltac:(cbn; lia) sampleBatch_one_corrupted)
    as (members & Hmembers & _ & Hid & _ & Hpresent & Habsent).
  exists members. repeat split; assumption.
Defined.

(** ** The local store *)

(** X1. [getDatabase] opens the database at most once: whatever the first
    call settles with, a database or the rejection [not_supported], every
    later call settles with the same and leaves the manager as it is, also
    when the browser's IndexedDB has changed in between. A failed open is
    never tried again. *)
Theorem getDatabase_opens_once st idb :
  getDatabase (set_indexedDB idb (snd (getDatabase st))) =
  (fst (getDatabase st), set_indexedDB idb (snd (getDatabase st))).
Proof.
  destruct (getDatabase st) as [o st1] eqn:Hget. cbn [fst snd].
  revert Hget. unfold getDatabase.
  destruct (database st) as [db|] eqn:Hdb.
  { intros [= <- <-]. cbn. rewrite Hdb. reflexivity. }
  destruct (databasePromise st) as [e|] eqn:Hpromise.
  { intros [= <- <-]. cbn. rewrite Hdb, Hpromise. reflexivity. }
  destruct (indexedDB_open (indexedDB st) Version) as [db|];
    intros [= <- <-]; cbn; [reflexivity |].
  rewrite Hdb. reflexivity.
Qed.

Lemma last_cons_default {A} (x : A) l : last (x :: l) = Some (default x (last l)).
Proof.
  revert x. induction l as [|y l IH]; intros x; [reflexivity |].
  change (last (x :: y :: l)) with (last (y :: l)). rewrite IH. reflexivity.
Qed.

Lemma lookup_foldl_insert {V} (key : V -> string) (values : list V)
    (m : gmap string V) (k : string) :
  foldl (fun m v => <[key v := v]> m) m values !! k =
  match lastPut key values k with Some v => Some v | None => m !! k end.
Proof.
  unfold lastPut. revert m. induction values as [|v values IH]; intros m; [reflexivity |].
  cbn [foldl]. rewrite IH.
  destruct (decide (key v = k)) as [Hk|Hk].
  - rewrite filter_cons_True by exact Hk. rewrite last_cons_default.
    destruct (last (filter _ values)); cbn [default]; [reflexivity |].
    rewrite <- Hk. rewrite lookup_insert_eq. reflexivity.
  - rewrite filter_cons_False by exact Hk.
    destruct (last (filter _ values)); [reflexivity |].
    apply lookup_insert_ne. exact Hk.
Qed.

Lemma lastPut_None {V} (key : V -> string) (values : list V) (k : string) :
  lastPut key values k = None <-> k ∉ (key <$> values).
Proof.
  unfold lastPut. rewrite last_None. split.
  - intros Hnil Hin. apply list_elem_of_fmap in Hin as (v & -> & Hv).
    assert (v ∈ filter (fun v0 => key v0 = key v) values) as Hf
      by (apply list_elem_of_filter; auto).
    rewrite Hnil in Hf. inversion Hf.
  - intros Hnin. destruct (filter _ values) as [|v l] eqn:Hf; [reflexivity |].
    exfalso. apply Hnin.
    assert (v ∈ filter (fun v0 => key v0 = k) values) as Hv by (rewrite Hf; left).
    apply list_elem_of_filter in Hv as [<- Hv]. apply list_elem_of_fmap_2. exact Hv.
Qed.

Lemma lastPut_Some {V} (key : V -> string) (values : list V) (k : string) v :
  lastPut key values k = Some v -> v ∈ values /\ key v = k.
Proof.
  unfold lastPut. intros Hlast.
  assert (v ∈ filter (fun v0 => key v0 = k) values) as Hv.
  { apply last_Some in Hlast as [l ->]. apply elem_of_app. right. left. }
  apply list_elem_of_filter in Hv as [Hk Hv]. auto.
Qed.

Lemma put_order (O : ObjectStore Order.t) o :
  keyPath O = Some "id" ->
  put o None O = inr (Build_ObjectStore (Some "id") (<[Order.id o := o]> (records O))).
Proof. intros HO. unfold put. rewrite HO. reflexivity. Qed.

Lemma putAll_orders orders (O : ObjectStore Order.t) :
  keyPath O = Some "id" ->
  putAll orders O = (None, Build_ObjectStore (Some "id") (putOrders (records O) orders)).
Proof.
  revert O. induction orders as [|o orders IH]; intros O HO.
  - destruct O as [kp m]. cbn in *. subst kp. reflexivity.
  - cbn [putAll]. rewrite (put_order O o HO). rewrite IH; reflexivity.
Qed.

Lemma storeOrders_open orders st db O :
  database st = Some db -> db_orders db = Some O -> keyPath O = Some "id" ->
  storeOrders orders st =
  (Resolved tt,
   set_database
     (Some (set_orders (Some (Build_ObjectStore (Some "id") (putOrders (records O) orders)))
              db))
     (emit (Transaction ["orders"] true) st)).
Proof.
  intros Hdb HO Hkey.
  unfold storeOrders, bind, transaction_objectStore, commit, modify, settle, ret.
  rewrite (transaction_run _ _ _ _ _ (getDatabase_open _ _ Hdb)).
  2:{ cbn. rewrite (hasStore_orders _ _ HO). reflexivity. }
  rewrite HO, (putAll_orders orders O Hkey). cbn. rewrite Hdb. reflexivity.
Qed.

Lemma getOrderFromDatabase_open id st db O :
  database st = Some db -> db_orders db = Some O ->
  getOrderFromDatabase id st =
  (Resolved (records O !! id), emit (Transaction ["orders"] false) st).
Proof.
  intros Hdb HO. unfold getOrderFromDatabase, bind, transaction_objectStore, ret.
  rewrite (transaction_run _ _ _ _ _ (getDatabase_open _ _ Hdb)).
  2:{ cbn. rewrite (hasStore_orders _ _ HO). reflexivity. }
  rewrite HO. reflexivity.
Qed.

Lemma getOrdersFromDatabase_open st db O :
  database st = Some db -> db_orders db = Some O ->
  getOrdersFromDatabase st =
  (Resolved (getAll O), emit (Transaction ["orders"] false) st).
Proof.
  intros Hdb HO. unfold getOrdersFromDatabase, bind, transaction_objectStore, ret.
  rewrite (transaction_run _ _ _ _ _ (getDatabase_open _ _ Hdb)).
  2:{ cbn. rewrite (hasStore_orders _ _ HO). reflexivity. }
  rewrite HO. reflexivity.
Qed.

Lemma elem_of_getAll {V} (s : ObjectStore V) v :
  v ∈ getAll s <-> exists k, records s !! k = Some v.
Proof.
  unfold getAll. rewrite list_elem_of_fmap. split.
  - intros ([k w] & -> & Hin). exists k. apply elem_of_map_to_list in Hin. exact Hin.
  - intros [k Hk]. exists (k, v). split; [reflexivity |].
    apply elem_of_map_to_list. exact Hk.
Qed.

(** X2. On an open database with the schema of [getDatabase],
    [storeSettingKey] resolves, [readSettingKey] then returns the value
    under the key that was written, and every other key reads as it did
    before. *)
Theorem storeSettingKey_readSettingKey st db key v :
  database st = Some db -> hasSchema db ->
  let st1 := snd (storeSettingKey key v st) in
  fst (storeSettingKey key v st) = Resolved tt /\
  fst (readSettingKey key st1) = Resolved (Some v) /\
  forall key', key' <> key ->
    fst (readSettingKey key' st1) = fst (readSettingKey key' st).
Proof.
  intros Hdb Hschema.
  destruct (hasSchema_stores db Hschema)
    as (O & T & P & S & HO & HT & HP & HS & HkO & HkT & HkP & HkS).
  rewrite (storeSettingKey_open key v st db S Hdb HS HkS). cbn [fst snd].
  split; [reflexivity |]. split.
  - erewrite readSettingKey_open; [| reflexivity | reflexivity].
    cbn. f_equal. apply lookup_insert_eq.
  - intros key' Hne.
    erewrite readSettingKey_open; [| reflexivity | reflexivity].
    rewrite (readSettingKey_open key' st db S Hdb HS).
    cbn. f_equal. apply lookup_insert_ne. congruence.
Qed.

Lemma storeSettingKey_readSettingKey_witness :
  fst (storeSettingKey "lastFetchedTicket" (Cursor.create 2000 None (Some "id-2"))
         sampleManager) = Resolved tt /\
  fst (readSettingKey "lastFetchedTicket"
         (snd (storeSettingKey "lastFetchedTicket"
                 (Cursor.create 2000 None (Some "id-2")) sampleManager))) =
    Resolved (Some (Cursor.create 2000 None (Some "id-2"))) /\
  forall key', key' <> "lastFetchedTicket" ->
    fst (readSettingKey key'
           (snd (storeSettingKey "lastFetchedTicket"
                   (Cursor.create 2000 None (Some "id-2")) sampleManager))) =
    fst (readSettingKey key' sampleManager).
Proof.
  exact (storeSettingKey_readSettingKey sampleManager sampleDatabase "lastFetchedTicket"
           (Cursor.create 2000 None (Some "id-2")) eq_refl hasSchema_sampleDatabase).
Defined.

(** X3. On an open database with the schema of [getDatabase],
    [storeOrders] resolves, and [getOrderFromDatabase] then returns, for
    an id of the batch, the last order of the batch with that id, and for
    any other id what it returned before. *)
Theorem storeOrders_getOrderFromDatabase st db orders :
  database st = Some db -> hasSchema db ->
  let st1 := snd (storeOrders orders st) in
  fst (storeOrders orders st) = Resolved tt /\
  forall id,
    fst (getOrderFromDatabase id st1) =
    (match last (filter (fun order => Order.id order = id) orders) with
     | Some order => Resolved (Some order)
     | None => fst (getOrderFromDatabase id st)
     end).
Proof.
  intros Hdb Hschema.
  destruct (hasSchema_stores db Hschema)
    as (O & T & P & S & HO & HT & HP & HS & HkO & HkT & HkP & HkS).
  rewrite (storeOrders_open orders st db O Hdb HO HkO). cbn [fst snd].
  split; [reflexivity |]. intros id.
  erewrite getOrderFromDatabase_open; [| reflexivity | reflexivity].
  rewrite (getOrderFromDatabase_open id st db O Hdb HO).
  cbn. unfold putOrders. rewrite (lookup_foldl_insert Order.id).
  unfold lastPut. destruct (last _); reflexivity.
Qed.

Lemma storeOrders_getOrderFromDatabase_witness :
  fst (storeOrders [Order.create "2" (Some 8) 2000 "{}"] sampleManager) = Resolved tt /\
  fst (getOrderFromDatabase "2"
         (snd (storeOrders [Order.create "2" (Some 8) 2000 "{}"] sampleManager))) =
    Resolved (Some (Order.create "2" (Some 8) 2000 "{}")) /\
  fst (getOrderFromDatabase "1"
         (snd (storeOrders [Order.create "2" (Some 8) 2000 "{}"] sampleManager))) =
    Resolved (Some sampleOrder).
Proof.
  destruct (storeOrders_getOrderFromDatabase sampleManager sampleDatabase
              [Order.create "2" (Some 8) 2000 "{}"] eq_refl hasSchema_sampleDatabase)
    as [Hstored Hread].
  split; [exact Hstored |]. split; [exact (Hread "2") | exact (Hread "1")].
Defined.

(** X4. After [storeOrders] on an open database with the schema of
    [getDatabase], [getOrdersFromDatabase] lists exactly: for each id of
    the batch the last order of the batch with that id, and the orders
    that were stored before under the ids the batch does not have. *)
Theorem getOrdersFromDatabase_after_storeOrders st db orders :
  database st = Some db -> hasSchema db ->
  exists all,
    fst (getOrdersFromDatabase (snd (storeOrders orders st))) = Resolved all /\
    forall order,
      order ∈ all <->
      last (filter (fun o => Order.id o = Order.id order) orders) = Some order \/
      exists id, (id ∉ (Order.id <$> orders)) /\
                 fst (getOrderFromDatabase id st) = Resolved (Some order).
Proof.
  intros Hdb Hschema.
  destruct (hasSchema_stores db Hschema)
    as (O & T & P & S & HO & HT & HP & HS & HkO & HkT & HkP & HkS).
  rewrite (storeOrders_open orders st db O Hdb HO HkO). cbn [snd].
  eexists. erewrite getOrdersFromDatabase_open; [| reflexivity | reflexivity].
  split; [reflexivity |]. intros order.
  rewrite elem_of_getAll. cbn [records]. unfold putOrders. split.
  - intros [k Hk]. rewrite (lookup_foldl_insert Order.id) in Hk.
    destruct (lastPut Order.id orders k) as [o|] eqn:Hlast.
    + injection Hk as ->. destruct (lastPut_Some _ _ _ _ Hlast) as [_ <-].
      left. exact Hlast.
    + right. exists k. split; [apply lastPut_None; exact Hlast |].
      rewrite (getOrderFromDatabase_open k st db O Hdb HO). cbn. congruence.
  - intros [Hlast | (id & Hnin & Hread)].
    + exists (Order.id order). rewrite (lookup_foldl_insert Order.id).
      unfold lastPut. rewrite Hlast. reflexivity.
    + exists id. rewrite (lookup_foldl_insert Order.id).
      apply lastPut_None in Hnin. rewrite Hnin.
      rewrite (getOrderFromDatabase_open id st db O Hdb HO) in Hread.
      cbn in Hread. congruence.
Qed.

Lemma getOrdersFromDatabase_after_storeOrders_witness :
  exists all,
    fst (getOrdersFromDatabase
           (snd (storeOrders [Order.create "2" (Some 8) 2000 "{}"] sampleManager))) =
      Resolved all /\
    forall order,
      order ∈ all <->
      last (filter (fun o => Order.id o = Order.id order)
              [Order.create "2" (Some 8) 2000 "{}"]) = Some order \/
      exists id, (id ∉ (Order.id <$> [Order.create "2" (Some 8) 2000 "{}"])) /\
                 fst (getOrderFromDatabase id sampleManager) = Resolved (Some order).
Proof.
  exact (getOrdersFromDatabase_after_storeOrders sampleManager sampleDatabase
           [Order.create "2" (Some 8) 2000 "{}"] eq_refl hasSchema_sampleDatabase).
Defined.

Lemma storeTickets_loop_run tickets clearPatches (T : ObjectStore TicketPrivate.t)
    (P : ObjectStore TicketPatch.t) :
  keyPath T = Some "secret" ->
  storeTickets_loop tickets clearPatches T P =
  (None, (Build_ObjectStore (Some "secret") (putTickets (records T) tickets),
          Build_ObjectStore (keyPath P)
            (if clearPatches then deletePatches (records P) tickets else records P))).
Proof.
  revert T P. induction tickets as [|t tickets IH]; intros T P HT.
  - destruct T as [kt mt], P as [kp mp], clearPatches; cbn in *; subst kt; reflexivity.
  - cbn [storeTickets_loop]. rewrite (put_ticket T t HT). rewrite IH by reflexivity.
    destruct clearPatches; reflexivity.
Qed.

Lemma storeTickets_run tickets clearPatches st db T P :
  database st = Some db -> db_tickets db = Some T -> db_ticketPatches db = Some P ->
  keyPath T = Some "secret" ->
  storeTickets tickets clearPatches st =
  (Resolved tt,
   set_database
     (Some (set_ticketPatches
              (Some (Build_ObjectStore (keyPath P)
                       (if clearPatches then deletePatches (records P) tickets
                        else records P)))
              (set_tickets
                 (Some (Build_ObjectStore (Some "secret") (putTickets (records T) tickets)))
                 db)))
     (emit (Transaction ["tickets"; "ticketPatches"] true) st)).
Proof.
  intros Hdb HT HP Hkey.
  unfold storeTickets, bind, transaction_objectStore, commit, modify, settle, ret.
  rewrite (transaction_run _ _ _ _ _ (getDatabase_open _ _ Hdb)).
  2:{ cbn. rewrite (hasStore_tickets _ _ HT), (hasStore_ticketPatches _ _ HP).
      reflexivity. }
  rewrite HT, HP, (storeTickets_loop_run tickets clearPatches T P Hkey). cbn.
  rewrite Hdb. reflexivity.
Qed.

Lemma getTicketFromDatabase_open secret withPatches st db T P :
  database st = Some db -> db_tickets db = Some T -> db_ticketPatches db = Some P ->
  fst (getTicketFromDatabase secret withPatches st) =
  Resolved (match records T !! secret with
            | None => None
            | Some ticket =>
                Some (match (if withPatches then records P !! secret else None) with
                      | None => ticket
                      | Some p => patch ticket p
                      end)
            end).
Proof.
  intros Hdb HT HP. unfold getTicketFromDatabase, bind at 1.
  rewrite (transaction_run _ _ _ _ _ (getDatabase_open _ _ Hdb)).
  2:{ cbn. rewrite (hasStore_tickets _ _ HT), (hasStore_ticketPatches _ _ HP).
      reflexivity. }
  rewrite HT, HP. cbn. unfold get.
  destruct (records T !! secret) as [ticket|]; [| reflexivity].
  destruct withPatches; [| reflexivity].
  destruct (records P !! secret) as [p|]; reflexivity.
Qed.

(** X5. On an open database with the schema of [getDatabase],
    [storeTickets] resolves. Read without patches, a secret of the batch
    then gives the last ticket of the batch with that secret; when the
    batch was stored with [clearPatches], reading with patches gives that
    same ticket, as the patch queued for the secret is gone. A secret the
    batch does not have reads as before. Without [clearPatches] the patch
    queue is left as it is. *)
Theorem storeTickets_getTicketFromDatabase st db tickets clearPatches :
  database st = Some db -> hasSchema db ->
  let st1 := snd (storeTickets tickets clearPatches st) in
  fst (storeTickets tickets clearPatches st) = Resolved tt /\
  (forall secret ticket,
     last (filter (fun t => TicketPrivate.secret t = secret) tickets) = Some ticket ->
     fst (getTicketFromDatabase secret false st1) = Resolved (Some ticket) /\
     (clearPatches = true ->
      fst (getTicketFromDatabase secret true st1) = Resolved (Some ticket))) /\
  (forall secret withPatches,
     secret ∉ (TicketPrivate.secret <$> tickets) ->
     fst (getTicketFromDatabase secret withPatches st1) =
     fst (getTicketFromDatabase secret withPatches st)) /\
  (clearPatches = false -> queuedPatches st1 = queuedPatches st).
Proof.
  intros Hdb Hschema.
  destruct (hasSchema_stores db Hschema)
    as (O & T & P & S & HO & HT & HP & HS & HkO & HkT & HkP & HkS).
  rewrite (storeTickets_run tickets clearPatches st db T P Hdb HT HP HkT).
  cbn [fst snd]. split; [reflexivity |]. split; [| split].
  - intros secret ticket Hlast.
    assert (putTickets (records T) tickets !! secret = Some ticket) as Hput.
    { unfold putTickets. rewrite (lookup_foldl_insert TicketPrivate.secret).
      unfold lastPut. rewrite Hlast. reflexivity. }
    split.
    + erewrite getTicketFromDatabase_open; [| reflexivity | reflexivity | reflexivity].
      cbn [records]. rewrite Hput. reflexivity.
    + intros ->.
      erewrite getTicketFromDatabase_open; [| reflexivity | reflexivity | reflexivity].
      cbn [records]. rewrite Hput, lookup_deletePatches.
      rewrite decide_True; [reflexivity |].
      destruct (lastPut_Some TicketPrivate.secret tickets secret ticket Hlast)
        as [Hin <-].
      apply list_elem_of_fmap_2. exact Hin.
  - intros secret withPatches Hnin.
    erewrite getTicketFromDatabase_open; [| reflexivity | reflexivity | reflexivity].
    rewrite (getTicketFromDatabase_open secret withPatches st db T P Hdb HT HP).
    cbn [records]. unfold putTickets.
    rewrite (lookup_foldl_insert TicketPrivate.secret).
    rewrite (proj2 (lastPut_None TicketPrivate.secret tickets secret) Hnin).
    destruct clearPatches; [| reflexivity].
    rewrite lookup_deletePatches, decide_False by exact Hnin. reflexivity.
  - intros ->. unfold queuedPatches. cbn. rewrite Hdb, HP. reflexivity.
Qed.

(** The server's copy of [sampleTicket], scanned at 3000, replaces the
    stored one, and the patch queued for it is dropped. *)
Lemma storeTickets_getTicketFromDatabase_witness :
  fst (getTicketFromDatabase "secret-A" true
         (snd (storeTickets
                 [TicketPrivate.create (Some "id-1") "secret-A" 3000 (Some 3000) None]
                 true sampleManager))) =
  Resolved (Some (TicketPrivate.create (Some "id-1") "secret-A" 3000 (Some 3000) None)).
Proof.
  destruct (storeTickets_getTicketFromDatabase sampleManager sampleDatabase
              [TicketPrivate.create (Some "id-1") "secret-A" 3000 (Some 3000) None]
              true eq_refl hasSchema_sampleDatabase) as (_ & Hread & _).
  exact (proj2 (Hread "secret-A" _ eq_refl) eq_refl).
Defined.

(** ** Refreshes *)




Lemma detached_resolved {A} (c : Async A) st : fst (detached c st) = Resolved tt.
Proof. unfold detached. destruct (c st) as [[a|e|] st']; reflexivity. Qed.

Lemma bind_detached {A B} (c : Async A) (k : unit -> Async B) st :
  bind (detached c) k st = k tt (snd (detached c st)).
Proof. unfold bind, detached. destruct (c st) as [[a|e|] st']; reflexivity. Qed.

Lemma guard_restored ev st :
  isLoadingOrders st = false ->
  set_isLoadingOrders false (emit ev (set_isLoadingOrders true st)) = emit ev st.
Proof. destruct st. cbn. intros ->. reflexivity. Qed.

(** *** What a refresh rejects with *)

Lemma rejectsOnly_ret P {A} (a : A) : rejectsOnly P (ret a).
Proof. intros st e H. discriminate H. Qed.

Lemma rejectsOnly_gets P {A} (f : State -> A) : rejectsOnly P (gets f).
Proof. intros st e H. discriminate H. Qed.

Lemma rejectsOnly_modify P f : rejectsOnly P (modify f).
Proof. intros st e H. discriminate H. Qed.

Lemma rejectsOnly_unfinished P {A} : rejectsOnly P (@unfinished A).
Proof. intros st e H. discriminate H. Qed.

Lemma rejectsOnly_bind P {A B} (c : Async A) (k : A -> Async B) :
  rejectsOnly P c -> (forall a, rejectsOnly P (k a)) -> rejectsOnly P (bind c k).
Proof.
  intros Hc Hk st e. unfold bind. pose proof (Hc st) as Hc'.
  destruct (c st) as [[a|e'|] st']; cbn in *.
  - apply Hk.
  - intros [= <-]. apply Hc'. reflexivity.
  - discriminate.
Qed.

Lemma rejectsOnly_detached P {A} (c : Async A) : rejectsOnly P (detached c).
Proof.
  intros st e. unfold detached. destruct (c st) as [[a|e'|] st']; discriminate.
Qed.

Lemma rejectsOnly_tryCatch P {A} (c : Async A) (handler : error -> Async A) :
  (forall e, rejectsOnly P (handler e)) -> rejectsOnly P (tryCatch c handler).
Proof.
  intros Hh st e. unfold tryCatch.
  destruct (c st) as [[a|e'|] st']; try discriminate. apply Hh.
Qed.

Lemma rejectsOnly_tryFinally P {A} (c : Async A) cleanup :
  rejectsOnly P c -> rejectsOnly P (tryFinally c cleanup).
Proof.
  intros Hc st e. unfold tryFinally. pose proof (Hc st) as Hc'.
  destruct (c st) as [[a|e'|] st']; cbn in *; try discriminate.
  intros [= <-]. apply Hc'. reflexivity.
Qed.

Lemma rejectsOnly_request {Q A} ev (server : list Event -> Q -> outcome A) q :
  rejectsOnly (fun e => exists history query, server history query = Rejected e)
    (request ev server q).
Proof. intros st e. unfold request. cbn. intros H. eauto. Qed.

Ltac rejects_step :=
  lazymatch goal with
  | |- rejectsOnly _ (bind _ _) => apply rejectsOnly_bind; [| intros ?]
  | |- rejectsOnly _ (ret _) => apply rejectsOnly_ret
  | |- rejectsOnly _ (gets _) => apply rejectsOnly_gets
  | |- rejectsOnly _ (modify _) => apply rejectsOnly_modify
  | |- rejectsOnly _ unfinished => apply rejectsOnly_unfinished
  | |- rejectsOnly _ (detached _) => apply rejectsOnly_detached
  | |- rejectsOnly _ (tryCatch _ _) => apply rejectsOnly_tryCatch; intros ?
  | |- rejectsOnly _ (tryFinally _ _) => apply rejectsOnly_tryFinally
  | |- rejectsOnly _ (if ?b then _ else _) => destruct b
  end.

Section Refresh.

Variable server_GET_orders :
  list Event -> WebshopOrdersQuery.t ->
  outcome (PaginatedResponse.t Order.t WebshopOrdersQuery.t).
Variable server_GET_tickets :
  list Event -> WebshopTicketsQuery.t ->
  outcome (PaginatedResponse.t TicketPrivate.t WebshopTicketsQuery.t).

Local Abbreviation ordersQuery last :=
  (WebshopOrdersQuery.create
     (whenSet last (fun c => Some (Cursor.updatedAt c))) (whenSet last Cursor.number)).



(** X7. A refresh of the tickets runs once per manager. Whenever
    [fetchNewTickets] passes its guard and settles, resolved or rejected,
    [isLoadingTickets] is left set and [isLoadingOrders] is cleared,
    whatever it was; every later [fetchNewTickets], with any server and
    any arguments, returns at the guard without a request. *)
Theorem fetchNewTickets_runs_once fuel retry reset st :
  isLoadingTickets st = false ->
  finished (fst (fetchNewTickets server_GET_tickets fuel retry reset st)) = true ->
  let st1 := snd (fetchNewTickets server_GET_tickets fuel retry reset st) in
  isLoadingTickets st1 = true /\
  isLoadingOrders st1 = false /\
  forall server fuel' retry' reset',
    fetchNewTickets server fuel' retry' reset' st1 = (Resolved tt, st1).
Proof.
  intros Hloading Hfinished st1.
  destruct (fetchNewTickets_keeps_guard server_GET_tickets fuel retry reset st
              Hloading Hfinished) as [Htickets Horders].
  fold st1 in Htickets, Horders.
  split; [exact Htickets |]. split; [exact Horders |].
  intros server fuel' retry' reset'.
  unfold fetchNewTickets, bind, gets. rewrite Htickets. reflexivity.
Qed.

Lemma rejectsOnly_fetchNewOrders_loop fuel retry query :
  rejectsOnly (fun e => exists history query, server_GET_orders history query = Rejected e)
    (fetchNewOrders_loop server_GET_orders fuel retry query).
Proof.
  revert query. induction fuel as [|fuel IH]; intros [q|]; cbn [fetchNewOrders_loop];
    try (rejects_step; fail).
  rejects_step; [apply rejectsOnly_request |].
  rejects_step; [| apply IH].
  unfold fetchNewOrders_page. repeat rejects_step.
Qed.

Lemma rejectsOnly_fetchNewOrders fuel retry reset :
  rejectsOnly (fun e => exists history query, server_GET_orders history query = Rejected e)
    (fetchNewOrders server_GET_orders fuel retry reset).
Proof.
  unfold fetchNewOrders, fetchNewOrders_try. repeat rejects_step;
    apply rejectsOnly_fetchNewOrders_loop.
Qed.

Lemma rejectsOnly_fetchNewTickets_loop fuel retry query :
  rejectsOnly (fun e => exists history query, server_GET_tickets history query = Rejected e)
    (fetchNewTickets_loop server_GET_tickets fuel retry query).
Proof.
  revert query. induction fuel as [|fuel IH]; intros [q|]; cbn [fetchNewTickets_loop];
    try (rejects_step; fail).
  rejects_step; [apply rejectsOnly_request |].
  rejects_step; [| apply IH].
  unfold fetchNewTickets_page. repeat rejects_step.
Qed.

Lemma rejectsOnly_fetchNewTickets fuel retry reset :
  rejectsOnly (fun e => exists history query, server_GET_tickets history query = Rejected e)
    (fetchNewTickets server_GET_tickets fuel retry reset).
Proof.
  unfold fetchNewTickets, fetchNewTickets_try. repeat rejects_step;
    apply rejectsOnly_fetchNewTickets_loop.
Qed.

(** X8. The local database never makes a refresh fail: in whatever state
    the manager and the browser's IndexedDB are, an error [fetchNewOrders]
    or [fetchNewTickets] rejects with is an error a request to the server
    rejected with. *)
Theorem refresh_rejects_with_server_error fuel retry reset st e :
  (fst (fetchNewOrders server_GET_orders fuel retry reset st) = Rejected e ->
   exists history query, server_GET_orders history query = Rejected e) /\
  (fst (fetchNewTickets server_GET_tickets fuel retry reset st) = Rejected e ->
   exists history query, server_GET_tickets history query = Rejected e).
Proof.
  split.
  - apply (rejectsOnly_fetchNewOrders fuel retry reset st e).
  - apply (rejectsOnly_fetchNewTickets fuel retry reset st e).
Qed.

(** *** The commit of a page, with or without a database *)

Lemma sameLastFetchedOrder_storeSettingKey key v st :
  lastFetchedOrder (snd (storeSettingKey key v st)) = lastFetchedOrder st.
Proof.
  apply (keeps_storeSettingKey sameLastFetchedOrder); unfold sameLastFetchedOrder;
    try reflexivity; congruence.
Qed.

Lemma sameLastFetchedTicket_storeSettingKey key v st :
  lastFetchedTicket (snd (storeSettingKey key v st)) = lastFetchedTicket st.
Proof.
  apply (keeps_storeSettingKey sameLastFetchedTicket); unfold sameLastFetchedTicket;
    try reflexivity; congruence.
Qed.

Lemma lastFetchedOrder_detached_setlastFetchedOrder order st :
  lastFetchedOrder (snd (detached (setlastFetchedOrder order) st)) =
  value (Cursor.create (Order.updatedAt order) (Order.number order) None).
Proof.
  unfold detached, setlastFetchedOrder, bind, modify.
  pose proof (sameLastFetchedOrder_storeSettingKey "lastFetchedOrder"
                (Cursor.create (Order.updatedAt order) (Order.number order) None)
                (set_lastFetchedOrder
                   (value (Cursor.create (Order.updatedAt order) (Order.number order) None))
                   st)) as Hkeep.
  revert Hkeep. destruct (storeSettingKey _ _ _) as [[u|e|] st']; cbn; auto.
Qed.

Lemma lastFetchedTicket_detached_setLastFetchedTicket ticket st :
  lastFetchedTicket (snd (detached (setLastFetchedTicket ticket) st)) =
  value (Cursor.create (TicketPrivate.updatedAt ticket) None (TicketPrivate.id ticket)).
Proof.
  unfold detached, setLastFetchedTicket, bind, modify.
  pose proof (sameLastFetchedTicket_storeSettingKey "lastFetchedTicket"
                (Cursor.create (TicketPrivate.updatedAt ticket) None
                   (TicketPrivate.id ticket))
                (set_lastFetchedTicket
                   (value (Cursor.create (TicketPrivate.updatedAt ticket) None
                             (TicketPrivate.id ticket)))
                   st)) as Hkeep.
  revert Hkeep. destruct (storeSettingKey _ _ _) as [[u|e|] st']; cbn; auto.
Qed.

(** The commit of a non-empty page of orders, whatever the database does. *)
Lemma fetchNewOrders_page_run results order st :
  last results = Some order ->
  exists st2,
    fetchNewOrders_page results st =
      (Resolved tt, emit (SendEvent "fetched" results) st2) /\
    lastFetchedOrder st2 =
      value (Cursor.create (Order.updatedAt order) (Order.number order) None).
Proof.
  intros Hlast. unfold fetchNewOrders_page.
  rewrite (last_nonempty _ _ Hlast), Hlast.
  eexists. split; [rewrite !bind_detached; reflexivity |].
  apply lastFetchedOrder_detached_setlastFetchedOrder.
Qed.

(** X9. The commit of a page moves the cursor in memory whatever becomes
    of the database: after a non-empty page of orders, [lastFetchedOrder]
    is the [updatedAt] and [number] of the last order and the page is the
    latest event sent to the listeners; after a non-empty page of tickets,
    [lastFetchedTicket] is the [updatedAt] and [id] of the last ticket.
    Both commits resolve, also when a write to the database rejects. An
    empty page changes nothing. *)
Theorem page_commit_in_memory st :
  (forall results order,
     last results = Some order ->
     let st1 := snd (fetchNewOrders_page results st) in
     fst (fetchNewOrders_page results st) = Resolved tt /\
     lastFetchedOrder st1 =
       value (Cursor.create (Order.updatedAt order) (Order.number order) None) /\
     head (trace st1) = Some (SendEvent "fetched" results)) /\
  (forall results ticket,
     last results = Some ticket ->
     let st1 := snd (fetchNewTickets_page results st) in
     fst (fetchNewTickets_page results st) = Resolved tt /\
     lastFetchedTicket st1 =
       value (Cursor.create (TicketPrivate.updatedAt ticket) None
                (TicketPrivate.id ticket))) /\
  fetchNewOrders_page [] st = (Resolved tt, st) /\
  fetchNewTickets_page [] st = (Resolved tt, st).
Proof.
  split; [| split; [| split; reflexivity]].
  - intros results order Hlast.
    destruct (fetchNewOrders_page_run results order st Hlast)
      as (st2 & -> & Hcursor). cbn. auto.
  - intros results ticket Hlast. unfold fetchNewTickets_page.
    rewrite (last_nonempty _ _ Hlast), Hlast. cbv zeta.
    rewrite bind_detached.
    split; [apply detached_resolved |].
    apply lastFetchedTicket_detached_setLastFetchedTicket.
Qed.

(** *** The query a refresh of the orders starts with *)

Lemma fetchNewOrders_loop_first fuel retry q st :
  exists later,
    trace (snd (fetchNewOrders_loop server_GET_orders (S fuel) retry (Some q) st)) =
    (later ++ GET_orders q retry :: trace st)%list.
Proof.
  cbn [fetchNewOrders_loop].
  apply (traceExtends_bind (fetchOrders server_GET_orders q retry) _ st).
  intros response. apply keeps_bind; [exact traceExtends_trans | |].
  - apply keeps_fetchNewOrders_page; trace_frame.
  - intros ? st'. apply keeps_fetchNewOrders_loop; trace_frame.
Qed.

Lemma fetchNewOrders_try_memory fuel retry reset st :
  reset = true \/ lastFetchedOrder st <> undefined ->
  fetchNewOrders_try server_GET_orders fuel retry reset st =
  fetchNewOrders_loop server_GET_orders fuel retry
    (Some (if reset then WebshopOrdersQuery.create None None
           else ordersQuery (lastFetchedOrder st))) st.
Proof.
  intros Hmemory. unfold fetchNewOrders_try, bind, gets.
  assert (negb reset && isUndefined (lastFetchedOrder st) = false) as ->.
  { destruct Hmemory as [-> | Hdefined]; [reflexivity |].
    destruct (lastFetchedOrder st); [congruence | |]; apply andb_false_r. }
  reflexivity.
Qed.

Lemma fetchNewOrders_try_stored fuel retry st stored st1 :
  lastFetchedOrder st = undefined ->
  readSettingKey "lastFetchedOrder" st = (Resolved stored, st1) ->
  fetchNewOrders_try server_GET_orders fuel retry false st =
  fetchNewOrders_loop server_GET_orders fuel retry (Some (ordersQuery (orNull stored)))
    (set_lastFetchedOrder (orNull stored) st1).
Proof.
  intros Hundefined Hread.
  unfold fetchNewOrders_try, bind, gets, tryCatch, modify.
  rewrite Hundefined. cbn [negb andb isUndefined]. rewrite Hread. reflexivity.
Qed.

Lemma fetchNewOrders_try_unreadable fuel retry st e st1 :
  lastFetchedOrder st = undefined ->
  readSettingKey "lastFetchedOrder" st = (Rejected e, st1) ->
  fetchNewOrders_try server_GET_orders fuel retry false st =
  fetchNewOrders_loop server_GET_orders fuel retry
    (Some (WebshopOrdersQuery.create None None))
    (set_lastFetchedOrder null (emit (ConsoleError e) st1)).
Proof.
  intros Hundefined Hread.
  unfold fetchNewOrders_try, bind, gets, tryCatch, modify.
  rewrite Hundefined. cbn [negb andb isUndefined]. rewrite Hread. reflexivity.
Qed.

(** X10. The query a refresh of the orders starts with, for a call that
    passes the guard. With [reset] it is the empty query, and the cursor of
    the [settings] collection is not read. Without [reset]: from a cursor
    in memory, its [updatedAt] as [updatedSince] and its [number] as
    [afterNumber]; from [null] the empty query; and when the cursor is
    still undefined [settings] is read first: a stored cursor gives the
    query as above, no stored cursor the empty query, and a read that
    rejects is logged and gives the empty query. *)
Theorem fetchNewOrders_first_query fuel retry st :
  isLoadingOrders st = false ->
  let first reset query before :=
    exists later,
      trace (snd (fetchNewOrders server_GET_orders (S fuel) retry reset st)) =
      (later ++ GET_orders query retry :: before)%list in
  first true (WebshopOrdersQuery.create None None) (trace st) /\
  (forall c, lastFetchedOrder st = value c ->
     first false (WebshopOrdersQuery.create (Some (Cursor.updatedAt c)) (Cursor.number c))
       (trace st)) /\
  (lastFetchedOrder st = null ->
     first false (WebshopOrdersQuery.create None None) (trace st)) /\
  (lastFetchedOrder st = undefined ->
   forall st1,
     (forall c,
        readSettingKey "lastFetchedOrder" (set_isLoadingOrders true st) =
          (Resolved (Some c), st1) ->
        first false
          (WebshopOrdersQuery.create (Some (Cursor.updatedAt c)) (Cursor.number c))
          (trace st1)) /\
     (readSettingKey "lastFetchedOrder" (set_isLoadingOrders true st) =
        (Resolved None, st1) ->
      first false (WebshopOrdersQuery.create None None) (trace st1)) /\
     (forall e,
        readSettingKey "lastFetchedOrder" (set_isLoadingOrders true st) =
          (Rejected e, st1) ->
        first false (WebshopOrdersQuery.create None None)
          (ConsoleError e :: trace st1))).
Proof.
  intros Hloading first. subst first. cbv beta.
  assert (forall reset,
            trace (snd (fetchNewOrders server_GET_orders (S fuel) retry reset st)) =
            trace (snd (fetchNewOrders_try server_GET_orders (S fuel) retry reset
                          (set_isLoadingOrders true st)))) as Hrun.
  { intros reset. rewrite (fetchNewOrders_run _ (S fuel) retry reset st Hloading).
    apply tryFinally_trace. reflexivity. }
  split; [| split; [| split]].
  - rewrite Hrun, fetchNewOrders_try_memory by auto.
    apply (fetchNewOrders_loop_first fuel retry _ (set_isLoadingOrders true st)).
  - intros c Hvalue. rewrite Hrun, fetchNewOrders_try_memory.
    2:{ right. cbn. rewrite Hvalue. discriminate. }
    cbn [lastFetchedOrder set_isLoadingOrders]. rewrite Hvalue.
    apply (fetchNewOrders_loop_first fuel retry _ (set_isLoadingOrders true st)).
  - intros Hnull. rewrite Hrun, fetchNewOrders_try_memory.
    2:{ right. cbn. rewrite Hnull. discriminate. }
    cbn [lastFetchedOrder set_isLoadingOrders]. rewrite Hnull.
    apply (fetchNewOrders_loop_first fuel retry _ (set_isLoadingOrders true st)).
  - intros Hundefined st1. split; [| split].
    + intros c Hread. rewrite Hrun.
      rewrite (fetchNewOrders_try_stored (S fuel) retry (set_isLoadingOrders true st)
                 (Some c) st1 Hundefined Hread).
      apply (fetchNewOrders_loop_first fuel retry _ (set_lastFetchedOrder (value c) st1)).
    + intros Hread. rewrite Hrun.
      rewrite (fetchNewOrders_try_stored (S fuel) retry (set_isLoadingOrders true st)
                 None st1 Hundefined Hread).
      apply (fetchNewOrders_loop_first fuel retry _ (set_lastFetchedOrder null st1)).
    + intros e Hread. rewrite Hrun.
      rewrite (fetchNewOrders_try_unreadable (S fuel) retry (set_isLoadingOrders true st)
                 e st1 Hundefined Hread).
      apply (fetchNewOrders_loop_first fuel retry _
               (set_lastFetchedOrder null (emit (ConsoleError e) st1))).
Qed.

(** *** A request that fails *)

(** X11. A refresh of the orders whose first request rejects, started
    with [reset] or from a cursor in memory, rejects with the error of the
    request and leaves the manager as it was, but for the request in the
    trace: the guard is cleared, nothing is stored and nothing is sent to
    the listeners. *)
Theorem fetchNewOrders_first_request_fails fuel retry reset st e :
  isLoadingOrders st = false ->
  reset = true \/ lastFetchedOrder st <> undefined ->
  let query :=
    if reset then WebshopOrdersQuery.create None None
    else ordersQuery (lastFetchedOrder st) in
  server_GET_orders (trace st) query = Rejected e ->
  fetchNewOrders server_GET_orders (S fuel) retry reset st =
  (Rejected e, emit (GET_orders query retry) st).
Proof.
  intros Hloading Hmemory query Hserver.
  rewrite (fetchNewOrders_run _ (S fuel) retry reset st Hloading).
  unfold tryFinally.
  rewrite (fetchNewOrders_try_memory (S fuel) retry reset (set_isLoadingOrders true st)
             Hmemory).
  cbn [fetchNewOrders_loop]. unfold bind, fetchOrders, request.
  cbn [trace lastFetchedOrder set_isLoadingOrders]. fold query. rewrite Hserver.
  rewrite (guard_restored _ st Hloading). reflexivity.
Qed.

(** X12. A failure on the second page keeps what the first page brought.
    When the first request resolves with a non-empty page and a next
    query, and the request for that query rejects, [fetchNewOrders]
    rejects with that error and clears its guard; the first page has been
    sent to the listeners, and the cursor in memory is that of the last
    order of the first page, so that the next refresh goes on from there. *)
Theorem fetchNewOrders_later_page_fails fuel retry reset st results order query2 e :
  isLoadingOrders st = false ->
  reset = true \/ lastFetchedOrder st <> undefined ->
  let query :=
    if reset then WebshopOrdersQuery.create None None
    else ordersQuery (lastFetchedOrder st) in
  server_GET_orders (trace st) query =
    Resolved (PaginatedResponse.create results (Some query2)) ->
  last results = Some order ->
  (forall history, server_GET_orders history query2 = Rejected e) ->
  let run := fetchNewOrders server_GET_orders (S (S fuel)) retry reset st in
  fst run = Rejected e /\
  isLoadingOrders (snd run) = false /\
  lastFetchedOrder (snd run) =
    value (Cursor.create (Order.updatedAt order) (Order.number order) None) /\
  SendEvent "fetched" results ∈ trace (snd run).
Proof.
  intros Hloading Hmemory query Hserver Hlast Hfails run. subst run.
  destruct (fetchNewOrders_page_run results order
              (emit (GET_orders query retry) (set_isLoadingOrders true st)) Hlast)
    as (st2 & Hpage & Hcursor).
  assert (fetchNewOrders server_GET_orders (S (S fuel)) retry reset st =
          (Rejected e,
           set_isLoadingOrders false
             (emit (GET_orders query2 retry)
                (emit (SendEvent "fetched" results) st2)))) as ->.
  { rewrite (fetchNewOrders_run _ (S (S fuel)) retry reset st Hloading).
    unfold tryFinally.
    rewrite (fetchNewOrders_try_memory (S (S fuel)) retry reset
               (set_isLoadingOrders true st) Hmemory).
    cbn [fetchNewOrders_loop]. unfold bind, fetchOrders, request.
    cbn [trace lastFetchedOrder set_isLoadingOrders]. fold query. rewrite Hserver.
    cbn [PaginatedResponse.results PaginatedResponse.next]. rewrite Hpage.
    rewrite Hfails. reflexivity. }
  cbn. split; [reflexivity |]. split; [reflexivity |]. split; [exact Hcursor |].
  right. left.
Qed.

End Refresh.

Lemma fetchNewTickets_runs_once_witness :
  isLoadingTickets
    (snd (fetchNewTickets (onePage []) 1 false false (newManager freshBrowser))) = true /\
  isLoadingOrders
    (snd (fetchNewTickets (onePage []) 1 false false (newManager freshBrowser))) = false /\
  forall server fuel' retry' reset',
    fetchNewTickets server fuel' retry' reset'
      (snd (fetchNewTickets (onePage []) 1 false false (newManager freshBrowser))) =
    (Resolved tt,
     snd (fetchNewTickets (onePage []) 1 false false (newManager freshBrowser))).
Proof.
  exact (fetchNewTickets_runs_once (onePage []) 1 false false (newManager freshBrowser)
           eq_refl eq_refl).
Defined.

(** Without a database and without a connection, a refresh rejects with
    the error of the connection. *)
Lemma refresh_rejects_with_server_error_witness :
  exists history query,
    @unreachable WebshopOrdersQuery.t
      (PaginatedResponse.t Order.t WebshopOrdersQuery.t) history query =
    Rejected (RequestError "Failed to fetch").
Proof.
  exact (proj1 (refresh_rejects_with_server_error unreachable unreachable
                  1 false false (newManager privateBrowser)
                  (RequestError "Failed to fetch")) eq_refl).
Defined.

Lemma fetchNewOrders_first_query_witness :
  exists later,
    trace (snd (fetchNewOrders (twoPages 1000 sampleOrder) 1 false false
                  (set_lastFetchedOrder (value (Cursor.create 1000 (Some 7) None))
                     sampleManager))) =
    (later ++ [GET_orders (WebshopOrdersQuery.create (Some 1000) (Some 7)) false])%list.
Proof.
  destruct (fetchNewOrders_first_query (twoPages 1000 sampleOrder) O false
              (set_lastFetchedOrder (value (Cursor.create 1000 (Some 7) None))
                 sampleManager) eq_refl) as (_ & Hmemory & _).
  exact (Hmemory (Cursor.create 1000 (Some 7) None) eq_refl).
Defined.

Lemma fetchNewOrders_first_request_fails_witness :
  fetchNewOrders unreachable 1 false true sampleManager =
  (Rejected (RequestError "Failed to fetch"),
   emit (GET_orders (WebshopOrdersQuery.create None None) false) sampleManager).
Proof.
  exact (fetchNewOrders_first_request_fails unreachable O false true sampleManager
           (RequestError "Failed to fetch") eq_refl (or_introl eq_refl) eq_refl).
Defined.

Lemma fetchNewOrders_later_page_fails_witness :
  fst (fetchNewOrders secondPageFails 2 false true sampleManager) =
    Rejected (RequestError "Failed to fetch") /\
  isLoadingOrders (snd (fetchNewOrders secondPageFails 2 false true sampleManager)) =
    false /\
  lastFetchedOrder (snd (fetchNewOrders secondPageFails 2 false true sampleManager)) =
    value (Cursor.create 1000 (Some 7) None) /\
  SendEvent "fetched" [sampleOrder] ∈
    trace (snd (fetchNewOrders secondPageFails 2 false true sampleManager)).
Proof.
  exact (fetchNewOrders_later_page_fails secondPageFails O false true sampleManager
           [sampleOrder] sampleOrder (WebshopOrdersQuery.create (Some 1000) (Some 7))
           (RequestError "Failed to fetch")
           eq_refl (or_introl eq_refl) eq_refl eq_refl (fun _ => eq_refl)).
Defined.

(** ** The page loop on an open database *)

Lemma mirrored_refl st db O S :
  database st = Some db -> db_orders db = Some O -> db_settings db = Some S ->
  mirrored [] st st.
Proof.
  intros Hdb HO HS. exists db, O, S, db, O, S. repeat split; assumption.
Qed.

Lemma mirrored_trans l1 l2 st1 st2 st3 :
  mirrored l1 st1 st2 -> mirrored l2 st2 st3 -> mirrored (l1 ++ l2) st1 st3.
Proof.
  intros (db1 & O1 & S1 & db2 & O2 & S2 & H1 & (Hdb2 & HO2 & HS2) & (HkO & HkS)
          & Hrecords & Hsetting & Hcursor & Hloading)
         (db2' & O2' & S2' & db3 & O3 & S3 & (Hdb2' & HO2' & HS2') & H3 & (HkO' & HkS')
          & Hrecords' & Hsetting' & Hcursor' & Hloading').
  rewrite Hdb2 in Hdb2'. injection Hdb2' as <-.
  rewrite HO2 in HO2'. injection HO2' as <-.
  rewrite HS2 in HS2'. injection HS2' as <-.
  exists db1, O1, S1, db3, O3, S3.
  split; [exact H1 |]. split; [exact H3 |]. split; [split; congruence |].
  rewrite last_app. split; [| split; [| split]].
  - rewrite Hrecords', Hrecords. unfold putOrders. rewrite foldl_app. reflexivity.
  - rewrite Hsetting'. destruct (last l2); [reflexivity | exact Hsetting].
  - rewrite Hcursor'. destruct (last l2); [reflexivity | exact Hcursor].
  - congruence.
Qed.

Lemma fetchNewOrders_page_open results order st db O S :
  database st = Some db -> db_orders db = Some O -> db_settings db = Some S ->
  keyPath O = Some "id" -> keyPath S = None ->
  last results = Some order ->
  let cursor := ordersCursor order in
  let db1 :=
    set_orders (Some (Build_ObjectStore (Some "id") (putOrders (records O) results))) db in
  fetchNewOrders_page results st =
  (Resolved tt,
   emit (SendEvent "fetched" results)
     (set_database
        (Some (set_settings
                 (Some (Build_ObjectStore None
                          (<["lastFetchedOrder" := cursor]> (records S))))
                 db1))
        (emit (Transaction ["settings"] true)
           (set_lastFetchedOrder (value cursor)
              (emit (ConsoleLog "Saved orders to the local database")
                 (set_database (Some db1)
                    (emit (Transaction ["orders"] true) st))))))).
Proof.
  intros Hdb HO HS HkO HkS Hlast cursor db1.
  unfold fetchNewOrders_page. rewrite (last_nonempty _ _ Hlast), Hlast.
  unfold bind at 1. unfold detached at 1. unfold bind at 1.
  rewrite (storeOrders_open results st db O Hdb HO HkO).
  fold db1. cbn [modify fst snd].
  unfold bind at 1. unfold detached at 1. unfold setlastFetchedOrder, bind, modify.
  fold (ordersCursor order). fold cursor.
  erewrite (storeSettingKey_open "lastFetchedOrder" cursor _ db1 S);
    [reflexivity | reflexivity | exact HS | exact HkS].
Qed.

(** The commit of a page to an open database. *)
Lemma fetchNewOrders_page_mirrored results st db :
  database st = Some db -> hasSchema db ->
  exists st',
    fetchNewOrders_page results st = (Resolved tt, st') /\
    mirrored results st st' /\
    List.filter isRequest (trace st') = List.filter isRequest (trace st) /\
    traceExtends st st' /\
    (results <> [] -> SendEvent "fetched" results ∈ trace st') /\
    (exists db', database st' = Some db' /\ hasSchema db').
Proof.
  intros Hdb Hschema.
  destruct (hasSchema_stores db Hschema)
    as (O & T & P & S & HO & HT & HP & HS & HkO & HkT & HkP & HkS).
  destruct (last results) as [order|] eqn:Hlast.
  - rewrite (fetchNewOrders_page_open results order st db O S Hdb HO HS HkO HkS Hlast).
    eexists. split; [reflexivity |]. split; [| split; [| split; [| split]]].
    + eexists db, O, S, _, _, _. cbn.
      split; [auto |]. split; [split; [reflexivity | split; reflexivity] |].
      cbn. rewrite HkO, HkS, Hlast. repeat split. apply lookup_insert_eq.
    + reflexivity.
    + eexists [_; _; _; _]. reflexivity.
    + intros _. left.
    + eexists. split; [reflexivity |].
      destruct Hschema as (_ & Htickets & Hpatches & _).
      split; [reflexivity |]. split; [exact Htickets |].
      split; [exact Hpatches | reflexivity].
  - apply last_None in Hlast. subst results. exists st.
    split; [reflexivity |]. split; [apply (mirrored_refl st db O S); assumption |].
    split; [reflexivity |]. split; [apply traceExtends_refl |].
    split; [congruence |]. eauto.
Qed.

Section Drain.

Variable pages : WebshopOrdersQuery.t -> PaginatedResponse.t Order.t WebshopOrdersQuery.t.

Local Abbreviation answering :=
  (fun (_ : list Event) (q : WebshopOrdersQuery.t) => Resolved (pages q)).
Local Abbreviation fetchedBy queries :=
  (concat ((fun q => PaginatedResponse.results (pages q)) <$> queries)).

Lemma fetchNewOrders_loop_mirrored fuel retry query st db :
  database st = Some db -> hasSchema db ->
  exists st',
    fetchNewOrders_loop answering fuel retry query st =
      (if drained pages fuel query then Resolved tt else Unfinished, st') /\
    mirrored (fetchedBy (visited pages fuel query)) st st' /\
    List.filter isRequest (trace st') =
      (rev ((fun q => GET_orders q retry) <$> visited pages fuel query) ++
       List.filter isRequest (trace st))%list /\
    traceExtends st st' /\
    (forall q, q ∈ visited pages fuel query ->
       PaginatedResponse.results (pages q) <> [] ->
       SendEvent "fetched" (PaginatedResponse.results (pages q)) ∈ trace st').
Proof.
  revert query st db. induction fuel as [|fuel IH]; intros query st db Hdb Hschema.
  - destruct (hasSchema_stores db Hschema)
      as (O & T & P & S & HO & HT & HP & HS & _).
    destruct query as [q|]; cbn; exists st;
      (split; [reflexivity |]); (split; [apply (mirrored_refl st db O S); assumption |]);
      (split; [reflexivity |]); (split; [apply traceExtends_refl |]);
      intros q' Hq'; inversion Hq'.
  - destruct query as [q|].
    2:{ destruct (hasSchema_stores db Hschema)
          as (O & T & P & S & HO & HT & HP & HS & _).
        cbn. exists st.
        split; [reflexivity |]. split; [apply (mirrored_refl st db O S); assumption |].
        split; [reflexivity |]. split; [apply traceExtends_refl |].
        intros q' Hq'. inversion Hq'. }
    cbn [fetchNewOrders_loop visited drained].
    unfold bind at 1, fetchOrders, request. cbn [fst snd].
    destruct (fetchNewOrders_page_mirrored (PaginatedResponse.results (pages q))
                (emit (GET_orders q retry) st) db Hdb Hschema)
      as (st2 & Hpage & Hmirrored & Hrequests & Hextends & Hsent & db2 & Hdb2 & Hschema2).
    unfold bind at 1. rewrite Hpage.
    destruct (IH (PaginatedResponse.next (pages q)) st2 db2 Hdb2 Hschema2)
      as (st' & Hloop & Hmirrored' & Hrequests' & Hextends' & Hsent').
    exists st'. split; [exact Hloop |]. split; [| split; [| split]].
    + rewrite fmap_cons. cbn [concat].
      apply (mirrored_trans _ _ st st2 st'); [exact Hmirrored | exact Hmirrored'].
    + rewrite Hrequests', Hrequests, fmap_cons. cbn [rev trace emit List.filter isRequest].
      rewrite <- app_assoc. reflexivity.
    + apply (traceExtends_trans st st2 st'); [| exact Hextends'].
      apply (traceExtends_trans st (emit (GET_orders q retry) st) st2);
        [apply traceExtends_emit | exact Hextends].
    + intros q' [-> | Hq']%elem_of_cons Hne.
      * destruct Hextends' as [later ->]. apply elem_of_app. right. apply Hsent. exact Hne.
      * apply Hsent'; assumption.
Qed.

(** X13. A refresh of the orders on an open database, started with
    [reset] or from a cursor in memory, against a server that answers the
    query [q] with the page [pages q]. The requests are the start query
    and then the next query of each page, in that order, until a page has
    none: the refresh then resolves; it is still pending when the fuel
    ends first. Every non-empty page is sent to the listeners. Afterwards
    [getOrderFromDatabase] returns, for each id, the last order fetched
    with that id, or what it returned before when none was; and the
    cursor, in memory and in [settings], is that of the last order
    fetched, or unchanged when no order was. *)
Theorem fetchNewOrders_drains fuel retry reset st db :
  isLoadingOrders st = false -> database st = Some db -> hasSchema db ->
  reset = true \/ lastFetchedOrder st <> undefined ->
  let query :=
    if reset then WebshopOrdersQuery.create None None
    else WebshopOrdersQuery.create
           (whenSet (lastFetchedOrder st) (fun c => Some (Cursor.updatedAt c)))
           (whenSet (lastFetchedOrder st) Cursor.number) in
  let queries := visited pages fuel (Some query) in
  let fetched := concat ((fun q => PaginatedResponse.results (pages q)) <$> queries) in
  let run := fetchNewOrders answering fuel retry reset st in
  fst run = (if drained pages fuel (Some query) then Resolved tt else Unfinished) /\
  List.filter isRequest (trace (snd run)) =
    (rev ((fun q => GET_orders q retry) <$> queries) ++
     List.filter isRequest (trace st))%list /\
  (forall q, q ∈ queries -> PaginatedResponse.results (pages q) <> [] ->
     SendEvent "fetched" (PaginatedResponse.results (pages q)) ∈ trace (snd run)) /\
  (forall id,
     fst (getOrderFromDatabase id (snd run)) =
     (match last (filter (fun order => Order.id order = id) fetched) with
      | Some order => Resolved (Some order)
      | None => fst (getOrderFromDatabase id st)
      end)) /\
  (forall order,
     last fetched = Some order ->
     let cursor := Cursor.create (Order.updatedAt order) (Order.number order) None in
     lastFetchedOrder (snd run) = value cursor /\
     fst (readSettingKey "lastFetchedOrder" (snd run)) = Resolved (Some cursor)) /\
  (fetched = [] -> lastFetchedOrder (snd run) = lastFetchedOrder st).
Proof.
  intros Hloading Hdb Hschema Hmemory query queries fetched run.
  destruct (fetchNewOrders_loop_mirrored fuel retry (Some query)
              (set_isLoadingOrders true st) db Hdb Hschema)
    as (st' & Hloop & Hmirrored & Hrequests & _ & Hsent).
  fold queries in Hmirrored, Hrequests, Hsent. fold fetched in Hmirrored.
  assert (exists st'', run = (if drained pages fuel (Some query) then Resolved tt
                             else Unfinished, st'') /\
                       trace st'' = trace st' /\ database st'' = database st' /\
                       lastFetchedOrder st'' = lastFetchedOrder st')
    as (st'' & Hrun & Htrace & Hdatabase & Hlast).
  { unfold run. rewrite (fetchNewOrders_run _ fuel retry reset st Hloading).
    unfold tryFinally.
    rewrite (fetchNewOrders_try_memory _ fuel retry reset (set_isLoadingOrders true st)
               Hmemory).
    cbn [lastFetchedOrder set_isLoadingOrders]. fold query. rewrite Hloop.
    destruct (drained pages fuel (Some query)); eexists; (split; [reflexivity |]); auto. }
  rewrite Hrun. cbn [fst snd]. rewrite Htrace.
  destruct Hmirrored as (db0 & O & S & db' & O' & S' & (Hdb0 & HO & HS)
                         & (Hdb' & HO' & HS') & _ & Hrecords & Hsetting & Hcursor & _).
  cbn in Hdb0. rewrite Hdb in Hdb0. injection Hdb0 as <-.
  rewrite <- Hdatabase in Hdb'. rewrite <- Hlast in Hcursor.
  split; [reflexivity |]. split; [exact Hrequests |]. split; [exact Hsent |].
  split; [| split].
  - intros id. rewrite (getOrderFromDatabase_open id st'' db' O' Hdb' HO').
    rewrite (getOrderFromDatabase_open id st db O Hdb HO). cbn [fst].
    rewrite Hrecords. unfold putOrders. rewrite (lookup_foldl_insert Order.id).
    unfold lastPut. destruct (last (filter _ fetched)); reflexivity.
  - intros order Horder. rewrite Horder in Hcursor, Hsetting.
    unfold ordersCursor in Hcursor, Hsetting.
    split; [exact Hcursor |].
    rewrite (readSettingKey_open "lastFetchedOrder" st'' db' S' Hdb' HS'). cbn [fst].
    rewrite Hsetting. reflexivity.
  - intros Hnone. rewrite Hnone in Hcursor. exact Hcursor.
Qed.

End Drain.

Lemma fetchNewOrders_drains_witness :
  fst (fetchNewOrders (fun _ q => Resolved (samplePages q)) 2 false true sampleManager) =
    Resolved tt /\
  List.filter isRequest
    (trace (snd (fetchNewOrders (fun _ q => Resolved (samplePages q)) 2 false true
                   sampleManager))) =
    [GET_orders (WebshopOrdersQuery.create (Some 1000) (Some 7)) false;
     GET_orders (WebshopOrdersQuery.create None None) false] /\
  lastFetchedOrder
    (snd (fetchNewOrders (fun _ q => Resolved (samplePages q)) 2 false true
            sampleManager)) =
    value (Cursor.create 1000 (Some 7) None).
Proof.
  pose proof (fetchNewOrders_drains samplePages 2 false true sampleManager sampleDatabase
                eq_refl eq_refl hasSchema_sampleDatabase (or_introl eq_refl)) as Hrun.
  cbv zeta in Hrun. destruct Hrun as (Hresolved & Hrequests & _ & _ & Hcursor & _).
  split; [exact Hresolved |]. split; [exact Hrequests |].
  exact (proj1 (Hcursor sampleOrder eq_refl)).
Defined.

(** ** More of the patch queue *)

Lemma getDatabase_rejected st e st1 :
  getDatabase st = (Rejected e, st1) ->
  database st1 = None /\ databasePromise st1 = Some e /\
  List.filter isRequest (trace st1) = List.filter isRequest (trace st) /\
  savingTicketPatches st1 = savingTicketPatches st.
Proof.
  unfold getDatabase. destruct (database st) as [db|] eqn:Hdb; [discriminate |].
  destruct (databasePromise st) as [e0|] eqn:Hpromise.
  { intros [= <- <-]. auto. }
  destruct (indexedDB_open _ _); [discriminate |].
  intros [= <- <-]. cbn. auto.
Qed.

Lemma getTicketPatchesFromDatabase_rejected st e st1 :
  getTicketPatchesFromDatabase st = (Rejected e, st1) ->
  List.filter isRequest (trace st1) = List.filter isRequest (trace st) /\
  savingTicketPatches st1 = savingTicketPatches st.
Proof.
  unfold getTicketPatchesFromDatabase, transaction, bind, modify, throw, ret.
  destruct (getDatabase st) as [[db| e0|] st0] eqn:Hget.
  - destruct (getDatabase_resolved _ _ _ Hget) as (Hdb & Htrace & Hsaving & _).
    destruct (forallb (hasStore db) ["ticketPatches"]).
    + unfold transaction_objectStore.
      destruct (db_ticketPatches db); [discriminate |].
      intros [= <- <-]. cbn. rewrite Htrace. auto.
    + intros [= <- <-]. rewrite Htrace. auto.
  - intros [= <- <-]. destruct (getDatabase_rejected _ _ _ Hget) as (_ & _ & ? & ?). auto.
  - discriminate.
Qed.







Section Queue.

Variable isNetworkError : error -> bool.
Variable server_PATCH_tickets :
  list Event -> list TicketPatch.t -> outcome (list TicketPrivate.t).

Local Abbreviation flush := (trySavePatches isNetworkError server_PATCH_tickets).

(** X14. A flush that cannot read the patch queue never releases its
    guard. When [getTicketPatchesFromDatabase] rejects, as it does in a
    browser that refuses to open the database, [trySavePatches] rejects
    with the same error, sends no request, and leaves
    [savingTicketPatches] set: every later flush returns at the guard. *)
Theorem trySavePatches_unreadable_queue st e :
  savingTicketPatches st = false ->
  fst (getTicketPatchesFromDatabase (set_savingTicketPatches true st)) = Rejected e ->
  let st1 := snd (flush st) in
  fst (flush st) = Rejected e /\
  savingTicketPatches st1 = true /\
  List.filter isRequest (trace st1) = List.filter isRequest (trace st) /\
  forall isNetworkError' server',
    trySavePatches isNetworkError' server' st1 = (Resolved tt, st1).
Proof.
  intros Hsaving Hread.
  destruct (getTicketPatchesFromDatabase (set_savingTicketPatches true st))
    as [o st'] eqn:Hrun.
  cbn in Hread. subst o.
  assert (flush st = (Rejected e, st')) as ->.
  { unfold trySavePatches, bind at 1. rewrite trySavePatches_enter_run, Hsaving.
    unfold bind. rewrite Hrun. reflexivity. }
  destruct (getTicketPatchesFromDatabase_rejected _ _ _ Hrun) as [Htrace Hkept].
  cbn in *. split; [reflexivity |]. split; [exact Hkept |]. split; [exact Htrace |].
  intros isNetworkError' server'. apply trySavePatches_guarded. exact Hkept.
Qed.



Lemma getAll_NoDup_body (P : ObjectStore TicketPatch.t) :
  keyedBySecret (records P) -> NoDup (getAll P).
Proof.
  intros HP. apply (NoDup_fmap_1 TicketPatch.secret). apply getAll_NoDup. exact HP.
Qed.

(** The requests of a flush of a ready queue. *)
Lemma trySavePatches_requests st db T P :
  database st = Some db -> db_tickets db = Some T -> db_ticketPatches db = Some P ->
  keyPath T = Some "secret" ->
  savingTicketPatches st = false ->
  List.filter isRequest (trace (snd (flush st))) =
  ((if decide (getAll P = []) then [] else [PATCH_tickets (getAll P)]) ++
   List.filter isRequest (trace st))%list.
Proof.
  intros Hdb HT HP HkT Hsaving.
  rewrite (trySavePatches_open _ _ st db P Hsaving Hdb HP).
  set (st1 := emit (Transaction ["ticketPatches"] false)
                (set_savingTicketPatches true st)).
  destruct (decide (getAll P = [])) as [Hempty|Hne].
  { rewrite Hempty, trySavePatches_submit_empty. reflexivity. }
  rewrite (trySavePatches_submit_ready _ _ (getAll P) st1 db T P Hdb HT HP HkT Hne).
  destruct (server_PATCH_tickets (trace st1) (getAll P)) as [tickets|e|];
    [| reflexivity | reflexivity].
  rewrite (storeTickets_open tickets (emit (PATCH_tickets (getAll P)) st1) db T P
             Hdb HT HP HkT).
  reflexivity.
Qed.

(** X15. A flush of a queue that is ready sends at most one request: no
    request when the queue is empty, and otherwise one PATCH whose body
    holds every queued patch, each once. *)
Theorem trySavePatches_one_request st :
  queueReady st -> savingTicketPatches st = false ->
  exists body,
    (forall p, p ∈ body <-> queuedPatches st !! TicketPatch.secret p = Some p) /\
    NoDup body /\
    List.filter isRequest (trace (snd (flush st))) =
    ((if decide (body = []) then [] else [PATCH_tickets body]) ++
     List.filter isRequest (trace st))%list.
Proof.
  intros (db & T & P & Hdb & HT & HP & HkT & HkP & Hkeyed) Hsaving.
  exists (getAll P). split; [| split].
  - intros p. unfold queuedPatches. rewrite Hdb, HP.
    apply getAll_elem_of. exact Hkeyed.
  - apply getAll_NoDup_body. exact Hkeyed.
  - apply (trySavePatches_requests st db T P); assumption.
Qed.


(** X16. After a flush the server has answered, the local copy is the
    server's: for each secret of the answer, [getTicketFromDatabase] with
    patches returns the last ticket of the answer with that secret, with
    no local patch applied to it. *)
Theorem trySavePatches_stores_answer st st1 patches tickets :
  queueReady st -> savingTicketPatches st = false ->
  getTicketPatchesFromDatabase (set_savingTicketPatches true st) = (Resolved patches, st1) ->
  patches <> [] ->
  server_PATCH_tickets (trace st1) patches = Resolved tickets ->
  forall secret ticket,
    last (filter (fun t => TicketPrivate.secret t = secret) tickets) = Some ticket ->
    fst (getTicketFromDatabase secret true (snd (flush st))) = Resolved (Some ticket).
Proof.
  intros (db & T & P & Hdb & HT & HP & HkT & HkP & Hkeyed) Hsaving Hread Hne Hserver
    secret ticket Hlast.
  rewrite (trySavePatches_run _ _ st patches st1 Hsaving Hread).
  rewrite (getTicketPatchesFromDatabase_open (set_savingTicketPatches true st) db P
             Hdb HP) in Hread.
  injection Hread as <- <-.
  set (st1 := emit (Transaction ["ticketPatches"] false)
                (set_savingTicketPatches true st)) in *.
  rewrite (trySavePatches_submit_ready _ _ (getAll P) st1 db T P Hdb HT HP HkT Hne).
  rewrite Hserver.
  rewrite (storeTickets_open tickets (emit (PATCH_tickets (getAll P)) st1) db T P
             Hdb HT HP HkT).
  cbn [snd].
  erewrite getTicketFromDatabase_open; [| reflexivity | reflexivity | reflexivity].
  cbn [records]. unfold putTickets.
  rewrite (lookup_foldl_insert TicketPrivate.secret). unfold lastPut. rewrite Hlast.
  rewrite lookup_deletePatches, decide_True; [reflexivity |].
  destruct (lastPut_Some TicketPrivate.secret tickets secret ticket Hlast) as [Hin <-].
  apply list_elem_of_fmap_2. exact Hin.
Qed.

(** A call of [addTicketPatch] on an open database. *)
Lemma addTicketPatch_open p st db P :
  database st = Some db -> db_ticketPatches db = Some P -> keyPath P = Some "secret" ->
  addTicketPatch p st =
  trySavePatches_enter
    (set_database
       (Some (set_ticketPatches
                (Some (Build_ObjectStore (Some "secret") (putPatches (records P) [p])))
                db))
       (emit (Transaction ["ticketPatches"] true) st)).
Proof.
  intros Hdb HP HkP. unfold addTicketPatch, bind.
  rewrite (storeTicketPatches_open [p] st db P Hdb HP HkP). reflexivity.
Qed.

(** The requests and the queue once a flush that was started by
    [addTicketPatch] has gone on to its end. *)
Lemma addTicketPatch_flush_open st db T P :
  database st = Some db -> db_tickets db = Some T -> db_ticketPatches db = Some P ->
  keyPath T = Some "secret" -> getAll P <> [] ->
  let reading := emit (Transaction ["ticketPatches"] false) st in
  let done := snd (addTicketPatch_flush isNetworkError server_PATCH_tickets st) in
  List.filter isRequest (trace done) =
    PATCH_tickets (getAll P) :: List.filter isRequest (trace st) /\
  queuedPatches done =
    match server_PATCH_tickets (trace reading) (getAll P) with
    | Resolved tickets => deletePatches (records P) tickets
    | _ => records P
    end.
Proof.
  intros Hdb HT HP HkT Hne reading done. subst done.
  unfold addTicketPatch_flush, tryCatch, trySavePatches_resume, bind.
  rewrite (getTicketPatchesFromDatabase_open st db P Hdb HP). fold reading.
  rewrite (trySavePatches_submit_ready _ _ (getAll P) reading db T P Hdb HT HP HkT Hne).
  destruct (server_PATCH_tickets (trace reading) (getAll P)) as [tickets|e|].
  - rewrite (storeTickets_open tickets (emit (PATCH_tickets (getAll P)) reading)
               db T P Hdb HT HP HkT).
    split; reflexivity.
  - unfold queuedPatches.
    destruct (isNetworkError e); cbn; rewrite Hdb, HP; split; reflexivity.
  - unfold queuedPatches. cbn. rewrite Hdb, HP. split; reflexivity.
Qed.

(** X17. [addTicketPatch] on a queue that is ready resolves with the
    patch stored, the guard set and no request sent: a flush is in flight,
    the one this call has started or the one that was in progress, and in
    the latter case nothing else has happened. A call that finds the
    manager so starts no other flush. When the flush this call has started
    goes on from there, one PATCH is sent whose body holds the patch, and
    the patch stays queued unless the server answers with a ticket of its
    secret: it stays when the request rejects, with a network error or any
    other, and when the server never answers. *)
Theorem addTicketPatch_keeps_patch st p :
  queueReady st ->
  let run := addTicketPatch p st in
  let stored := snd (storeTicketPatches [p] st) in
  fst run = Resolved (negb (savingTicketPatches st)) /\
  queuedPatches (snd run) !! TicketPatch.secret p = Some p /\
  savingTicketPatches (snd run) = true /\
  List.filter isRequest (trace (snd run)) = List.filter isRequest (trace st) /\
  (savingTicketPatches st = true -> snd run = stored) /\
  (forall p', fst (addTicketPatch p' (snd run)) = Resolved false) /\
  (savingTicketPatches st = false ->
   let reading := emit (Transaction ["ticketPatches"] false) (snd run) in
   let done := snd (addTicketPatch_flush isNetworkError server_PATCH_tickets (snd run)) in
   exists body,
     p ∈ body /\
     List.filter isRequest (trace done) =
       PATCH_tickets body :: List.filter isRequest (trace st) /\
     queuedPatches done !! TicketPatch.secret p =
       match server_PATCH_tickets (trace reading) body with
       | Resolved tickets =>
           if decide (TicketPatch.secret p ∈ TicketPrivate.secret <$> tickets)
           then None else Some p
       | _ => Some p
       end).
Proof.
  intros (db & T & P & Hdb & HT & HP & HkT & HkP & Hkeyed). cbv zeta.
  rewrite (addTicketPatch_open p st db P Hdb HP HkP).
  rewrite (storeTicketPatches_open [p] st db P Hdb HP HkP). cbn [snd].
  set (P' := Build_ObjectStore (Some "secret") (putPatches (records P) [p])).
  set (db' := set_ticketPatches (Some P') db).
  set (stored := set_database (Some db') (emit (Transaction ["ticketPatches"] true) st)).
  assert (keyedBySecret (records P')) as Hkeyed'
    by (apply keyedBySecret_putPatches; exact Hkeyed).
  assert (records P' !! TicketPatch.secret p = Some p) as Hp
    by (cbn; apply lookup_insert_eq).
  rewrite trySavePatches_enter_run.
  change (savingTicketPatches stored) with (savingTicketPatches st).
  assert (forall st1 p',
            database st1 = Some db' -> savingTicketPatches st1 = true ->
            addTicketPatch p' st1 =
            (Resolved false,
             set_database
               (Some (set_ticketPatches
                        (Some (Build_ObjectStore (Some "secret")
                                 (putPatches (records P') [p'])))
                        db'))
               (emit (Transaction ["ticketPatches"] true) st1))) as Hsecond.
  { intros st1 p' Hdb1 Hsaving1.
    rewrite (addTicketPatch_open p' st1 db' P' Hdb1 eq_refl eq_refl).
    rewrite trySavePatches_enter_run. cbn. rewrite Hsaving1. reflexivity. }
  destruct (savingTicketPatches st) eqn:Hsaving; cbn [fst snd negb].
  - split; [reflexivity |]. split; [unfold queuedPatches; cbn; exact Hp |].
    split; [exact Hsaving |]. split; [reflexivity |]. split; [reflexivity |].
    split; [| discriminate].
    intros p'. rewrite (Hsecond stored p' eq_refl Hsaving). reflexivity.
  - set (st1 := set_savingTicketPatches true stored).
    split; [reflexivity |]. split; [unfold queuedPatches; cbn; exact Hp |].
    split; [reflexivity |]. split; [reflexivity |]. split; [discriminate |].
    split; [intros p'; rewrite (Hsecond st1 p' eq_refl eq_refl); reflexivity |].
    intros _. exists (getAll P').
    assert (p ∈ getAll P') as Hin by (apply (getAll_elem_of P' p Hkeyed'); exact Hp).
    assert (getAll P' <> []) as Hne by (intros Hnil; rewrite Hnil in Hin; inversion Hin).
    destruct (addTicketPatch_flush_open st1 db' T P' eq_refl HT eq_refl HkT Hne)
      as [Hrequests Hqueue].
    split; [exact Hin |]. split; [exact Hrequests |].
    rewrite Hqueue.
    destruct (server_PATCH_tickets _ (getAll P')) as [tickets|e|]; try exact Hp.
    rewrite lookup_deletePatches. destruct (decide _); [reflexivity | exact Hp].
Qed.

End Queue.

(** A manager in a browser that opens no database: the flush is stuck. *)
Lemma trySavePatches_unreadable_queue_witness :
  fst (trySavePatches failedToFetch offline (newManager privateBrowser)) =
    Rejected (SimpleError "not_supported") /\
  savingTicketPatches (snd (trySavePatches failedToFetch offline (newManager privateBrowser)))
    = true.
Proof.
  pose proof (trySavePatches_unreadable_queue failedToFetch offline
                (newManager privateBrowser) (SimpleError "not_supported")
                eq_refl eq_refl) as Hstuck.
  cbv zeta in Hstuck. destruct Hstuck as (Hrejected & Hguard & _).
  split; [exact Hrejected | exact Hguard].
Defined.

Lemma trySavePatches_one_request_witness :
  exists body,
    (forall p, p ∈ body <->
               queuedPatches sampleManager !! TicketPatch.secret p = Some p) /\
    NoDup body /\
    List.filter isRequest (trace (snd (trySavePatches failedToFetch offline sampleManager))) =
    ((if decide (body = []) then [] else [PATCH_tickets body]) ++
     List.filter isRequest (trace sampleManager))%list.
Proof.
  exact (trySavePatches_one_request failedToFetch offline sampleManager
           queueReady_sampleManager eq_refl).
Defined.

(** The server scans the ticket of [secret-A]: the local copy is scanned. *)
Lemma trySavePatches_stores_answer_witness :
  fst (getTicketFromDatabase "secret-A" true
         (snd (trySavePatches failedToFetch accepting sampleManager))) =
  Resolved (Some (patch sampleTicket samplePatch)).
Proof.
  apply (trySavePatches_stores_answer failedToFetch accepting sampleManager
           (emit (Transaction ["ticketPatches"] false)
              (set_savingTicketPatches true sampleManager))
           [samplePatch] [patch sampleTicket samplePatch]
           queueReady_sampleManager eq_refl).
  - vm_compute. reflexivity.
  - discriminate.
  - reflexivity.
  - reflexivity.
Defined.

(** A second patch for [secret-A] on a manager with no flush in progress:
    the call resolves with the patch queued and the guard set. *)
Lemma addTicketPatch_keeps_patch_witness :
  let later := TicketPatch.create "secret-A" (Some None) (Some (Some "door 2")) in
  fst (addTicketPatch later sampleManager) = Resolved true /\
  queuedPatches (snd (addTicketPatch later sampleManager)) !! "secret-A" = Some later /\
  savingTicketPatches (snd (addTicketPatch later sampleManager)) = true.
Proof.
  intros later.
  pose proof (addTicketPatch_keeps_patch failedToFetch offline sampleManager later
                queueReady_sampleManager) as Hqueued.
  cbv zeta in Hqueued. destruct Hqueued as (Hresolved & Hstored & Hguard & _).
  split; [exact Hresolved |]. split; [exact Hstored | exact Hguard].
Defined.

(** ** Strings that are not well-formed *)

Lemma utf8Slice_replacement rest :
  utf8Slice (replacement ++ rest) = 0xFFFD :: utf8Slice rest.
Proof. reflexivity. Qed.

Lemma dropPendingLead_cons u v rest :
  dropPendingLead (u :: v :: rest) =
  match rest with
  | [] => if isLead u && isLead v then [u] else [u; v]
  | _ :: _ => u :: dropPendingLead (v :: rest)
  end.
Proof. destruct rest; [| reflexivity]. cbn. destruct (isLead u && isLead v); reflexivity. Qed.

Lemma dropPendingLead_head v rest :
  exists tail, dropPendingLead (v :: rest) = v :: tail.
Proof.
  destruct rest as [|w rest]; [exists []; reflexivity |].
  rewrite dropPendingLead_cons. destruct rest; [| eauto].
  destruct (isLead v && isLead w); eauto.
Qed.

(** What UTF-8 reads of the encoding of any string, from the start and
    from where a lead surrogate is held back. *)
Lemma utf8ToBytes_loop_any (s : DOMString) :
  Forall isCodeUnit s ->
  (utf8Slice (utf8ToBytes_loop None s) = toWellFormed (dropPendingLead s) /\
   Forall isByte (utf8ToBytes_loop None s)) /\
  (forall lead, isLead lead = true ->
   utf8Slice (utf8ToBytes_loop (Some lead) s) =
     match s with
     | [] => []
     | _ :: _ => toWellFormed (dropPendingLead (lead :: s))
     end /\
   Forall isByte (utf8ToBytes_loop (Some lead) s)).
Proof.
  induction s as [|c rest IH]; intros Hs.
  { split; [split; [reflexivity | constructor] |].
    intros lead _. split; [reflexivity | constructor]. }
  apply Forall_cons in Hs as [Hc Hrest].
  destruct (IH Hrest) as [[IHslice IHbytes] IHlead]. clear IH.
  split.
  - cbn [utf8ToBytes_loop]. destruct (isLead c) eqn:Hlead.
    + destruct (lead_tests c Hlead) as (-> & -> & _ & Htrail).
      destruct rest as [|v rest'].
      { split; [cbn; rewrite Hlead; reflexivity | apply replacement_bytes]. }
      destruct (IHlead c Hlead) as [Hslice Hbytes]. split; assumption.
    + destruct (isTrail c) eqn:Htrail.
      * destruct (trail_tests c Htrail) as (-> & -> & _).
        rewrite utf8Slice_replacement, IHslice.
        split; [| apply Forall_app; split; [apply replacement_bytes | exact IHbytes]].
        destruct rest as [|v rest']; [cbn; rewrite Hlead, Htrail; reflexivity |].
        rewrite dropPendingLead_cons.
        destruct (dropPendingLead_head v rest') as [tail Htail].
        destruct rest' as [|w rest''].
        -- rewrite Hlead. cbn [andb toWellFormed]. rewrite Hlead, Htrail. reflexivity.
        -- cbn [toWellFormed]. rewrite Hlead, Htrail. reflexivity.
      * rewrite (bmp_tests c Hlead Htrail). cbn [app].
        rewrite utf8Slice_encodeCodePoint_bmp by assumption. rewrite IHslice.
        split; [| apply Forall_app; split; [| exact IHbytes];
                  apply encodeCodePoint_bytes; unfold isCodeUnit in Hc; lia].
        destruct rest as [|v rest']; [cbn; rewrite Hlead, Htrail; reflexivity |].
        rewrite dropPendingLead_cons.
        destruct rest' as [|w rest''].
        -- rewrite Hlead. cbn [andb toWellFormed]. rewrite Hlead, Htrail. reflexivity.
        -- cbn [toWellFormed]. rewrite Hlead, Htrail. reflexivity.
  - intros lead Hl. cbn [utf8ToBytes_loop].
    destruct (lead_tests lead Hl) as (_ & _ & _ & Hltrail).
    destruct (isLead c) eqn:Hlead.
    + destruct (lead_tests c Hlead) as (-> & _ & -> & Htrail).
      destruct (IHlead c Hlead) as [Hslice Hbytes].
      rewrite utf8Slice_replacement, Hslice.
      split; [| apply Forall_app; split; [apply replacement_bytes | exact Hbytes]].
      rewrite dropPendingLead_cons.
      destruct rest as [|v rest'].
      * rewrite Hl, Hlead. cbn. rewrite Hl. reflexivity.
      * destruct (dropPendingLead_head c (v :: rest')) as [tail Htail].
        rewrite Htail. cbn [toWellFormed]. rewrite Hl, Htrail. reflexivity.
    + destruct (isTrail c) eqn:Htrail.
      * destruct (trail_tests c Htrail) as (-> & _ & -> & _).
        rewrite utf8Slice_encodeCodePoint_pair by assumption. rewrite IHslice.
        split; [| apply Forall_app; split; [apply pair_bytes; assumption | exact IHbytes]].
        rewrite dropPendingLead_cons.
        destruct rest as [|v rest'].
        -- rewrite Hlead, andb_false_r. cbn. rewrite Hl, Htrail. reflexivity.
        -- destruct (dropPendingLead_head c (v :: rest')) as [tail Htail].
           assert (dropPendingLead (c :: v :: rest') = c :: dropPendingLead (v :: rest'))
             as ->.
           { rewrite dropPendingLead_cons. destruct rest'; [| reflexivity].
             rewrite Hlead. reflexivity. }
           cbn [toWellFormed]. rewrite Hl, Htrail. reflexivity.
      * rewrite (bmp_tests c Hlead Htrail).
        rewrite utf8Slice_replacement.
        rewrite utf8Slice_encodeCodePoint_bmp by assumption. rewrite IHslice.
        split; [| apply Forall_app; split; [apply replacement_bytes |];
                  apply Forall_app; split; [| exact IHbytes];
                  apply encodeCodePoint_bytes; unfold isCodeUnit in Hc; lia].
        rewrite dropPendingLead_cons.
        assert (dropPendingLead (c :: rest) = c :: dropPendingLead rest) as Hdrop.
        { destruct rest as [|v rest']; [reflexivity |].
          rewrite dropPendingLead_cons. destruct rest'; [| reflexivity].
          rewrite Hlead. reflexivity. }
        destruct rest as [|v rest'].
        -- rewrite Hlead, andb_false_r. cbn. rewrite Hl, Htrail, Hlead. reflexivity.
        -- rewrite Hdrop. cbn [toWellFormed]. rewrite Hl, Htrail, Hlead. reflexivity.
Qed.

Lemma surrogate_not_replacement u :
  isLead u = true \/ isTrail u = true -> 0xFFFD <> u.
Proof.
  unfold isLead, isTrail.
  intros [H|H]; apply andb_prop in H as [H1 H2]; apply Z.leb_le in H1, H2; lia.
Qed.

Lemma toWellFormed_isWellFormed (s : DOMString) :
  Forall isCodeUnit s -> toWellFormed s = s -> isWellFormed s = true.
Proof.
  assert (forall n (s : DOMString), (length s <= n)%nat -> Forall isCodeUnit s ->
            toWellFormed s = s -> isWellFormed s = true) as Hall.
  2:{ apply (Hall (length s)). lia. }
  clear s. intros n. induction n as [|n IH]; intros s Hlen Hs.
  { destruct s; [reflexivity | cbn in Hlen; lia]. }
  destruct s as [|u rest]; [reflexivity |]. cbn [length] in Hlen.
  apply Forall_cons in Hs as [Hu Hrest].
  cbn [isWellFormed toWellFormed]. destruct (isLead u) eqn:Hlead.
  - destruct rest as [|v rest'].
    { intros [= H]. exfalso. apply (surrogate_not_replacement u); auto. }
    apply Forall_cons in Hrest as [Hv Hrest']. cbn [length] in Hlen.
    destruct (isTrail v) eqn:Htrail.
    + intros [= H]. cbn [andb]. apply (IH rest'); [lia | assumption | assumption].
    + intros [= H _]. exfalso. apply (surrogate_not_replacement u); auto.
  - destruct (isTrail u) eqn:Htrail.
    + intros [= H _]. exfalso. apply (surrogate_not_replacement u); auto.
    + intros [= H]. unfold isCodeUnit in Hu.
      destruct (Z.leb_spec 0 u); [| lia]. destruct (Z.ltb_spec u 0x10000); [| lia].
      cbn [andb negb]. apply (IH rest); [lia | assumption | assumption].
Qed.

Lemma toWellFormed_length (s : DOMString) : length (toWellFormed s) = length s.
Proof.
  assert (forall n (s : DOMString), (length s <= n)%nat ->
            length (toWellFormed s) = length s) as Hall.
  2:{ apply (Hall (length s)). lia. }
  clear s. intros n. induction n as [|n IH]; intros s Hlen.
  { destruct s; [reflexivity | cbn in Hlen; lia]. }
  destruct s as [|u rest]; [reflexivity |]. cbn [length] in Hlen.
  cbn [toWellFormed]. destruct (isLead u).
  - destruct rest as [|v rest']; [reflexivity |]. cbn [length] in Hlen.
    destruct (isTrail v); cbn [length].
    + rewrite (IH rest') by lia. reflexivity.
    + rewrite (IH (v :: rest')) by (cbn [length]; lia). reflexivity.
  - destruct (isTrail u); cbn [length]; rewrite (IH rest) by lia; reflexivity.
Qed.

Lemma dropPendingLead_two_leads prefix u v :
  isLead u = true -> isLead v = true ->
  dropPendingLead (prefix ++ [u; v]) = prefix ++ [u].
Proof.
  intros Hu Hv. induction prefix as [|w prefix IH].
  - cbn. rewrite Hu, Hv. reflexivity.
  - cbn [app]. rewrite <- IH.
    destruct prefix as [|a prefix]; [reflexivity |].
    destruct prefix as [|b prefix]; reflexivity.
Qed.

Lemma dropPendingLead_other (s : DOMString) :
  ~ (exists prefix u v, s = prefix ++ [u; v] /\ isLead u = true /\ isLead v = true) ->
  dropPendingLead s = s.
Proof.
  induction s as [|u rest IH]; intros Hends; [reflexivity |].
  destruct rest as [|v rest]; [reflexivity |].
  rewrite dropPendingLead_cons. destruct rest as [|w rest].
  - destruct (isLead u) eqn:Hu, (isLead v) eqn:Hv; try reflexivity.
    exfalso. apply Hends. exists [], u, v. auto.
  - f_equal. apply IH. intros (prefix & a & b & Hs & Ha & Hb).
    apply Hends. exists (u :: prefix), a, b. rewrite Hs. auto.
Qed.

Lemma dropPendingLead_length (s : DOMString) :
  dropPendingLead s = s \/ (length (dropPendingLead s) < length s)%nat.
Proof.
  induction s as [|u rest IH]; [left; reflexivity |].
  destruct rest as [|v rest]; [left; reflexivity |].
  rewrite dropPendingLead_cons. destruct rest as [|w rest].
  - destruct (isLead u && isLead v); [right; cbn; lia | left; reflexivity].
  - destruct IH as [-> | IH]; [left; reflexivity | right; cbn [length] in *; lia].
Qed.

(** What comes back of a string is the string exactly when the string is
    well-formed. *)
Lemma roundTrip_isWellFormed (s : DOMString) :
  Forall isCodeUnit s ->
  (utf8Slice (utf8ToBytes s) = s <-> isWellFormed s = true).
Proof.
  intros Hs. split; [| apply utf8Slice_utf8ToBytes].
  unfold utf8ToBytes. rewrite (proj1 (proj1 (utf8ToBytes_loop_any s Hs))).
  destruct (dropPendingLead_length s) as [-> | Hshorter].
  - apply toWellFormed_isWellFormed. exact Hs.
  - intros H. apply (f_equal length) in H. rewrite toWellFormed_length in H. lia.
Qed.

Section SealedBoxAny.

Variable crypto_box_seal : Buffer -> Buffer -> Buffer -> error + Buffer.
Variable crypto_box_seal_open : Buffer -> Buffer -> Buffer -> error + Buffer.
Variable keyPair : Buffer -> Buffer -> Prop.
Hypothesis sealed_box :
  forall random message publicKey privateKey,
    keyPair publicKey privateKey -> Forall isByte message ->
    exists sealed,
      crypto_box_seal random message publicKey = inr sealed /\
      Forall isByte sealed /\
      crypto_box_seal_open sealed publicKey privateKey = inr message.

(** X19. What [unsealMessage] returns of a sealed string, for every
    string. It is the string itself exactly when the string is
    well-formed. Of a string that ends with two lead surrogates the last
    one is lost: what comes back is the rest of the string with each lone
    surrogate replaced by U+FFFD. Of any other string it is the string
    with each lone surrogate replaced by U+FFFD, as [toWellFormed] makes
    it. *)
Theorem unsealMessage_sealMessage_toWellFormed random message publicKey privateKey :
  keyPair (Buffer_from_base64 publicKey) (Buffer_from_base64 privateKey) ->
  Forall isCodeUnit message ->
  exists ciphertext opened,
    sealMessage crypto_box_seal random message publicKey = inr ciphertext /\
    unsealMessage crypto_box_seal_open ciphertext publicKey privateKey = inr opened /\
    (opened = message <-> isWellFormed message = true) /\
    (forall prefix u v,
       message = prefix ++ [u; v] -> isLead u = true -> isLead v = true ->
       opened = toWellFormed (prefix ++ [u])) /\
    (~ (exists prefix u v,
          message = prefix ++ [u; v] /\ isLead u = true /\ isLead v = true) ->
     opened = toWellFormed message).
Proof.
  intros Hkeys Hmessage.
  destruct (utf8ToBytes_loop_any message Hmessage) as [[Hslice Hbytes] _].
  destruct (unsealMessage_sealMessage_utf8 crypto_box_seal crypto_box_seal_open
              keyPair sealed_box random message publicKey privateKey Hkeys Hbytes)
    as (ciphertext & Hseal & Hunseal).
  exists ciphertext, (utf8Slice (utf8ToBytes message)).
  split; [exact Hseal |]. split; [exact Hunseal |].
  split; [apply roundTrip_isWellFormed; exact Hmessage |].
  unfold utf8ToBytes. rewrite Hslice. split.
  - intros prefix u v -> Hu Hv. rewrite dropPendingLead_two_leads by assumption.
    reflexivity.
  - intros Hends. rewrite dropPendingLead_other by exact Hends. reflexivity.
Qed.

End SealedBoxAny.


(** ** Authenticated boxes, signatures and key pairs *)

Lemma base64clean_length (str : DOMString) :
  (length (base64clean str) <= length str)%nat.
Proof.
  induction str as [|c rest IH]; [reflexivity |]. cbn [base64clean length].
  destruct (c =? 61); [cbn; lia |]. destruct (decodeChar c); cbn [length]; lia.
Qed.

Lemma toByteArray_length (sextets : list Z) :
  (4 * length (toByteArray sextets) <= 3 * length sextets)%nat.
Proof.
  assert (forall n (l : list Z), (length l <= n)%nat ->
            (4 * length (toByteArray l) <= 3 * length l)%nat) as Hall.
  2:{ apply (Hall (length sextets)). lia. }
  clear sextets. intros n. induction n as [|n IH]; intros l Hlen.
  { destruct l; [cbn; lia | cbn in Hlen; lia]. }
  destruct l as [|s1 [|s2 [|s3 [|s4 rest]]]]; cbn [toByteArray length] in *; try lia.
  specialize (IH rest ltac:(lia)). lia.
Qed.

Lemma Buffer_from_base64_length (str : DOMString) :
  (4 * length (Buffer_from_base64 str) <= 3 * length str)%nat.
Proof.
  unfold Buffer_from_base64.
  pose proof (toByteArray_length (base64clean str)).
  pose proof (base64clean_length str). lia.
Qed.

Section Authenticated.

Variable crypto_box_NONCEBYTES : nat.
Variable randombytes_buf : nat -> Buffer.
Variable crypto_box_easy : Buffer -> Buffer -> Buffer -> Buffer -> error + Buffer.
Variable crypto_box_open_easy : Buffer -> Buffer -> Buffer -> Buffer -> error + Buffer.
Variable keyPair : Buffer -> Buffer -> Prop.

(** X21. [unsealMessageAuthenticated] refuses a text that is too short
    to hold a nonce and a byte more, before libsodium is called: a text of
    fewer than 4 (NONCEBYTES + 1) / 3 characters is rejected with the
    error [ciphertext is too short], whatever the keys. *)
Theorem unsealMessageAuthenticated_too_short concatCyphertext publicKey privateKey :
  (3 * length concatCyphertext < 4 * (crypto_box_NONCEBYTES + 1))%nat ->
  unsealMessageAuthenticated crypto_box_NONCEBYTES crypto_box_open_easy
    concatCyphertext publicKey privateKey =
  inl (JsError "ciphertext is too short").
Proof.
  intros Hshort. unfold unsealMessageAuthenticated.
  pose proof (Buffer_from_base64_length concatCyphertext) as Hlen.
  destruct (Nat.leb_spec (length (Buffer_from_base64 concatCyphertext))
              crypto_box_NONCEBYTES); [reflexivity | lia].
Qed.

(** libsodium's contract: [randombytes_buf n] is [n] bytes; a box made for
    the receiver with the key of the sender is the authenticator followed
    by the encrypted message, and the receiver opens it, with the same
    nonce, to the message. *)
Hypothesis random_bytes :
  forall n, length (randombytes_buf n) = n /\ Forall isByte (randombytes_buf n).
Hypothesis box_easy :
  forall message nonce publicKeyReceiver privateKeyReceiver publicKeySender privateKeySender,
    keyPair publicKeyReceiver privateKeyReceiver ->
    keyPair publicKeySender privateKeySender ->
    length nonce = crypto_box_NONCEBYTES -> Forall isByte message ->
    exists cyphertext,
      crypto_box_easy message nonce publicKeyReceiver privateKeySender = inr cyphertext /\
      Forall isByte cyphertext /\ cyphertext <> [] /\
      crypto_box_open_easy cyphertext nonce publicKeySender privateKeyReceiver =
        inr message.

(** X20. For the key pairs of a sender and of a receiver and every
    message that is well-formed UTF-16, what [sealMessageAuthenticated]
    makes with the public key of the receiver and the private key of the
    sender, [unsealMessageAuthenticated] opens, with the public key of the
    sender and the private key of the receiver, to the message: the nonce
    travels in front of the box. *)
Theorem unsealMessageAuthenticated_sealMessageAuthenticated
    message publicKeyReceiver privateKeyReceiver publicKeySender privateKeySender :
  keyPair (Buffer_from_base64 publicKeyReceiver) (Buffer_from_base64 privateKeyReceiver) ->
  keyPair (Buffer_from_base64 publicKeySender) (Buffer_from_base64 privateKeySender) ->
  isWellFormed message = true ->
  exists concatCyphertext,
    sealMessageAuthenticated crypto_box_NONCEBYTES randombytes_buf crypto_box_easy
      message publicKeyReceiver privateKeySender = inr concatCyphertext /\
    unsealMessageAuthenticated crypto_box_NONCEBYTES crypto_box_open_easy
      concatCyphertext publicKeySender privateKeyReceiver = inr message.
Proof.
  intros Hreceiver Hsender Hwf.
  destruct (random_bytes crypto_box_NONCEBYTES) as [Hlength Hnonce].
  destruct (box_easy (utf8ToBytes message) (randombytes_buf crypto_box_NONCEBYTES)
              _ _ _ _ Hreceiver Hsender Hlength (utf8ToBytes_bytes message Hwf))
    as (cyphertext & Hseal & Hbytes & Hne & Hopen).
  exists (Buffer_toString_base64 (randombytes_buf crypto_box_NONCEBYTES ++ cyphertext)).
  unfold sealMessageAuthenticated, unsealMessageAuthenticated, Buffer_from_utf8.
  rewrite Hseal. cbn [andThen]. split; [reflexivity |].
  rewrite toByteArray_fromByteArray by (apply Forall_app; auto).
  destruct (Nat.leb_spec (length (randombytes_buf crypto_box_NONCEBYTES ++ cyphertext))
              crypto_box_NONCEBYTES) as [Hle|_].
  { rewrite length_app, Hlength in Hle. destruct cyphertext; [congruence |].
    cbn in Hle. lia. }
  rewrite take_app_length', drop_app_length' by (symmetry; exact Hlength).
  rewrite Hopen. cbn [andThen]. unfold Buffer_toString_utf8.
  rewrite (utf8Slice_utf8ToBytes message Hwf). reflexivity.
Qed.

End Authenticated.

Section Signatures.

Variable crypto_sign_detached : DOMString -> Buffer -> error + Buffer.
Variable crypto_sign_verify_detached : Buffer -> DOMString -> Buffer -> error + bool.
Variable signKeyPair : Buffer -> Buffer -> Prop.

(** libsodium's contract: a signature made with the private key of a pair
    of [crypto_sign_keypair] verifies with its public key. *)
Hypothesis sign_detached :
  forall message publicKey privateKey,
    signKeyPair publicKey privateKey ->
    exists signature,
      crypto_sign_detached message privateKey = inr signature /\
      Forall isByte signature /\
      crypto_sign_verify_detached signature message publicKey = inr true.

(** X22. For a key pair of [crypto_sign_keypair] and every message,
    [verifySignature] accepts what [signMessage] signs. *)
Theorem verifySignature_signMessage message publicKey privateKey :
  signKeyPair (Buffer_from_base64 publicKey) (Buffer_from_base64 privateKey) ->
  exists signature,
    signMessage crypto_sign_detached message privateKey = inr signature /\
    verifySignature crypto_sign_verify_detached signature message publicKey = inr true.
Proof.
  intros Hkeys.
  destruct (sign_detached message _ _ Hkeys) as (signature & Hsign & Hbytes & Hverify).
  exists (Buffer_toString_base64 signature). unfold signMessage, verifySignature.
  rewrite Hsign. cbn [andThen]. split; [reflexivity |].
  rewrite (toByteArray_fromByteArray signature Hbytes). exact Hverify.
Qed.

End Signatures.

Section KeyPairs.

Variable crypto_box_keypair : Buffer -> SodiumKeyPair.t.
Variable crypto_box_seal : Buffer -> Buffer -> Buffer -> error + Buffer.
Variable crypto_box_seal_open : Buffer -> Buffer -> Buffer -> error + Buffer.
Variable keyPair : Buffer -> Buffer -> Prop.

(** libsodium's contract: [crypto_box_keypair] makes key pairs, of bytes. *)
Hypothesis box_keypair :
  forall random,
    keyPair (SodiumKeyPair.publicKey (crypto_box_keypair random))
      (SodiumKeyPair.privateKey (crypto_box_keypair random)) /\
    Forall isByte (SodiumKeyPair.publicKey (crypto_box_keypair random)) /\
    Forall isByte (SodiumKeyPair.privateKey (crypto_box_keypair random)).
Hypothesis sealed_box :
  forall random message publicKey privateKey,
    keyPair publicKey privateKey -> Forall isByte message ->
    exists sealed,
      crypto_box_seal random message publicKey = inr sealed /\
      Forall isByte sealed /\
      crypto_box_seal_open sealed publicKey privateKey = inr message.

(** X23. The keys [boxKeyPair] returns are the ones [sealMessage] and
    [unsealMessage] take: what is sealed to the public key opens with the
    pair, for every message that is well-formed UTF-16. *)
Theorem boxKeyPair_opens_sealMessage random random' message :
  isWellFormed message = true ->
  let keys := boxKeyPair crypto_box_keypair random in
  exists ciphertext,
    sealMessage crypto_box_seal random' message (StringKeyPair.publicKey keys) =
      inr ciphertext /\
    unsealMessage crypto_box_seal_open ciphertext
      (StringKeyPair.publicKey keys) (StringKeyPair.privateKey keys) = inr message.
Proof.
  intros Hwf keys. subst keys. unfold boxKeyPair.
  cbn [StringKeyPair.publicKey StringKeyPair.privateKey].
  destruct (box_keypair random) as (Hkeys & Hpublic & Hprivate).
  destruct (unsealMessage_sealMessage_utf8 crypto_box_seal crypto_box_seal_open
              keyPair sealed_box random' message
              (Buffer_toString_base64
                 (SodiumKeyPair.publicKey (crypto_box_keypair random)))
              (Buffer_toString_base64
                 (SodiumKeyPair.privateKey (crypto_box_keypair random))))
    as (ciphertext & Hseal & Hunseal).
  - rewrite !toByteArray_fromByteArray by assumption. exact Hkeys.
  - apply utf8ToBytes_bytes. exact Hwf.
  - exists ciphertext. split; [exact Hseal |].
    rewrite Hunseal, (utf8Slice_utf8ToBytes message Hwf). reflexivity.
Qed.

End KeyPairs.

(** An "h" and two lead surrogates, sealed to the empty key: one U+FFFD
    comes back. *)
Lemma unsealMessage_sealMessage_toWellFormed_witness :
  exists ciphertext,
    sealMessage plainBox_seal [] [104; 0xD800; 0xD800] [] = inr ciphertext /\
    unsealMessage plainBox_open ciphertext [] [] = inr [104; 0xFFFD].
Proof.
  destruct (unsealMessage_sealMessage_toWellFormed plainBox_seal plainBox_open
              plainBox_keyPair plainBox_sealed_box [] [104; 0xD800; 0xD800] [] []
              eq_refl)
    as (ciphertext & opened & Hseal & Hunseal & _ & Hends & _).
  - repeat (constructor; [unfold isCodeUnit; lia |]). constructor.
  - exists ciphertext. split; [exact Hseal |].
    rewrite Hunseal, (Hends [104] 0xD800 0xD800 eq_refl eq_refl eq_refl). reflexivity.
Defined.

Lemma zeros_random_bytes n : length (zeros n) = n /\ Forall isByte (zeros n).
Proof.
  unfold zeros. split; [apply length_replicate |].
  apply Forall_replicate. unfold isByte. lia.
Qed.

Lemma plainBox_box_easy message nonce publicKeyReceiver privateKeyReceiver
    publicKeySender privateKeySender :
  plainBox_keyPair publicKeyReceiver privateKeyReceiver ->
  plainBox_keyPair publicKeySender privateKeySender ->
  length nonce = 24%nat -> Forall isByte message ->
  exists cyphertext,
    plainBox_easy message nonce publicKeyReceiver privateKeySender = inr cyphertext /\
    Forall isByte cyphertext /\ cyphertext <> [] /\
    plainBox_open_easy cyphertext nonce publicKeySender privateKeyReceiver = inr message.
Proof.
  intros _ _ _ Hbytes. exists (0 :: message).
  split; [reflexivity |]. split; [| split; [discriminate | reflexivity]].
  constructor; [unfold isByte; lia | exact Hbytes].
Qed.

(** The message "hi", with nonces of 24 bytes as libsodium has them. *)
Lemma unsealMessageAuthenticated_sealMessageAuthenticated_witness :
  exists concatCyphertext,
    sealMessageAuthenticated 24 zeros plainBox_easy [104; 105] [] [] =
      inr concatCyphertext /\
    unsealMessageAuthenticated 24 plainBox_open_easy concatCyphertext [] [] =
      inr [104; 105].
Proof.
  apply (unsealMessageAuthenticated_sealMessageAuthenticated 24 zeros
           plainBox_easy plainBox_open_easy plainBox_keyPair
           zeros_random_bytes plainBox_box_easy [104; 105] [] [] [] []);
    reflexivity.
Defined.

(** The four characters [AAAA] hold three bytes. *)
Lemma unsealMessageAuthenticated_too_short_witness :
  unsealMessageAuthenticated 24 plainBox_open_easy [65; 65; 65; 65] [] [] =
  inl (JsError "ciphertext is too short").
Proof.
  apply (unsealMessageAuthenticated_too_short 24 plainBox_open_easy [65; 65; 65; 65] [] []).
  cbn. lia.
Defined.

Lemma plainSign_sign_detached message publicKey privateKey :
  plainSign_keyPair publicKey privateKey ->
  exists signature,
    plainSign message privateKey = inr signature /\
    Forall isByte signature /\
    plainVerify signature message publicKey = inr true.
Proof.
  intros [-> Hbytes]. exists privateKey.
  split; [reflexivity |]. split; [exact Hbytes |].
  unfold plainVerify. rewrite bool_decide_eq_true_2; reflexivity.
Qed.

Lemma verifySignature_signMessage_witness :
  exists signature,
    signMessage plainSign [104; 105] [] = inr signature /\
    verifySignature plainVerify signature [104; 105] [] = inr true.
Proof.
  apply (verifySignature_signMessage plainSign plainVerify plainSign_keyPair
           plainSign_sign_detached [104; 105] [] []).
  split; [reflexivity | constructor].
Defined.

Lemma fixedKeyPair_box_keypair random :
  plainBox_keyPair (SodiumKeyPair.publicKey (fixedKeyPair random))
    (SodiumKeyPair.privateKey (fixedKeyPair random)) /\
  Forall isByte (SodiumKeyPair.publicKey (fixedKeyPair random)) /\
  Forall isByte (SodiumKeyPair.privateKey (fixedKeyPair random)).
Proof.
  split; [reflexivity |].
  split; (constructor; [unfold isByte; lia | constructor]).
Qed.

Lemma boxKeyPair_opens_sealMessage_witness :
  exists ciphertext,
    sealMessage plainBox_seal [] [104; 105]
      (StringKeyPair.publicKey (boxKeyPair fixedKeyPair [])) = inr ciphertext /\
    unsealMessage plainBox_open ciphertext
      (StringKeyPair.publicKey (boxKeyPair fixedKeyPair []))
      (StringKeyPair.privateKey (boxKeyPair fixedKeyPair [])) = inr [104; 105].
Proof.
  exact (boxKeyPair_opens_sealMessage fixedKeyPair plainBox_seal plainBox_open
           plainBox_keyPair fixedKeyPair_box_keypair plainBox_sealed_box
           [] [] [104; 105] eq_refl).
Defined.

(** ** Batches of members *)

Section Batches.

Variables (Json MemberDetails KeychainItem : Type).
Variable crypto_box_seal_open : Buffer -> Buffer -> Buffer -> error + Buffer.
Variable JSON_parse : DOMString -> error + Json.
Variable decodeVersionBox : Json -> error + MemberDetails.
Variable Keychain_getItem : DOMString -> option KeychainItem.
Variable decryptKeychainItem : KeychainItem -> error + KeyPair.t.

Local Abbreviation details_of keyPair id encrypted :=
  (decryptedDetails crypto_box_seal_open JSON_parse decodeVersionBox keyPair id encrypted).
Local Abbreviation loop keyPair groups data :=
  (decryptMembers_loop crypto_box_seal_open JSON_parse decodeVersionBox keyPair groups data).
Local Abbreviation loop' keyPair data :=
  (decryptMembersWithoutRegistrations_loop crypto_box_seal_open JSON_parse
     decodeVersionBox keyPair data).

(** The details of an envelope, in terms of what is done to it: nothing
    when it is null or the empty string, and otherwise unsealing, parsing
    and decoding, each of which may throw. *)
Lemma decryptedDetails_fst keyPair id encrypted :
  fst (details_of keyPair id encrypted) =
  match encrypted with
  | None | Some [] => None
  | Some sealed =>
      match unsealMessage crypto_box_seal_open sealed
              (KeyPair.publicKey keyPair) (KeyPair.privateKey keyPair) with
      | inl _ => None
      | inr json =>
          match JSON_parse json with
          | inl _ => None
          | inr plain =>
              match decodeVersionBox plain with
              | inl _ => None
              | inr details => Some details
              end
          end
      end
  end.
Proof.
  unfold decryptedDetails, readDetails, andThen.
  destruct encrypted as [[|u sealed]|]; try reflexivity. cbn [notSet default].
  destruct (unsealMessage _ _ _ _) as [e|json]; [reflexivity |].
  destruct (JSON_parse json) as [e|plain]; [reflexivity |].
  destruct (decodeVersionBox plain); reflexivity.
Qed.

Lemma decryptMembers_loop_lookup keyPair groups data j encrypted :
  data !! j = Some encrypted ->
  exists member,
    fst (loop keyPair groups data) !! j = Some member /\
    MemberWithRegistrations.id member = EncryptedMemberWithRegistrations.id encrypted /\
    MemberWithRegistrations.publicKey member =
      EncryptedMemberWithRegistrations.publicKey encrypted /\
    MemberWithRegistrations.registrations member =
      EncryptedMemberWithRegistrations.registrations encrypted /\
    MemberWithRegistrations.details member =
      fst (details_of keyPair (EncryptedMemberWithRegistrations.id encrypted)
             (EncryptedMemberWithRegistrations.encryptedForOrganization encrypted)).
Proof.
  revert j. induction data as [|first rest IH]; intros j Hj; [discriminate |].
  cbn [decryptMembers_loop].
  destruct (decryptedDetails _ _ _ _ (EncryptedMemberWithRegistrations.id first) _)
    as [details console] eqn:Hdetails.
  destruct (decryptMembers_loop _ _ _ _ _ rest) as [members console'] eqn:Hrest.
  destruct j as [|j].
  - injection Hj as <-. eexists. split; [reflexivity |]. cbn.
    rewrite Hdetails. auto.
  - destruct (IH j Hj) as (member & Hmember & Hfields).
    exists member. split; [| exact Hfields]. exact Hmember.
Qed.

Lemma decryptMembers_loop_length keyPair groups data :
  length (fst (loop keyPair groups data)) = length data.
Proof.
  induction data as [|first rest IH]; [reflexivity |]. cbn [decryptMembers_loop].
  destruct (decryptedDetails _ _ _ _ _ _) as [details console].
  destruct (decryptMembers_loop _ _ _ _ _ rest) as [members console'].
  cbn in *. rewrite IH. reflexivity.
Qed.

(** X24. With the key pair of the organization at hand, [decryptMembers]
    returns one member per encrypted member, in the order of the input,
    each with the id, the public key and the registrations of its input.
    Its details are absent when [encryptedForOrganization] is null or the
    empty string, which is then never unsealed, and when [unsealMessage]
    with the key pair of the organization, [JSON.parse] of what it returns
    or the decoder throws; they are what the decoder returns otherwise. *)
Theorem decryptMembers_each organization keychainItem keyPair data :
  Keychain_getItem (Organization.publicKey organization) = Some keychainItem ->
  decryptKeychainItem keychainItem = inr keyPair ->
  exists members,
    fst (decryptMembers crypto_box_seal_open JSON_parse decodeVersionBox
           Keychain_getItem decryptKeychainItem organization data) = inr members /\
    length members = length data /\
    forall j encrypted,
      data !! j = Some encrypted ->
      exists member,
        members !! j = Some member /\
        MemberWithRegistrations.id member = EncryptedMemberWithRegistrations.id encrypted /\
        MemberWithRegistrations.publicKey member =
          EncryptedMemberWithRegistrations.publicKey encrypted /\
        MemberWithRegistrations.registrations member =
          EncryptedMemberWithRegistrations.registrations encrypted /\
        MemberWithRegistrations.details member =
          match EncryptedMemberWithRegistrations.encryptedForOrganization encrypted with
          | None | Some [] => None
          | Some sealed =>
              match unsealMessage crypto_box_seal_open sealed
                      (KeyPair.publicKey keyPair) (KeyPair.privateKey keyPair) with
              | inl _ => None
              | inr json =>
                  match JSON_parse json with
                  | inl _ => None
                  | inr plain =>
                      match decodeVersionBox plain with
                      | inl _ => None
                      | inr details => Some details
                      end
                  end
              end
          end.
Proof.
  intros Hitem Hkeys. unfold decryptMembers. rewrite Hitem, Hkeys.
  pose proof (decryptMembers_loop_length keyPair (Organization.groups organization) data)
    as Hlength.
  pose proof (decryptMembers_loop_lookup keyPair (Organization.groups organization) data)
    as Hlookup.
  destruct (decryptMembers_loop _ _ _ _ _ data) as [members console].
  cbn [fst] in *. exists members. split; [reflexivity |]. split; [exact Hlength |].
  intros j encrypted Hj. destruct (Hlookup j encrypted Hj) as (member & ? & ? & ? & ? & Hd).
  exists member. repeat split; try assumption.
  rewrite Hd. apply decryptedDetails_fst.
Qed.

(** *** The two loops agree *)

Lemma loops_agree keyPair groups data :
  snd (loop keyPair groups data) = snd (loop' keyPair (withoutRegistrations <$> data)) /\
  Forall2
    (fun (member : MemberWithRegistrations.t MemberDetails) (member' : Member.t MemberDetails) =>
       MemberWithRegistrations.id member = Member.id member' /\
       MemberWithRegistrations.details member = Member.details member' /\
       MemberWithRegistrations.publicKey member = Member.publicKey member')
    (fst (loop keyPair groups data))
    (fst (loop' keyPair (withoutRegistrations <$> data))).
Proof.
  induction data as [|first rest [IHconsole IHmembers]]; [split; [reflexivity | constructor] |].
  rewrite fmap_cons. cbn [decryptMembers_loop decryptMembersWithoutRegistrations_loop].
  cbn [withoutRegistrations EncryptedMember.id EncryptedMember.encryptedForOrganization
       EncryptedMember.publicKey].
  destruct (decryptedDetails _ _ _ _ _ _) as [details console].
  destruct (decryptMembers_loop _ _ _ _ _ rest) as [members console'].
  destruct (decryptMembersWithoutRegistrations_loop _ _ _ _ _) as [members' console''].
  cbn in *. subst console''. split; [reflexivity |].
  constructor; [| exact IHmembers]. cbn. auto.
Qed.

(** X27. [decryptMembers] and [decryptMembersWithoutRegistrations] agree:
    on the same members, taken without their registrations by the second,
    they fail with the same error or return members with the same ids,
    details and public keys, in the same order, and they write the same
    lines to the console. *)
Theorem decryptMembers_agree organization data :
  let run :=
    decryptMembers crypto_box_seal_open JSON_parse decodeVersionBox
      Keychain_getItem decryptKeychainItem organization data in
  let run' :=
    decryptMembersWithoutRegistrations crypto_box_seal_open JSON_parse decodeVersionBox
      Keychain_getItem decryptKeychainItem organization (withoutRegistrations <$> data) in
  snd run = snd run' /\
  match fst run, fst run' with
  | inr members, inr members' =>
      Forall2
        (fun member member' =>
           MemberWithRegistrations.id member = Member.id member' /\
           MemberWithRegistrations.details member = Member.details member' /\
           MemberWithRegistrations.publicKey member = Member.publicKey member')
        members members'
  | inl e, inl e' => e = e'
  | _, _ => False
  end.
Proof.
  cbv zeta. unfold decryptMembers, decryptMembersWithoutRegistrations.
  destruct (Keychain_getItem _) as [keychainItem|]; [| split; reflexivity].
  destruct (decryptKeychainItem keychainItem) as [e|keyPair]; [split; reflexivity |].
  pose proof (loops_agree keyPair (Organization.groups organization) data)
    as [Hconsole Hmembers].
  destruct (decryptMembers_loop _ _ _ _ _ data) as [members console].
  destruct (decryptMembersWithoutRegistrations_loop _ _ _ _ _) as [members' console'].
  cbn in *. auto.
Qed.

(** *** What is written to the console *)

Lemma decryptedDetails_console keyPair id encrypted :
  let '(details, console) := details_of keyPair id encrypted in
  match details with Some _ => O | None => 1%nat end =
    (length (List.filter isWarning console) + length (List.filter isFailure console))%nat /\
  (details = None <-> console <> []).
Proof.
  unfold decryptedDetails. destruct (notSet encrypted).
  { split; [reflexivity |]. split; [discriminate | reflexivity]. }
  destruct (readDetails _ _ _ _ _).
  - split; [reflexivity |]. split; [discriminate | reflexivity].
  - split; [reflexivity |]. split; [discriminate | congruence].
Qed.

Lemma filter_app_length (f : Event -> bool) l1 l2 :
  length (List.filter f (l1 ++ l2)) =
  (length (List.filter f l1) + length (List.filter f l2))%nat.
Proof. rewrite List.filter_app, length_app. reflexivity. Qed.

Lemma decryptMembers_loop_console keyPair groups data :
  let '(members, console) := loop keyPair groups data in
  length (filter (fun member => MemberWithRegistrations.details member = None) members) =
    (length (List.filter isWarning console) + length (List.filter isFailure console))%nat /\
  (console = [] <->
   Forall (fun member => is_Some (MemberWithRegistrations.details member)) members).
Proof.
  induction data as [|first rest IH]; [split; [reflexivity | split; auto] |].
  cbn [decryptMembers_loop].
  pose proof (decryptedDetails_console keyPair (EncryptedMemberWithRegistrations.id first)
                (EncryptedMemberWithRegistrations.encryptedForOrganization first)) as Hfirst.
  destruct (decryptedDetails _ _ _ _ _ _) as [details console].
  destruct (decryptMembers_loop _ _ _ _ _ rest) as [members console'].
  destruct Hfirst as [Hcount Hempty], IH as [IHcount IHempty].
  rewrite !filter_app_length. split.
  - destruct details as [d|].
    + rewrite filter_cons_False by (cbn; discriminate). lia.
    + rewrite filter_cons_True by reflexivity. cbn [length]. lia.
  - rewrite Forall_cons. cbn [fillGroups MemberWithRegistrations.details].
    split.
    + intros Happ. apply app_eq_nil in Happ as [-> ->]. split; [| apply IHempty; reflexivity].
      destruct details as [d|]; [eauto |]. exfalso. apply Hempty; reflexivity.
    + intros [[d ->] Hrest]. apply IHempty in Hrest as ->.
      destruct console as [|ev console]; [reflexivity |].
      exfalso. assert (Some d = None) by (apply Hempty; discriminate). discriminate.
Qed.

(** X25. No member loses its details in silence. With the key pair of
    the organization at hand, the members that [decryptMembers] returns
    without details are as many as the warnings ([encryptedForOrganization
    not set]) and the failures ([Failed to read member data]) on the
    console together; and the console stays empty exactly when every
    member has its details. *)
Theorem decryptMembers_console organization keychainItem keyPair data :
  Keychain_getItem (Organization.publicKey organization) = Some keychainItem ->
  decryptKeychainItem keychainItem = inr keyPair ->
  exists members console,
    decryptMembers crypto_box_seal_open JSON_parse decodeVersionBox
      Keychain_getItem decryptKeychainItem organization data = (inr members, console) /\
    length (filter (fun member => MemberWithRegistrations.details member = None) members) =
      (length (List.filter isWarning console) +
       length (List.filter isFailure console))%nat /\
    (console = [] <->
     Forall (fun member => is_Some (MemberWithRegistrations.details member)) members).
Proof.
  intros Hitem Hkeys. unfold decryptMembers. rewrite Hitem, Hkeys.
  pose proof (decryptMembers_loop_console keyPair (Organization.groups organization) data)
    as Hconsole.
  destruct (decryptMembers_loop _ _ _ _ _ data) as [members console].
  exists members, console. split; [reflexivity | exact Hconsole].
Qed.

End Batches.

(** The batch whose second envelope is not JSON: three members, the
    second one without details, the first one with the details [{}]. *)
Lemma decryptMembers_each_witness :
  exists members first second,
    fst (decryptMembers plainBox_open bracesOnly inr oneKey inr
           sampleOrganization sampleBatch) = inr members /\
    length members = 3%nat /\
    members !! 0%nat = Some first /\
    MemberWithRegistrations.details first = Some [123; 125] /\
    members !! 1%nat = Some second /\
    MemberWithRegistrations.details second = None.
Proof.
  destruct (decryptMembers_each DOMString DOMString KeyPair.t
              plainBox_open bracesOnly inr oneKey inr
              sampleOrganization (KeyPair.create [] []) (KeyPair.create [] [])
              sampleBatch eq_refl eq_refl) as (members & Hmembers & Hlength & Heach).
  destruct (Heach 0%nat _ eq_refl) as (first & Hfirst & _ & _ & _ & Hdetails).
  destruct (Heach 1%nat _ eq_refl) as (second & Hsecond & _ & _ & _ & Hdetails').
  exists members, first, second.
  split; [exact Hmembers |]. split; [exact Hlength |].
  split; [exact Hfirst |]. split; [exact Hdetails |].
  split; [exact Hsecond | exact Hdetails'].
Defined.

(** The batch with one envelope that is not JSON: one failure on the
    console, and one member without details. *)
Lemma decryptMembers_console_witness :
  exists members console,
    decryptMembers plainBox_open bracesOnly inr oneKey inr
      sampleOrganization sampleBatch = (inr members, console) /\
    length (filter (fun member => MemberWithRegistrations.details member = None) members) =
      (length (List.filter isWarning console) +
       length (List.filter isFailure console))%nat.
Proof.
  destruct (decryptMembers_console DOMString DOMString KeyPair.t
              plainBox_open bracesOnly inr oneKey inr
              sampleOrganization (KeyPair.create [] []) (KeyPair.create [] [])
              sampleBatch eq_refl eq_refl) as (members & console & Hrun & Hcount & _).
  exists members, console. split; [exact Hrun | exact Hcount].
Defined.

(** ** Filters *)

Lemma includes_elem_of ids id : includes ids id = true <-> id ∈ ids.
Proof.
  unfold includes. rewrite existsb_exists. split.
  - intros (x & Hin & Heq). apply String.eqb_eq in Heq as ->.
    apply list_elem_of_In. exact Hin.
  - intros Hin. exists id. split; [apply list_elem_of_In; exact Hin | apply String.eqb_refl].
Qed.

Lemma doesMatch_loop_Or ids choiceIds :
  doesMatch_loop ChoicesFilterMode.Or ids choiceIds = true <->
  exists id, id ∈ choiceIds /\ id ∈ ids.
Proof.
  induction choiceIds as [|id rest IH]; cbn [doesMatch_loop].
  - split; [discriminate | intros (id & Hin & _); inversion Hin].
  - destruct (includes ids id) eqn:Hid.
    + split; [| reflexivity]. intros _. exists id.
      split; [left | apply includes_elem_of; exact Hid].
    + rewrite IH. split.
      * intros (x & Hx & Hin). exists x. split; [right; exact Hx | exact Hin].
      * intros (x & Hx & Hin). apply elem_of_cons in Hx as [-> | Hx]; [| eauto].
        apply includes_elem_of in Hin. congruence.
Qed.

Lemma doesMatch_loop_And ids choiceIds :
  doesMatch_loop ChoicesFilterMode.And ids choiceIds = true <->
  forall id, id ∈ choiceIds -> id ∈ ids.
Proof.
  induction choiceIds as [|id rest IH]; cbn [doesMatch_loop].
  - split; [intros _ id Hin; inversion Hin | reflexivity].
  - destruct (includes ids id) eqn:Hid.
    + rewrite IH. split.
      * intros Hrest x [-> | Hx]%elem_of_cons; [apply includes_elem_of; exact Hid | auto].
      * intros Hall x Hx. apply Hall. right. exact Hx.
    + split; [discriminate |]. intros Hall.
      assert (id ∈ ids) as Hin by (apply Hall; left).
      apply includes_elem_of in Hin. congruence.
Qed.

(** X28. What a [ChoicesFilter] matches. A filter without choices matches
    every object, and so does the filter [createFilter] makes. With
    choices, mode [Or] matches the objects whose value holds at least one
    of the chosen ids, and mode [And] those whose value holds all of
    them. *)
Theorem doesMatch_choices {T} (filter : ChoicesFilter.t T) (object : T) :
  let ids := ChoicesFilterDefinition.getValue (ChoicesFilter.definition filter) object in
  (doesMatch filter object = true <->
   ChoicesFilter.choiceIds filter = [] \/
   match ChoicesFilter.mode filter with
   | ChoicesFilterMode.Or => exists id, id ∈ ChoicesFilter.choiceIds filter /\ id ∈ ids
   | ChoicesFilterMode.And => forall id, id ∈ ChoicesFilter.choiceIds filter -> id ∈ ids
   end) /\
  (forall definition, doesMatch (createFilter definition) object = true).
Proof.
  cbv zeta. split; [| reflexivity].
  destruct filter as [choiceIds definition mode]. unfold doesMatch.
  cbn [ChoicesFilter.choiceIds ChoicesFilter.definition ChoicesFilter.mode].
  destruct choiceIds as [|id rest]; [split; auto |].
  cbn [length Nat.eqb].
  destruct mode; [rewrite doesMatch_loop_Or | rewrite doesMatch_loop_And].
  - split; [auto | intros [? | ?]; [discriminate | assumption]].
  - split; [auto | intros [? | ?]; [discriminate | assumption]].
Qed.

Lemma decodeAll_strings (l : list string) :
  decodeAll Data_string (PlainString <$> l) = inr l.
Proof.
  induction l as [|s l IH]; [reflexivity |].
  rewrite fmap_cons. cbn [decodeAll Data_string andThen]. rewrite IH. reflexivity.
Qed.

Lemma Data_enum_toString mode :
  Data_enum (PlainString (ChoicesFilterMode.toString mode)) = inr mode.
Proof. destruct mode; reflexivity. Qed.

Lemma encode_definitionId {T} (filter : ChoicesFilter.t T) :
  field (ChoicesFilter_encode filter) "definitionId" =
  inr (PlainString (ChoicesFilterDefinition.id (ChoicesFilter.definition filter))).
Proof. reflexivity. Qed.

Lemma encode_choiceIds {T} (filter : ChoicesFilter.t T) :
  optionalField (ChoicesFilter_encode filter) "choiceIds" =
  Some (PlainArray (PlainString <$> ChoicesFilter.choiceIds filter)).
Proof. reflexivity. Qed.

Lemma encode_mode {T} (filter : ChoicesFilter.t T) :
  optionalField (ChoicesFilter_encode filter) "mode" =
  Some (PlainString (ChoicesFilterMode.toString (ChoicesFilter.mode filter))).
Proof. reflexivity. Qed.

Lemma decode_encode {T} (definition : ChoicesFilterDefinition.t T) (filter : ChoicesFilter.t T) :
  ChoicesFilterDefinition_decode definition (ChoicesFilter_encode filter) =
  inr (ChoicesFilter.create (ChoicesFilter.choiceIds filter) definition
         (ChoicesFilter.mode filter)).
Proof.
  unfold ChoicesFilterDefinition_decode.
  rewrite encode_choiceIds, encode_mode. cbn [Data_array].
  rewrite decodeAll_strings. cbn [andThen]. rewrite Data_enum_toString. reflexivity.
Qed.

(** X29. [clone] returns a [ChoicesFilter] like the one it is called on:
    the same definition, the same choices in the same order and the same
    mode; so the clone matches the objects the filter matches. *)
Theorem clone_ChoicesFilter {T} (filter : ChoicesFilter.t T) :
  clone filter = inr filter /\
  forall filter', clone filter = inr filter' ->
    forall object, doesMatch filter' object = doesMatch filter object.
Proof.
  assert (clone filter = inr filter) as Hclone.
  { unfold clone.
    cbn [definition_decode filter_definition filter_encode
         ChoicesFilter_Filter ChoicesFilterDefinition_FilterDefinition].
    rewrite decode_encode. destruct filter; reflexivity. }
  split; [exact Hclone |]. intros filter' Hfilter' object. congruence.
Qed.

Lemma find_definition_first {T} (definitions : list (ChoicesFilterDefinition.t T))
    definition :
  NoDup (ChoicesFilterDefinition.id <$> definitions) -> definition ∈ definitions ->
  List.find (fun d => String.eqb (ChoicesFilterDefinition.id d)
                        (ChoicesFilterDefinition.id definition)) definitions =
  Some definition.
Proof.
  induction definitions as [|d rest IH]; intros Hnodup Hin; [inversion Hin |].
  rewrite fmap_cons in Hnodup. apply NoDup_cons in Hnodup as [Hfresh Hnodup].
  cbn [List.find]. apply elem_of_cons in Hin as [-> | Hin].
  - rewrite String.eqb_refl. reflexivity.
  - destruct (String.eqb_spec (ChoicesFilterDefinition.id d)
                (ChoicesFilterDefinition.id definition)) as [Heq|_]; [| auto].
    exfalso. apply Hfresh. rewrite Heq. apply list_elem_of_fmap_2. exact Hin.
Qed.

Lemma find_definition_none {T} (definitions : list (ChoicesFilterDefinition.t T)) id :
  id ∉ (ChoicesFilterDefinition.id <$> definitions) ->
  List.find (fun d => String.eqb (ChoicesFilterDefinition.id d) id) definitions = None.
Proof.
  induction definitions as [|d rest IH]; intros Hnin; [reflexivity |].
  rewrite fmap_cons in Hnin. apply not_elem_of_cons in Hnin as [Hne Hnin].
  cbn [List.find].
  destruct (String.eqb_spec (ChoicesFilterDefinition.id d) id); [congruence | auto].
Qed.

(** X30. [FilterDecoder.decode] on an encoded [ChoicesFilter]. When no
    definition of the decoder has the id of the filter's definition, it
    throws the SimpleError [invalid_definition]. Otherwise it returns the
    filter, with its choices and its mode, attached to the first
    definition of the decoder with that id: the filter itself when the ids
    of the definitions are distinct and its definition is among them. *)
Theorem FilterDecoder_decode_encode {T} (definitions : list (ChoicesFilterDefinition.t T))
    (filter : ChoicesFilter.t T) :
  (ChoicesFilterDefinition.id (ChoicesFilter.definition filter)
     ∉ (ChoicesFilterDefinition.id <$> definitions) ->
   FilterDecoder_decode definitions (ChoicesFilter_encode filter) =
     inl (SimpleError "invalid_definition")) /\
  (forall definition,
     List.find
       (fun d => String.eqb (ChoicesFilterDefinition.id d)
                   (ChoicesFilterDefinition.id (ChoicesFilter.definition filter)))
       definitions = Some definition ->
     FilterDecoder_decode definitions (ChoicesFilter_encode filter) =
       inr (ChoicesFilter.create (ChoicesFilter.choiceIds filter) definition
              (ChoicesFilter.mode filter))) /\
  (NoDup (ChoicesFilterDefinition.id <$> definitions) ->
   ChoicesFilter.definition filter ∈ definitions ->
   FilterDecoder_decode definitions (ChoicesFilter_encode filter) = inr filter).
Proof.
  assert (forall found,
            List.find
              (fun d => String.eqb (ChoicesFilterDefinition.id d)
                          (ChoicesFilterDefinition.id (ChoicesFilter.definition filter)))
              definitions = found ->
            FilterDecoder_decode definitions (ChoicesFilter_encode filter) =
            match found with
            | Some definition =>
                inr (ChoicesFilter.create (ChoicesFilter.choiceIds filter) definition
                       (ChoicesFilter.mode filter))
            | None => inl (SimpleError "invalid_definition")
            end) as Hdecode.
  { intros found Hfound. unfold FilterDecoder_decode.
    cbn [definition_decode definition_id ChoicesFilterDefinition_FilterDefinition].
    rewrite encode_definitionId. cbn [andThen Data_string]. rewrite Hfound.
    destruct found as [definition|]; [apply decode_encode | reflexivity]. }
  split; [| split].
  - intros Hnin. apply (Hdecode None). apply find_definition_none. exact Hnin.
  - intros definition Hfound. apply (Hdecode (Some definition)). exact Hfound.
  - intros Hnodup Hin.
    rewrite (Hdecode _ (find_definition_first definitions _ Hnodup Hin)).
    destruct filter; reflexivity.
Qed.

(** The filter on groups, as [createFilter] makes it, comes back. *)
Lemma FilterDecoder_decode_encode_witness :
  FilterDecoder_decode [groupsDefinition] (ChoicesFilter_encode (createFilter groupsDefinition))
  = inr (createFilter groupsDefinition).
Proof.
  apply (FilterDecoder_decode_encode [groupsDefinition] (createFilter groupsDefinition)).
  - apply NoDup_singleton.
  - left.
Defined.
